(** * The territory game engine of [game.c]: model and properties

    The engine keeps a [width] x [height] board of fields, every field
    holding the number of the player that owns it and the identifier of the
    area it belongs to, and one record of counters per player.  This file
    embeds the engine's functions as Rocq functions over that state and
    proves, or refutes on concrete games, the properties stated about it.

    Conventions of the embedding:
    - [uint32_t] and [uint64_t] values are integers of [Z]; every C
      operation that can leave the range is followed by [wrap32] or
      [wrap64];
    - [g->board] is a list of [width] columns of [height] fields,
      [g->players] a list of player records, [g->neighbours] a list of four
      tags;
    - a read or write of [g->players] outside the array is undefined
      behaviour in C: the model stops with [Fault];
    - [BFS] recurses on a bound of the depth; [OutOfFuel] says the bound ran
      out, and [BFS_terminates] shows the bound used by [game_move] never
      does on a well formed game. *)

From Stdlib Require Import ZArith Lia List Bool.
From stdpp Require Import base option list.

Local Open Scope Z_scope.

(** ** Machine integers *)

Definition wrap32 (z : Z) : Z := z mod 2 ^ 32.
Definition wrap64 (z : Z) : Z := z mod 2 ^ 64.

Definition uint32 (z : Z) : Prop := 0 <= z < 2 ^ 32.
Definition uint64 (z : Z) : Prop := 0 <= z < 2 ^ 64.

(** ** Outcomes of a call *)

Inductive res (A : Type) : Type :=
| Ok (a : A)
| Fault
| OutOfFuel.

Arguments Ok {A} a.
Arguments Fault {A}.
Arguments OutOfFuel {A}.

Definition res_bind {A B : Type} (m : res A) (k : A -> res B) : res B :=
  match m with
  | Ok a => k a
  | Fault => Fault
  | OutOfFuel => OutOfFuel
  end.

Notation "x <- m ;; k" := (res_bind m (fun x => k))
  (at level 100, m at next level, right associativity).

(** ** Data: [struct pair], [struct player], [struct game] *)

Record pair_t : Type := mk_pair {
  player : Z;
  parent_id : Z
}.

Record player_t : Type := mk_player {
  boundary : Z;
  busy_areas : Z;
  completed_moves : Z
}.

Record game_t : Type := mk_game {
  board : list (list pair_t);
  players : list player_t;
  neighbours : list Z;
  width : Z;
  height : Z;
  areas : Z;
  players_num : Z
}.

Definition MAX_PLAYERS : Z := 35.

Definition set_board (g : game_t) (b : list (list pair_t)) : game_t :=
  mk_game b (players g) (neighbours g) (width g) (height g) (areas g)
          (players_num g).

Definition set_players (g : game_t) (ps : list player_t) : game_t :=
  mk_game (board g) ps (neighbours g) (width g) (height g) (areas g)
          (players_num g).

Definition set_neighbours (g : game_t) (ns : list Z) : game_t :=
  mk_game (board g) (players g) ns (width g) (height g) (areas g)
          (players_num g).

(** *** Fields of the board

    [field b x y] is [b[x][y]].  Every read of the board in [game.c] comes
    after a test of the coordinates against [width] and [height], so on a
    board of the declared size the default below is never returned. *)

Definition zero_pair : pair_t := mk_pair 0 0.

Definition field (b : list (list pair_t)) (x y : Z) : pair_t :=
  match b !! Z.to_nat x with
  | Some col => default zero_pair (col !! Z.to_nat y)
  | None => zero_pair
  end.

Definition set_field (f : pair_t -> pair_t) (b : list (list pair_t))
    (x y : Z) : list (list pair_t) :=
  alter (alter f (Z.to_nat y)) (Z.to_nat x) b.

Definition with_player (p : Z) (c : pair_t) : pair_t :=
  mk_pair p (parent_id c).

Definition with_parent (id : Z) (c : pair_t) : pair_t :=
  mk_pair (player c) id.

(** [g->board[x][y].player = p] and [g->board[x][y].parent_id = id]. *)
Definition write_player (g : game_t) (x y p : Z) : game_t :=
  set_board g (set_field (with_player p) (board g) x y).

Definition write_parent (g : game_t) (x y id : Z) : game_t :=
  set_board g (set_field (with_parent id) (board g) x y).

(** *** Records of the players

    [g->players[p - 1]] with [p - 1] computed on 32 bits.  The index is
    compared with the length of the array first, so that an access far
    outside it is answered without counting up to the index. *)

Definition pidx (p : Z) : nat := Z.to_nat (wrap32 (p - 1)).

Definition get_player (g : game_t) (p : Z) : res player_t :=
  if Z.of_nat (length (players g)) <=? wrap32 (p - 1) then Fault
  else
    match players g !! pidx p with
    | Some r => Ok r
    | None => Fault
    end.

Definition upd_player (f : player_t -> player_t) (g : game_t) (p : Z)
    : res game_t :=
  r <- get_player g p ;;
  Ok (set_players g (<[pidx p := f r]> (players g))).

Definition add_boundary (d : Z) (r : player_t) : player_t :=
  mk_player (wrap64 (boundary r + d)) (busy_areas r) (completed_moves r).

Definition add_busy_areas (d : Z) (r : player_t) : player_t :=
  mk_player (boundary r) (wrap32 (busy_areas r + d)) (completed_moves r).

Definition add_completed_moves (d : Z) (r : player_t) : player_t :=
  mk_player (boundary r) (busy_areas r) (wrap64 (completed_moves r + d)).

(** ** [game_new]

    [None] is the [NULL] result.  The allocations are taken to succeed: the
    five [return NULL] that follow a failed [malloc] or [calloc] have no
    counterpart here.  [Some g] is a game the function returned, and [None]
    is the refusal of the arguments only; from [None] nothing follows about
    the arguments of a call of the program. *)

Definition game_new (w h ps a : Z) : option game_t :=
  if (w =? 0) || (h =? 0) || (ps =? 0) || (a =? 0) then None
  else if MAX_PLAYERS <? ps then None
  else Some (mk_game (replicate (Z.to_nat w) (replicate (Z.to_nat h) zero_pair))
                     (replicate (Z.to_nat ps) (mk_player 0 0 0))
                     (replicate 4%nat 0)
                     w h a ps).

(** ** Probes of the neighbourhood *)

Definition valid_coordinate (w h x y : Z) : bool :=
  negb ((w <=? x) || (h <=? y)).

(** The parameters are [uint64_t] here, so [x + 1] and [y + 1] do not wrap;
    the counter is at most 4. *)
Definition isSurrounded (b : list (list pair_t)) (w h p x y : Z) : Z :=
  let around := 0 in
  let around :=
    if (0 <? x) && valid_coordinate w h (x - 1) y
    then (if player (field b (x - 1) y) =? p then around + 1 else around)
    else around in
  let around :=
    if (x + 1 <? w) && valid_coordinate w h (x + 1) y
    then (if player (field b (x + 1) y) =? p then around + 1 else around)
    else around in
  let around :=
    if (0 <? y) && valid_coordinate w h x (y - 1)
    then (if player (field b x (y - 1)) =? p then around + 1 else around)
    else around in
  let around :=
    if (y + 1 <? h) && valid_coordinate w h x (y + 1)
    then (if player (field b x (y + 1)) =? p then around + 1 else around)
    else around in
  around.

(** The parameters are [uint32_t]: [x + 2] and [y + 2] are taken modulo
    [2 ^ 32]. *)
Definition common_free_fields (b : list (list pair_t)) (w h p x y : Z) : Z :=
  let common := 0 in
  let common :=
    if (1 <? x) && valid_coordinate w h (x - 2) y
    then (if player (field b (x - 2) y) =? p then common + 1 else common)
    else common in
  let common :=
    if (wrap32 (x + 2) <? w) && valid_coordinate w h (wrap32 (x + 2)) y
    then (if player (field b (wrap32 (x + 2)) y) =? p then common + 1
          else common)
    else common in
  let common :=
    if (1 <? y) && valid_coordinate w h x (y - 2)
    then (if player (field b x (y - 2)) =? p then common + 1 else common)
    else common in
  let common :=
    if (wrap32 (y + 2) <? h) && valid_coordinate w h x (wrap32 (y + 2))
    then (if player (field b x (wrap32 (y + 2))) =? p then common + 1
          else common)
    else common in
  common.

Definition update_strangers_boundary (g : game_t) (p x y : Z) : res game_t :=
  let stranger := player (field (board g) x y) in
  if stranger =? 0 then Ok g
  else if valid_coordinate (width g) (height g) x y && negb (stranger =? p)
  then upd_player (add_boundary (-1)) g stranger
  else Ok g.

Definition update_strangers (g : game_t) (p x y : Z) : res game_t :=
  g <- (if 0 <? x then update_strangers_boundary g p (x - 1) y else Ok g) ;;
  g <- (if wrap32 (x + 1) <? width g
        then update_strangers_boundary g p (wrap32 (x + 1)) y else Ok g) ;;
  g <- (if 0 <? y then update_strangers_boundary g p x (y - 1) else Ok g) ;;
  if wrap32 (y + 1) <? height g
  then update_strangers_boundary g p x (wrap32 (y + 1)) else Ok g.

Definition diagonal_neighbours (g : game_t) (p x y : Z) : Z :=
  let b := board g in
  let diagonal := 0 in
  let diagonal :=
    if (0 <? x) && (0 <? y) && (player (field b (x - 1) (y - 1)) =? p)
    then
      let d := if player (field b x (y - 1)) =? 0 then diagonal + 1
               else diagonal in
      if player (field b (x - 1) y) =? 0 then d + 1 else d
    else diagonal in
  let diagonal :=
    if (wrap32 (x + 1) <? width g) && (wrap32 (y + 1) <? height g)
       && (player (field b (wrap32 (x + 1)) (wrap32 (y + 1))) =? p)
    then
      let d := if player (field b x (wrap32 (y + 1))) =? 0 then diagonal + 1
               else diagonal in
      if player (field b (wrap32 (x + 1)) y) =? 0 then d + 1 else d
    else diagonal in
  diagonal.

(** ** The classifier of the neighbouring areas *)

(** [neighbours[i]] for a slot of the scratch array. *)
Definition nbr (ns : list Z) (i : nat) : Z := default 0 (ns !! i).

(** One test of the body of the inner loop of [different_areas]. *)
Definition differ (ns : list Z) (i j : nat) : bool :=
  negb (nbr ns i =? 0) && negb (nbr ns j =? 0) && negb (nbr ns i =? nbr ns j).

(** The inner loop [for (j = i + 1; j < 4 && areas < around; j++)] over the
    remaining values [js] of [j]; the counter stays below 7. *)
Fixpoint different_areas_inner (ns : list Z) (around : Z) (i : nat)
    (js : list nat) (areas : Z) : Z :=
  match js with
  | [] => areas
  | j :: js' =>
      if areas <? around
      then different_areas_inner ns around i js'
             (if differ ns i j then areas + 1 else areas)
      else areas
  end.

(** The outer loop [for (i = 0; i < 3; i++)] over the remaining values of
    [i]. *)
Fixpoint different_areas_outer (ns : list Z) (around : Z) (idxs : list nat)
    (areas : Z) : Z :=
  match idxs with
  | [] => areas
  | i :: idxs' =>
      different_areas_outer ns around idxs'
        (different_areas_inner ns around i (seq (S i) (4 - S i)) areas)
  end.

Definition different_areas (ns : list Z) (around : Z) : Z :=
  if around =? 4 then around
  else
    let areas := different_areas_outer ns around (seq 0 3) 0 in
    if areas =? 0 then 1 else areas.

Definition set_id (ns : list Z) : Z :=
  if negb (nbr ns 0 =? 0) then nbr ns 0
  else if negb (nbr ns 1 =? 0) then nbr ns 1
  else if negb (nbr ns 2 =? 0) then nbr ns 2
  else if negb (nbr ns 3 =? 0) then nbr ns 3
  else 0.

Definition find_neighbours (g : game_t) (p x y : Z) : game_t :=
  let b := board g in
  let n0 := if (0 <? x) && (player (field b (x - 1) y) =? p)
            then parent_id (field b (x - 1) y) else 0 in
  let n1 := if (wrap32 (x + 1) <? width g)
               && (player (field b (wrap32 (x + 1)) y) =? p)
            then parent_id (field b (wrap32 (x + 1)) y) else 0 in
  let n2 := if (0 <? y) && (player (field b x (y - 1)) =? p)
            then parent_id (field b x (y - 1)) else 0 in
  let n3 := if (wrap32 (y + 1) <? height g)
               && (player (field b x (wrap32 (y + 1))) =? p)
            then parent_id (field b x (wrap32 (y + 1))) else 0 in
  set_neighbours g [n0; n1; n2; n3].

(** ** The relabelling of a united area

    [BFS] of [game.c] calls itself on the four neighbours of every field it
    relabels.  [fuel] bounds the depth of the calls. *)

Fixpoint BFS (fuel : nat) (g : game_t) (id p x y : Z) : res game_t :=
  match fuel with
  | O => OutOfFuel
  | S fuel' =>
      if negb (valid_coordinate (width g) (height g) x y) then Ok g
      else if (player (field (board g) x y) =? p)
              && negb (parent_id (field (board g) x y) =? id)
      then
        let g := write_parent g x y id in
        g <- BFS fuel' g id p (wrap32 (x - 1)) y ;;
        g <- BFS fuel' g id p (wrap32 (x + 1)) y ;;
        g <- BFS fuel' g id p x (wrap32 (y - 1)) ;;
        BFS fuel' g id p x (wrap32 (y + 1))
      else Ok g
  end.

(** The depth allowed by [game_move]: one more than the number of fields. *)
Definition BFS_fuel (g : game_t) : nat := S (Z.to_nat (width g * height g)).

(** ** [game_move] *)

(** The block under [update game's info], which the branch of a new area
    repeats word for word before its own [return true]. *)
Definition update_game_info (g : game_t) (p x y : Z) : res game_t :=
  g <- upd_player (add_completed_moves 1) g p ;;
  g <- upd_player
         (add_boundary (isSurrounded (board g) (width g) (height g) 0 x y))
         g p ;;
  g <- upd_player
         (add_boundary
            (- common_free_fields (board g) (width g) (height g) p x y))
         g p ;;
  g <- upd_player (add_boundary (- diagonal_neighbours g p x y)) g p ;;
  update_strangers g p x y.

(** The branch [is an "island"], up to the update of the game's info. *)
Definition new_area (g : game_t) (p x y : Z) : res game_t :=
  let g := write_player g x y p in
  g <- upd_player (add_busy_areas 1) g p ;;
  r <- get_player g p ;;
  Ok (write_parent g x y (busy_areas r)).

(** The loop [adjust to existing area] over the remaining slots [idxs]. *)
Fixpoint adjust_area (g : game_t) (p x y : Z) (idxs : list nat) : res game_t :=
  match idxs with
  | [] => Ok g
  | i :: idxs' =>
      if negb (nbr (neighbours g) i =? 0)
      then
        let g := write_player g x y p in
        let g := write_parent g x y (nbr (neighbours g) i) in
        upd_player (add_boundary (-1)) g p
      else adjust_area g p x y idxs'
  end.

(** The branch taken when [different_areas] answers 1. *)
Definition extend_area (g : game_t) (p x y around : Z) : res game_t :=
  g <- (if 1 <? around
        then upd_player (add_busy_areas (- wrap32 (around - 1))) g p
        else Ok g) ;;
  adjust_area g p x y (seq 0 4).

(** The branch [union at least 2 areas]. *)
Definition union_areas (g : game_t) (p x y around : Z) : res game_t :=
  let g := write_player g x y p in
  let g := write_parent g x y (set_id (neighbours g)) in
  g <- upd_player
         (add_busy_areas
            (- wrap32 (different_areas (neighbours g) around - 1)))
         g p ;;
  g <- upd_player (add_boundary (-1)) g p ;;
  g <- BFS (BFS_fuel g) g (parent_id (field (board g) x y)) p
           (wrap32 (x - 1)) y ;;
  g <- BFS (BFS_fuel g) g (parent_id (field (board g) x y)) p
           (wrap32 (x + 1)) y ;;
  g <- BFS (BFS_fuel g) g (parent_id (field (board g) x y)) p
           x (wrap32 (y - 1)) ;;
  BFS (BFS_fuel g) g (parent_id (field (board g) x y)) p x (wrap32 (y + 1)).

(** The update of the areas and tags of an accepted move with
    [around > 0]. *)
Definition join_area (g : game_t) (p x y around : Z) : res game_t :=
  let g := find_neighbours g p x y in
  if different_areas (neighbours g) around =? 1
  then extend_area g p x y around
  else union_areas g p x y around.

Definition game_move (g : game_t) (p x y : Z) : res (bool * game_t) :=
  if players_num g <? p then Ok (false, g)
  else if negb (valid_coordinate (width g) (height g) x y) then Ok (false, g)
  else if negb (player (field (board g) x y) =? 0) then Ok (false, g)
  else
    let around := isSurrounded (board g) (width g) (height g) p x y in
    if around =? 0
    then
      r <- get_player g p ;;
      if busy_areas r =? areas g then Ok (false, g)
      else
        g <- new_area g p x y ;;
        g <- update_game_info g p x y ;;
        Ok (true, g)
    else
      g <- join_area g p x y around ;;
      g <- update_game_info g p x y ;;
      Ok (true, g).

(** ** The queries *)

Definition game_busy_fields (g : game_t) (p : Z) : res Z :=
  if players_num g <? p then Ok 0
  else r <- get_player g p ;; Ok (completed_moves r).

(** The loop [for (p = 0; p < g->players_num; p++)] of [game_free_fields]
    over the remaining indices. *)
Fixpoint busy_fields_loop (ps : list player_t) (idxs : list nat) (acc : Z)
    : res Z :=
  match idxs with
  | [] => Ok acc
  | i :: idxs' =>
      match ps !! i with
      | Some r => busy_fields_loop ps idxs' (wrap64 (acc + completed_moves r))
      | None => Fault
      end
  end.

Definition game_free_fields (g : game_t) (p : Z) : res Z :=
  if players_num g <? p then Ok 0
  else
    player_tmp <- get_player g p ;;
    if busy_areas player_tmp =? areas g then Ok (boundary player_tmp)
    else
      let all_fields := wrap64 (height g * width g) in
      busy_fields_all <-
        busy_fields_loop (players g) (seq 0 (Z.to_nat (players_num g))) 0 ;;
      Ok (wrap64 (all_fields - busy_fields_all)).

Definition game_board_width (g : game_t) : Z := width g.
Definition game_board_height (g : game_t) : Z := height g.
Definition game_players (g : game_t) : Z := players_num g.

(** ** The symbols of the players and the picture of the board

    A [char] is its code, an integer; the conversion of the [uint32_t] sum
    to [char] keeps the low 8 bits.  With at most 35 players the sums stay
    below 128, where the signedness of [char] plays no role. *)

Definition wrap8 (z : Z) : Z := z mod 2 ^ 8.

Definition char_dot : Z := 46.
Definition char_newline : Z := 10.
Definition char_0 : Z := 48.
Definition char_a : Z := 97.

Definition game_player (g : game_t) (p : Z) : Z :=
  if (game_players g <? p) || (p =? 0) then char_dot
  else if p <=? 9 then wrap8 (wrap32 (p + char_0))
  else wrap8 (wrap32 (wrap32 (p - 10) + char_a)).

(** The inner loop of [game_board] for the row [i], over the remaining
    columns [js]: every turn writes one symbol at [board[idx]] and moves
    [idx] on, so the buffer grows at its end. *)
Fixpoint board_row (g : game_t) (i : Z) (js : list Z) (buf : list Z)
    : list Z :=
  match js with
  | [] => buf
  | j :: js' =>
      board_row g i js'
        (buf ++ [game_player g (player (field (board g) j i))])
  end.

(** The outer loop over the remaining rows [rows]; a newline closes every
    row. *)
Fixpoint board_rows (g : game_t) (rows : list Z) (buf : list Z) : list Z :=
  match rows with
  | [] => buf
  | i :: rows' =>
      board_rows g rows'
        (board_row g i (seqZ 0 (width g)) buf ++ [char_newline])
  end.

(** [game_board]: the characters written before the closing [0], which
    the function puts at index [(width + 1) * height].  The outer loop
    starts at [height - 1] and stops when [i + 1] is 0 on 32 bits, that is
    after the row 0.  Allocation is taken to succeed. *)
Definition game_board (g : game_t) : list Z :=
  board_rows g (reverse (seqZ 0 (height g))) [].

(** ** Runs of moves *)

(** A call of [game_move] as the driver writes it. *)
Record move : Type := mk_move { mv_player : Z; mv_x : Z; mv_y : Z }.

(** The game after the calls of [ms], whatever each of them answers. *)
Fixpoint play (g : game_t) (ms : list move) : res game_t :=
  match ms with
  | [] => Ok g
  | m :: ms' =>
      r <- game_move g (mv_player m) (mv_x m) (mv_y m) ;;
      play (snd r) ms'
  end.

(** The answers of the calls of [ms] in order. *)
Fixpoint answers (g : game_t) (ms : list move) : res (list bool) :=
  match ms with
  | [] => Ok []
  | m :: ms' =>
      r <- game_move g (mv_player m) (mv_x m) (mv_y m) ;;
      bs <- answers (snd r) ms' ;;
      Ok (fst r :: bs)
  end.

(** ** Measures and predicates used by the statements *)

(** [b[i][j]] with indices of [nat]. *)
Definition cell (b : list (list pair_t)) (i j : nat) : pair_t :=
  match b !! i with
  | Some col => default zero_pair (col !! j)
  | None => zero_pair
  end.

(** The heights of the columns of a board. *)
Definition shape (b : list (list pair_t)) : list nat := map length b.

(** The board has [w] columns of [h] fields. *)
Definition board_ok (w h : Z) (b : list (list pair_t)) : Prop :=
  shape b = replicate (Z.to_nat w) (Z.to_nat h).

(** Every owner is 0 or the number of a player. *)
Definition owners_ok (n : Z) (b : list (list pair_t)) : Prop :=
  forall i j, 0 <= player (cell b i j) <= n.

(** The number of fields of a board that satisfy [P]. *)
Definition count_fields (P : pair_t -> bool) (b : list (list pair_t)) : nat :=
  sum_list_with (sum_list_with (fun c => if P c then 1%nat else 0%nat)) b.

Definition is_empty (c : pair_t) : bool := player c =? 0.

(** The number of fields that nobody owns. *)
Definition empty_fields (g : game_t) : Z :=
  Z.of_nat (count_fields is_empty (board g)).

(** The sum of [completed_moves] over the players, as an integer. *)
Definition placed_total (ps : list player_t) : Z :=
  foldr (fun r acc => completed_moves r + acc) 0 ps.

(** The fields [BFS] still has to relabel: owned by [p], tag other than
    [id]. *)
Definition stale (id p : Z) (c : pair_t) : bool :=
  (player c =? p) && negb (parent_id c =? id).

(** The representation invariant of a game. *)
Record wf_game (g : game_t) : Prop := mk_wf {
  wf_width : 0 < width g < 2 ^ 32;
  wf_height : 0 < height g < 2 ^ 32;
  wf_players_num : 0 < players_num g <= MAX_PLAYERS;
  wf_players : length (players g) = Z.to_nat (players_num g);
  wf_board : board_ok (width g) (height g) (board g);
  wf_owners : owners_ok (players_num g) (board g)
}.

(** The games a driver can reach: a fresh game, then calls of [game_move]
    with arguments of [uint32_t] that return. *)
Inductive reachable : game_t -> Prop :=
| reach_new (w h ps a : Z) (g : game_t) :
    uint32 w -> uint32 h -> uint32 ps -> uint32 a ->
    game_new w h ps a = Some g -> reachable g
| reach_move (g g' : game_t) (p x y : Z) (r : bool) :
    reachable g -> uint32 p -> uint32 x -> uint32 y ->
    game_move g p x y = Ok (r, g') -> reachable g'.

(** The record of player number [q]. *)
Definition player_rec (g : game_t) (q : Z) : option player_t :=
  players g !! Z.to_nat (q - 1).

(** ** The classifier as the specification words it

    Written after the specification's sentence for [k]: the pairs of slots
    are compared in the order (0,1), (0,2), (0,3), (1,2), (1,3), (2,3), a
    pair of nonzero tags that differ counts once, the count is capped at
    [around], and a count of zero is turned into 1. *)

Definition slot_pairs : list (nat * nat) :=
  [(0, 1); (0, 2); (0, 3); (1, 2); (1, 3); (2, 3)]%nat.

Definition count_differing (ns : list Z) (ps : list (nat * nat)) : Z :=
  Z.of_nat
    (length (List.filter (fun ij => differ ns (fst ij) (snd ij)) ps)).

Definition differing_pairs (ns : list Z) : Z := count_differing ns slot_pairs.

Definition classifier_spec (ns : list Z) (around : Z) : Z :=
  let k := Z.min (differing_pairs ns) around in
  if k =? 0 then 1 else k.

(** The number of distinct nonzero values among the four slots. *)
Definition distinct_tags (ns : list Z) : Z :=
  Z.of_nat (length (remove_dups
     (filter (fun t => t <> 0) [nbr ns 0; nbr ns 1; nbr ns 2; nbr ns 3]))).

(** ** The probes as the specification words them

    Written after the specification's sentences for the probes of the
    neighbourhood: the number of fields of the board, among the four next
    to [(x, y)] or among the four exactly two steps away on the same axis,
    whose owner is [q]. *)

Definition on_board (w h x y : Z) : bool :=
  (0 <=? x) && (x <? w) && (0 <=? y) && (y <? h).

Definition match_count (b : list (list pair_t)) (w h q : Z)
    (cs : list (Z * Z)) : Z :=
  Z.of_nat
    (length
       (List.filter
          (fun c => on_board w h (fst c) (snd c)
                    && (player (field b (fst c) (snd c)) =? q))
          cs)).

Definition orthogonal_match_count (b : list (list pair_t)) (w h q x y : Z)
    : Z :=
  match_count b w h q [(x - 1, y); (x + 1, y); (x, y - 1); (x, y + 1)].

Definition two_step_match_count (b : list (list pair_t)) (w h q x y : Z)
    : Z :=
  match_count b w h q [(x - 2, y); (x + 2, y); (x, y - 2); (x, y + 2)].

(** The diagonal count as the specification words it: the diagonal
    neighbours down-left and up-right of [(x, y)] are looked at, and for
    each that is a field of the board owned by [q], every empty field among
    the two fields between it and [(x, y)] counts once. *)
Definition leak_at (b : list (list pair_t)) (w h q x y dx dy : Z) : Z :=
  if on_board w h dx dy && (player (field b dx dy) =? q)
  then match_count b w h 0 [(x, dy); (dx, y)]
  else 0.

Definition diagonal_leak_count (b : list (list pair_t)) (w h q x y : Z) : Z :=
  leak_at b w h q x y (x - 1) (y - 1) + leak_at b w h q x y (x + 1) (y + 1).

(** ** Vocabulary of the proofs

    Relations between the game before and after a step of [game_move], and
    the functions the statements below are written with. *)

(** [ps'] is [ps] with [F i] applied to the record at every index [i]. *)
Definition players_map (F : nat -> player_t -> player_t)
    (ps ps' : list player_t) : Prop :=
  forall i, ps' !! i = F i <$> ps !! i.

(** [f] at index [k], nothing elsewhere. *)
Definition at_index (k : nat) (f : player_t -> player_t) (i : nat)
    (r : player_t) : player_t :=
  if decide (i = k) then f r else r.

(** [n] times [boundary--], written so that no decrement leaves the record
    as it is. *)
Definition dec_boundary (n : Z) (r : player_t) : player_t :=
  if n =? 0 then r else add_boundary (- n) r.

(** 1 when [update_strangers_boundary] at [(x, y)] decrements the record at
    index [i]. *)
Definition hit (b : list (list pair_t)) (w h p : Z) (i : nat) (x y : Z) : Z :=
  let stranger := player (field b x y) in
  if negb (stranger =? 0) && valid_coordinate w h x y
     && negb (stranger =? p) && bool_decide (i = pidx stranger)
  then 1 else 0.

(** The decrements [update_strangers] applies to the record at index [i]. *)
Definition strangers (b : list (list pair_t)) (w h p : Z) (i : nat)
    (x y : Z) : Z :=
  (if 0 <? x then hit b w h p i (x - 1) y else 0)
  + (if wrap32 (x + 1) <? w then hit b w h p i (wrap32 (x + 1)) y else 0)
  + (if 0 <? y then hit b w h p i x (y - 1) else 0)
  + (if wrap32 (y + 1) <? h then hit b w h p i x (wrap32 (y + 1)) else 0).

(** What the block does to the record of the mover. *)
Definition ledger (g : game_t) (p x y : Z) (r : player_t) : player_t :=
  add_boundary (- diagonal_neighbours g p x y)
    (add_boundary (- common_free_fields (board g) (width g) (height g) p x y)
       (add_boundary (isSurrounded (board g) (width g) (height g) 0 x y)
          (add_completed_moves 1 r))).

(** Every field of [b'] is the field of [b], or a field of [p] that was a
    field of [p] before or is the field at [(x, y)]. *)
Definition board_step (p : Z) (x y : nat) (b b' : list (list pair_t)) : Prop :=
  shape b' = shape b /\
  forall i j,
    cell b' i j = cell b i j \/
    (player (cell b' i j) = p /\
     (player (cell b i j) = p \/ (i, j) = (x, y))).

(** What the update of the areas and tags of a move of [p] at [(x, y)] may
    change: the records of the other players, the sizes and the limits
    stay, and the board makes a [board_step]. *)
Definition stage_effect (p x y : Z) (g g' : game_t) : Prop :=
  width g' = width g /\ height g' = height g /\ areas g' = areas g /\
  players_num g' = players_num g /\
  length (players g') = length (players g) /\
  (forall i, i <> pidx p -> players g' !! i = players g !! i) /\
  board_step p (Z.to_nat x) (Z.to_nat y) (board g) (board g').

(** What a call with a player and a field in range can rely on. *)
Definition move_ctx (g : game_t) (p x y : Z) : Prop :=
  length (players g) = Z.to_nat (players_num g) /\
  players_num g <= MAX_PLAYERS /\
  1 <= p <= players_num g /\
  board_ok (width g) (height g) (board g) /\
  0 <= x < width g /\ 0 <= y < height g.

(** What the block relies on: one record per player, and owners that are
    players. *)
Definition info_ctx (g : game_t) : Prop :=
  length (players g) = Z.to_nat (players_num g) /\
  players_num g <= MAX_PLAYERS /\
  owners_ok (players_num g) (board g).

(** The update of the areas and tags of an accepted move: a new area when
    no field around belongs to the mover, a joined area otherwise. *)
Definition claim_field (g : game_t) (p x y : Z) : res game_t :=
  let around := isSurrounded (board g) (width g) (height g) p x y in
  if around =? 0 then new_area g p x y else join_area g p x y around.

(** One turn of the inner loop of [different_areas], as a step on the
    counter. *)
Definition classifier_step (ns : list Z) (around : Z) (areas : Z)
    (ij : nat * nat) : Z :=
  if areas <? around
  then (if differ ns (fst ij) (snd ij) then areas + 1 else areas)
  else areas.

(** The arguments of every call are values of [uint32_t]. *)
Definition moves_ok (ms : list move) : Prop :=
  Forall (fun m => uint32 (mv_player m) /\ uint32 (mv_x m) /\ uint32 (mv_y m))
         ms.

(** The row [i] of the picture: the symbols of its fields from left to
    right, then a newline. *)
Definition picture_row (g : game_t) (i : Z) : list Z :=
  map (fun j => game_player g (player (field (board g) j i)))
      (seqZ 0 (width g))
  ++ [char_newline].

(** [(x', y')] is one step away from [(x, y)] along an axis. *)
Definition adjacent (x y x' y' : Z) : Prop :=
  (y' = y /\ (x' = x - 1 \/ x' = x + 1)) \/
  (x' = x /\ (y' = y - 1 \/ y' = y + 1)).

(** The fields [BFS] reaches from [(x, y)]: [(x, y)] itself when it is a
    field of the board that is still to relabel, and from there, step by
    step, the adjacent fields of the board that are still to relabel. *)
Inductive flood (w h id p : Z) (b : list (list pair_t))
    : Z -> Z -> Z -> Z -> Prop :=
| flood_here (x y : Z) :
    on_board w h x y = true -> stale id p (field b x y) = true ->
    flood w h id p b x y x y
| flood_next (x y x' y' u v : Z) :
    on_board w h x y = true -> stale id p (field b x y) = true ->
    adjacent x y x' y' -> flood w h id p b x' y' u v ->
    flood w h id p b x y u v.

(** [b'] is [b] with the tag [id] written on some of the fields that were
    still to relabel. *)
Definition relabel (id p : Z) (b b' : list (list pair_t)) : Prop :=
  shape b' = shape b /\
  forall i j,
    cell b' i j = cell b i j \/
    (stale id p (cell b i j) = true /\
     cell b' i j = with_parent id (cell b i j)).

(** What a call of [BFS] at [(x, y)] that turns [b] into [b'] has done:
    every field it relabelled was reached from [(x, y)] and has no
    neighbour left to relabel, and [(x, y)] itself is not left to
    relabel. *)
Definition bfs_post (w h id p : Z) (b b' : list (list pair_t)) (x y : Z)
    : Prop :=
  relabel id p b b' /\
  (forall u v,
     on_board w h u v = true -> stale id p (field b u v) = true ->
     stale id p (field b' u v) = false ->
     flood w h id p b x y u v /\
     forall u' v', adjacent u v u' v' -> on_board w h u' v' = true ->
       stale id p (field b' u' v') = false) /\
  (on_board w h x y = true -> stale id p (field b' x y) = false).

(** The number of slots of [neighbours] that hold a tag. *)
Definition filled_slots (ns : list Z) : Z :=
  Z.of_nat (length (List.filter (fun n => negb (n =? 0)) ns)).

(** 1 when the move of [p] to [(x, y)] took a field next to a field of
    [p]: [p] had fields around [(x, y)] in [g], and the field is a field of
    [p] in [g']. *)
Definition own_field_taken (g g' : game_t) (p x y : Z) : Z :=
  if orthogonal_match_count (board g) (width g) (height g) p x y =? 0 then 0
  else if player (field (board g') x y) =? p then 1 else 0.

(** ** Games used as examples *)

Definition no_game : game_t := mk_game [] [] [] 0 0 0 0.

Definition the_game (o : option game_t) : game_t := default no_game o.

Definition the_state (r : res game_t) : game_t :=
  match r with
  | Ok g => g
  | _ => no_game
  end.

(** A board of 3 x 3 fields for two players with at most two areas each. *)
Definition board3 : game_t := Eval vm_compute in the_game (game_new 3 3 2 2).

(** Player 1 has taken the corner [(0, 0)]. *)
Definition board3_corner : game_t :=
  Eval vm_compute in the_state (play board3 [mk_move 1 0 0]).

(** Player 2 has then taken [(1, 0)], next to that corner. *)
Definition board3_pair : game_t :=
  Eval vm_compute in the_state (play board3_corner [mk_move 2 1 0]).

(** Player 1 holds the two opposite corners: the quota of 2 is reached. *)
Definition board3_quota : game_t :=
  Eval vm_compute in the_state (play board3 [mk_move 1 0 0; mk_move 1 2 2]).

(** The smallest game: one field, one player, one area. *)
Definition board1 : game_t := Eval vm_compute in the_game (game_new 1 1 1 1).

(** Player 1 holds [(0, 0)] and [(0, 2)] of [board3]: two areas, tags 1 and
    2, with the empty field [(0, 1)] between them. *)
Definition board3_apart : game_t :=
  Eval vm_compute in the_state (play board3 [mk_move 1 0 0; mk_move 1 0 2]).

(** Player 1 has then taken [(0, 1)]. *)
Definition board3_joined : game_t :=
  Eval vm_compute in the_state (play board3_apart [mk_move 1 0 1]).

(** Player 1 holds two areas of three fields around the empty centre of
    [board3]: [(0,0), (0,1), (1,0)] with tag 1 and [(2,2), (2,1), (1,2)]
    with tag 2. *)
Definition ring_moves : list move :=
  [mk_move 1 0 0; mk_move 1 0 1; mk_move 1 1 0;
   mk_move 1 2 2; mk_move 1 2 1; mk_move 1 1 2].

Definition board3_ring : game_t :=
  Eval vm_compute in the_state (play board3 ring_moves).

(** A board of 5 x 2 fields for one player with at most three areas. *)
Definition board5 : game_t := Eval vm_compute in the_game (game_new 5 2 1 3).

(** The moves that fill the block of 3 x 2 fields in the corner. *)
Definition block_moves : list move :=
  [mk_move 1 0 0; mk_move 1 1 0; mk_move 1 0 1;
   mk_move 1 1 1; mk_move 1 2 0; mk_move 1 2 1].

Definition board5_block : game_t :=
  Eval vm_compute in the_state (play board5 block_moves).

(** Two more moves, away from the block: [(4, 0)], then [(4, 1)] above
    it. *)
Definition far_moves : list move := [mk_move 1 4 0; mk_move 1 4 1].

Definition board5_far : game_t :=
  Eval vm_compute in the_state (play board5_block far_moves).

(** A row of four fields for two players with at most two areas each. *)
Definition board4 : game_t := Eval vm_compute in the_game (game_new 4 1 2 2).

(** The players take the fields of the row in turn, from left to right. *)
Definition row_moves : list move :=
  [mk_move 1 0 0; mk_move 2 1 0; mk_move 1 2 0; mk_move 2 3 0].

(** The game of the test driver [game_example.c] and its calls of
    [game_move] in order. *)
Definition board10 : game_t :=
  Eval vm_compute in the_game (game_new 10 10 2 3).

Definition driver_moves : list move :=
  [mk_move 1 0 0; mk_move 2 3 1; mk_move 1 0 2; mk_move 1 0 9;
   mk_move 1 5 5; mk_move 1 0 1; mk_move 1 5 5; mk_move 1 6 6;
   mk_move 2 2 1; mk_move 2 1 1; mk_move 2 0 1; mk_move 2 6 6].

(** The game of the driver after its first [n] calls. *)
Definition driver_after (n : nat) : game_t :=
  the_state (play board10 (take n driver_moves)).

(** Player 1 has taken the column [(0, 0)], [(0, 1)], [(0, 2)] of [board3]
    from the bottom up. *)
Definition board3_column : game_t :=
  Eval vm_compute in
    the_state (play board3 [mk_move 1 0 0; mk_move 1 0 1; mk_move 1 0 2]).

(** A row [2 ^ 32 - 1] fields wide whose leftmost field belongs to player
    1.  The list is never computed. *)
Definition wide_row : list (list pair_t) :=
  <[0%nat := [mk_pair 1 1]]> (replicate (Z.to_nat 4294967295) [zero_pair]).

(** Player 1 has taken the centre of [board3_ring], between its two
    areas. *)
Definition board3_centre : game_t :=
  Eval vm_compute in the_state (play board3_ring [mk_move 1 1 1]).

(** The constant [board] of [game_example.c], as character codes: 49 and
    50 are the digits 1 and 2. *)
Definition driver_board : list Z :=
  let dots n := replicate (Z.to_nat n) char_dot in
  concat
    (map (fun row => row ++ [char_newline])
       [ [49] ++ dots 9;
         dots 10;
         dots 10;
         dots 6 ++ [50] ++ dots 3;
         dots 5 ++ [49] ++ dots 4;
         dots 10;
         dots 10;
         [49] ++ dots 9;
         [49; 50; 50; 50] ++ dots 6;
         [49] ++ dots 9 ]).

(** Player 1 holds one area of seven fields, an arc around the empty centre
    of [board3]: every move after the first has one neighbour of player 1,
    so every field has tag 1 and [busy_areas] is 1. *)
Definition arc_moves : list move :=
  [mk_move 1 0 1; mk_move 1 0 0; mk_move 1 1 0; mk_move 1 2 0;
   mk_move 1 2 1; mk_move 1 2 2; mk_move 1 1 2].

Definition board3_arc : game_t :=
  Eval vm_compute in the_state (play board3 arc_moves).

(** Player 1 has taken the centre of [board3_arc]. *)
Definition board3_arc_centre : game_t :=
  Eval vm_compute in the_state (play board3_arc [mk_move 1 1 1]).

(** Player 1 has taken [(1, 0)] next to its corner of [board3_corner]. *)
Definition board3_row : game_t :=
  Eval vm_compute in the_state (play board3_corner [mk_move 1 1 0]).

(** Player 1 has taken the centre of [board3_pair], diagonal to its corner
    and above the field of player 2. *)
Definition board3_diagonal : game_t :=
  Eval vm_compute in the_state (play board3_pair [mk_move 1 1 1]).

(** ** Tactics *)

(** Reduces the projections of a game written by the model. *)
Ltac game_fields :=
  cbn [width height areas players_num players board neighbours set_players
       set_board set_neighbours write_player write_parent find_neighbours].

(** Splits a [stage_effect] goal into its seven parts and closes the
    equalities that hold by computation. *)
Ltac stage_parts :=
  unfold stage_effect;
  do 4 (split; [game_fields; first [reflexivity | congruence] |]);
  split; [game_fields; try congruence | split; game_fields].

(** Decides the comparisons of a goal on booleans and closes the cases by
    arithmetic. *)
Ltac bool_cases :=
  repeat match goal with
         | |- context [?a <? ?b] => destruct (Z.ltb_spec a b)
         | |- context [?a <=? ?b] => destruct (Z.leb_spec a b)
         end;
  simpl; try reflexivity; try lia.

(** ** Lemmas on machine integers *)

Lemma wrap32_small (z : Z) : 0 <= z < 2 ^ 32 -> wrap32 z = z.
Proof. intros H. unfold wrap32. apply Z.mod_small. exact H. Qed.

Lemma wrap64_small (z : Z) : 0 <= z < 2 ^ 64 -> wrap64 z = z.
Proof. intros H. unfold wrap64. apply Z.mod_small. exact H. Qed.

Lemma wrap32_range (z : Z) : 0 <= wrap32 z < 2 ^ 32.
Proof. unfold wrap32. apply Z.mod_pos_bound. lia. Qed.

Lemma wrap64_range (z : Z) : 0 <= wrap64 z < 2 ^ 64.
Proof. unfold wrap64. apply Z.mod_pos_bound. lia. Qed.

Lemma wrap64_add_l (a b : Z) : wrap64 (wrap64 a + b) = wrap64 (a + b).
Proof. unfold wrap64. apply Zplus_mod_idemp_l. Qed.

Lemma wrap64_sub_r (a b : Z) : wrap64 (a - wrap64 b) = wrap64 (a - b).
Proof. unfold wrap64. apply Zminus_mod_idemp_r. Qed.

Lemma wrap64_idem (a : Z) : wrap64 (wrap64 a) = wrap64 a.
Proof. unfold wrap64. apply Zmod_mod. Qed.

Lemma pidx_valid (p : Z) : 1 <= p < 2 ^ 32 -> pidx p = Z.to_nat (p - 1).
Proof. intros H. unfold pidx. rewrite wrap32_small; [reflexivity | lia]. Qed.

(** ** Lemmas on boards *)

Lemma field_cell (b : list (list pair_t)) (x y : Z) :
  field b x y = cell b (Z.to_nat x) (Z.to_nat y).
Proof. reflexivity. Qed.

Lemma cell_set_field_ne f b x y i j :
  (i, j) <> (Z.to_nat x, Z.to_nat y) ->
  cell (set_field f b x y) i j = cell b i j.
Proof.
  intros Hne. unfold cell, set_field.
  rewrite list_lookup_alter. case_decide as Hx; [| reflexivity].
  subst i. destruct (b !! Z.to_nat x) as [col |]; simpl; [| reflexivity].
  rewrite list_lookup_alter_ne; [reflexivity | congruence].
Qed.

Lemma cell_set_field_cases f b x y i j :
  cell (set_field f b x y) i j = cell b i j \/
  (i = Z.to_nat x /\ j = Z.to_nat y /\
   cell (set_field f b x y) i j = f (cell b i j)).
Proof.
  destruct (decide ((i, j) = (Z.to_nat x, Z.to_nat y))) as [Heq | Hne].
  - inversion Heq; subst. unfold cell, set_field.
    rewrite list_lookup_alter_eq.
    destruct (b !! Z.to_nat x) as [col |]; simpl; [| left; reflexivity].
    rewrite list_lookup_alter_eq.
    destruct (col !! Z.to_nat y); simpl; [right; auto | left; reflexivity].
  - left. apply cell_set_field_ne. exact Hne.
Qed.

Lemma shape_set_field f b x y : shape (set_field f b x y) = shape b.
Proof.
  unfold shape, set_field. generalize (Z.to_nat x) as i.
  induction b as [| col b IH]; intros [| i]; simpl; try reflexivity.
  - rewrite length_alter. reflexivity.
  - f_equal. apply IH.
Qed.

Lemma shape_lookup b i col :
  b !! i = Some col -> shape b !! i = Some (length col).
Proof. intros H. unfold shape. rewrite list_lookup_fmap, H. reflexivity. Qed.

Lemma board_ok_lookup w h b x y :
  board_ok w h b -> 0 <= x < w -> 0 <= y < h ->
  exists col c, b !! Z.to_nat x = Some col /\ col !! Z.to_nat y = Some c.
Proof.
  intros Hok Hx Hy.
  destruct (b !! Z.to_nat x) as [col |] eqn:Hcol.
  - pose proof (shape_lookup _ _ _ Hcol) as Hs. rewrite Hok in Hs.
    apply lookup_replicate in Hs as [Hlen _].
    destruct (col !! Z.to_nat y) as [c |] eqn:Hc; [eauto |].
    apply lookup_ge_None in Hc. lia.
  - apply lookup_ge_None in Hcol.
    assert (length (shape b) = Z.to_nat w) as Hl
      by (rewrite Hok; apply length_replicate).
    unfold shape in Hl. rewrite length_map in Hl. lia.
Qed.

Lemma cell_set_field_eq f b w h x y :
  board_ok w h b -> 0 <= x < w -> 0 <= y < h ->
  field (set_field f b x y) x y = f (field b x y).
Proof.
  intros Hok Hx Hy.
  destruct (board_ok_lookup _ _ _ _ _ Hok Hx Hy) as (col & c & Hcol & Hc).
  unfold field, set_field. rewrite list_lookup_alter_eq, Hcol. simpl.
  rewrite list_lookup_alter_eq, Hc. reflexivity.
Qed.

Lemma sum_list_with_alter {A} (f : A -> nat) (u : A -> A) l i a :
  l !! i = Some a ->
  (sum_list_with f (alter u i l) + f a = sum_list_with f l + f (u a))%nat.
Proof.
  revert i. induction l as [| b l IH]; intros [| i] H; simpl in *;
    try discriminate.
  - inversion H; subst. clear. lia.
  - specialize (IH _ H). unfold alter in IH. lia.
Qed.

Lemma count_fields_set_field P f b w h x y :
  board_ok w h b -> 0 <= x < w -> 0 <= y < h ->
  (count_fields P (set_field f b x y)
   + (if P (field b x y) then 1 else 0)
   = count_fields P b + (if P (f (field b x y)) then 1 else 0))%nat.
Proof.
  intros Hok Hx Hy.
  destruct (board_ok_lookup _ _ _ _ _ Hok Hx Hy) as (col & c & Hcol & Hc).
  unfold count_fields, set_field, field. rewrite Hcol, Hc. simpl.
  pose proof (sum_list_with_alter
                (sum_list_with (fun c => if P c then 1%nat else 0%nat))
                (alter f (Z.to_nat y)) b _ _ Hcol) as H1.
  pose proof (sum_list_with_alter
                (fun c => if P c then 1%nat else 0%nat) f col _ _ Hc) as H2.
  simpl in *. lia.
Qed.

(** ** Lemmas on the records of the players *)

Lemma res_bind_Ok {A B} (m : res A) (k : A -> res B) (b : B) :
  res_bind m k = Ok b -> exists a, m = Ok a /\ k a = Ok b.
Proof. destruct m; simpl; intros H; try discriminate. eauto. Qed.

Lemma get_player_Ok g p r :
  get_player g p = Ok r ->
  players g !! pidx p = Some r /\ (pidx p < length (players g))%nat.
Proof.
  unfold get_player. destruct (_ <=? _); [discriminate |].
  destruct (players g !! pidx p) as [r' |] eqn:E; [| discriminate].
  intros [= ->]. split; [reflexivity |]. eapply lookup_lt_Some, E.
Qed.

Lemma get_player_lookup g p r :
  players g !! pidx p = Some r -> get_player g p = Ok r.
Proof.
  intros H. unfold get_player. rewrite H.
  pose proof (lookup_lt_Some _ _ _ H) as Hlt.
  pose proof (wrap32_range (p - 1)) as Hr. unfold pidx in Hlt.
  destruct (Z.leb_spec (Z.of_nat (length (players g))) (wrap32 (p - 1)));
    [lia | reflexivity].
Qed.

Lemma upd_player_Ok f g p g' :
  upd_player f g p = Ok g' ->
  exists r, players g !! pidx p = Some r /\
            g' = set_players g (<[pidx p := f r]> (players g)).
Proof.
  unfold upd_player. intros H. apply res_bind_Ok in H as (r & Hr & [= <-]).
  apply get_player_Ok in Hr as [Hr _]. eauto.
Qed.

Lemma upd_player_lookup f g p r :
  players g !! pidx p = Some r ->
  upd_player f g p = Ok (set_players g (<[pidx p := f r]> (players g))).
Proof.
  intros H. unfold upd_player. rewrite (get_player_lookup _ _ _ H).
  reflexivity.
Qed.

(** A player number in range names a record of a well formed game. *)
Lemma valid_player_lookup g p :
  length (players g) = Z.to_nat (players_num g) ->
  players_num g <= MAX_PLAYERS ->
  1 <= p <= players_num g ->
  pidx p = Z.to_nat (p - 1) /\ exists r, players g !! pidx p = Some r.
Proof.
  intros Hlen Hmax Hp. unfold MAX_PLAYERS in Hmax.
  assert (pidx p = Z.to_nat (p - 1)) as E by (apply pidx_valid; lia).
  split; [exact E |]. rewrite E.
  destruct (players g !! Z.to_nat (p - 1)) as [r |] eqn:Hr; [eauto |].
  apply lookup_ge_None in Hr. lia.
Qed.

(** Player number 0 names no record: [0 - 1] is [2 ^ 32 - 1] on 32 bits. *)
Lemma get_player_zero g :
  (length (players g) <= 35)%nat -> get_player g 0 = Fault.
Proof.
  intros Hlen. unfold get_player.
  replace (wrap32 (0 - 1)) with 4294967295 by reflexivity.
  destruct (Z.leb_spec (Z.of_nat (length (players g))) 4294967295);
    [reflexivity | lia].
Qed.

Lemma upd_player_zero f g :
  (length (players g) <= 35)%nat -> upd_player f g 0 = Fault.
Proof.
  intros Hlen. unfold upd_player. rewrite get_player_zero by exact Hlen.
  reflexivity.
Qed.

(** *** Pointwise descriptions of an update of the array *)

Lemma players_map_id ps : players_map (fun _ r => r) ps ps.
Proof. intros i. destruct (ps !! i); reflexivity. Qed.

Lemma players_map_trans F G ps ps' ps'' :
  players_map F ps ps' -> players_map G ps' ps'' ->
  players_map (fun i r => G i (F i r)) ps ps''.
Proof.
  intros H1 H2 i. rewrite H2, H1. destruct (ps !! i); reflexivity.
Qed.

Lemma players_map_ext F G ps ps' :
  (forall i r, ps !! i = Some r -> F i r = G i r) ->
  players_map F ps ps' -> players_map G ps ps'.
Proof.
  intros HFG H i. rewrite H. destruct (ps !! i) eqn:E; simpl; [| reflexivity].
  f_equal. apply HFG. exact E.
Qed.

Lemma players_map_length F ps ps' :
  players_map F ps ps' -> length ps' = length ps.
Proof.
  intros H. apply Nat.le_antisymm.
  - destruct (decide (length ps' <= length ps)%nat) as [| Hn]; [assumption |].
    assert (is_Some (ps' !! length ps)) as [r Hr]
      by (apply lookup_lt_is_Some; lia).
    rewrite H in Hr. rewrite (proj2 (lookup_ge_None ps (length ps))) in Hr
      by lia. discriminate.
  - destruct (decide (length ps <= length ps')%nat) as [| Hn]; [assumption |].
    assert (is_Some (ps !! length ps')) as [r Hr]
      by (apply lookup_lt_is_Some; lia).
    specialize (H (length ps')). rewrite Hr in H.
    rewrite (proj2 (lookup_ge_None ps' (length ps'))) in H by lia.
    discriminate.
Qed.

Lemma players_map_insert ps k f r :
  ps !! k = Some r -> players_map (at_index k f) ps (<[k := f r]> ps).
Proof.
  intros Hr i. unfold at_index. rewrite list_lookup_insert.
  pose proof (lookup_lt_Some _ _ _ Hr).
  destruct (decide (i = k)) as [-> |].
  - rewrite decide_True by (split; [reflexivity | assumption]).
    rewrite Hr. reflexivity.
  - rewrite decide_False by (intros [? _]; congruence).
    destruct (ps !! i); reflexivity.
Qed.

(** What [upd_player] leaves alone, and what it does to the array. *)
Lemma upd_player_effect f g p g' :
  upd_player f g p = Ok g' ->
  board g' = board g /\ neighbours g' = neighbours g /\
  width g' = width g /\ height g' = height g /\ areas g' = areas g /\
  players_num g' = players_num g /\
  players_map (at_index (pidx p) f) (players g) (players g').
Proof.
  intros H. apply upd_player_Ok in H as (r & Hr & ->). simpl.
  repeat split. apply players_map_insert. exact Hr.
Qed.

(** ** The update of the game's info *)

Lemma hit_range b w h p i x y : 0 <= hit b w h p i x y <= 1.
Proof. unfold hit. destruct (_ && _); lia. Qed.

Lemma dec_boundary_add n m r :
  0 <= n -> 0 <= m ->
  dec_boundary m (dec_boundary n r) = dec_boundary (n + m) r.
Proof.
  intros Hn Hm. unfold dec_boundary.
  destruct (Z.eqb_spec n 0) as [-> | Hn0]; [reflexivity |].
  destruct (Z.eqb_spec m 0) as [-> | Hm0].
  - rewrite Z.add_0_r. destruct (Z.eqb_spec n 0); [lia | reflexivity].
  - destruct (Z.eqb_spec (n + m) 0); [lia |].
    unfold add_boundary. simpl. f_equal.
    rewrite wrap64_add_l. f_equal. lia.
Qed.

Lemma update_strangers_boundary_effect g p x y g' :
  update_strangers_boundary g p x y = Ok g' ->
  board g' = board g /\ neighbours g' = neighbours g /\
  width g' = width g /\ height g' = height g /\ areas g' = areas g /\
  players_num g' = players_num g /\
  players_map (fun i => dec_boundary (hit (board g) (width g) (height g) p i x y))
              (players g) (players g').
Proof.
  unfold update_strangers_boundary, hit.
  destruct (player (field (board g) x y) =? 0) eqn:E0; simpl.
  - intros [= <-]. repeat split. apply players_map_id.
  - destruct (valid_coordinate _ _ x y); simpl.
    2: { intros [= <-]. repeat split. apply players_map_id. }
    destruct (player (field (board g) x y) =? p); simpl.
    { intros [= <-]. repeat split. apply players_map_id. }
    intros H. apply upd_player_effect in H
      as (Hb & Hn & Hw & Hh & Ha & Hp & Hm).
    repeat split; try assumption.
    eapply players_map_ext; [| exact Hm].
    intros i r _. unfold at_index, dec_boundary.
    destruct (decide (i = _)) as [-> | Hne].
    + rewrite bool_decide_eq_true_2 by reflexivity. reflexivity.
    + rewrite bool_decide_eq_false_2 by exact Hne. reflexivity.
Qed.

Lemma strangers_step_effect (c : bool) g p x y g' :
  (if c then update_strangers_boundary g p x y else Ok g) = Ok g' ->
  board g' = board g /\ neighbours g' = neighbours g /\
  width g' = width g /\ height g' = height g /\ areas g' = areas g /\
  players_num g' = players_num g /\
  players_map
    (fun i => dec_boundary
                (if c then hit (board g) (width g) (height g) p i x y else 0))
    (players g) (players g').
Proof.
  destruct c.
  - apply update_strangers_boundary_effect.
  - intros [= <-]. repeat split. apply players_map_id.
Qed.

Lemma update_strangers_effect g p x y g' :
  update_strangers g p x y = Ok g' ->
  board g' = board g /\ neighbours g' = neighbours g /\
  width g' = width g /\ height g' = height g /\ areas g' = areas g /\
  players_num g' = players_num g /\
  players_map
    (fun i => dec_boundary (strangers (board g) (width g) (height g) p i x y))
    (players g) (players g').
Proof.
  unfold update_strangers. intros H.
  apply res_bind_Ok in H as (g1 & H1 & H).
  apply res_bind_Ok in H as (g2 & H2 & H).
  apply res_bind_Ok in H as (g3 & H3 & H4).
  apply strangers_step_effect in H1 as (Hb1 & Hn1 & Hw1 & Hh1 & Ha1 & Hp1 & M1).
  apply strangers_step_effect in H2 as (Hb2 & Hn2 & Hw2 & Hh2 & Ha2 & Hp2 & M2).
  apply strangers_step_effect in H3 as (Hb3 & Hn3 & Hw3 & Hh3 & Ha3 & Hp3 & M3).
  apply strangers_step_effect in H4 as (Hb4 & Hn4 & Hw4 & Hh4 & Ha4 & Hp4 & M4).
  rewrite Hb3, Hw3, Hh3, Hb2, Hw2, Hh2, Hb1, Hw1, Hh1 in M4.
  rewrite Hb2, Hw2, Hh2, Hb1, Hw1, Hh1 in M3.
  rewrite Hb1, Hw1, Hh1 in M2.
  repeat split; try congruence.
  pose proof (players_map_trans _ _ _ _ _
                (players_map_trans _ _ _ _ _
                   (players_map_trans _ _ _ _ _ M1 M2) M3) M4) as M.
  eapply players_map_ext; [| exact M].
  intros i r _. simpl. unfold strangers.
  set (h1 := if 0 <? x then _ else 0).
  set (h2 := if wrap32 (x + 1) <? width g then _ else 0).
  set (h3 := if 0 <? y then _ else 0).
  set (h4 := if wrap32 (y + 1) <? height g then _ else 0).
  assert (0 <= h1 <= 1) by (subst h1; destruct (0 <? x);
                            [apply hit_range | lia]).
  assert (0 <= h2 <= 1) by (subst h2; destruct (_ <? width g);
                            [apply hit_range | lia]).
  assert (0 <= h3 <= 1) by (subst h3; destruct (0 <? y);
                            [apply hit_range | lia]).
  assert (0 <= h4 <= 1) by (subst h4; destruct (_ <? height g);
                            [apply hit_range | lia]).
  rewrite !dec_boundary_add by lia. f_equal. lia.
Qed.

Lemma at_index_compose k f f' i r :
  at_index k f' i (at_index k f i r) = at_index k (fun r => f' (f r)) i r.
Proof. unfold at_index. destruct (decide (i = k)); reflexivity. Qed.

Lemma update_game_info_effect g p x y g' :
  update_game_info g p x y = Ok g' ->
  board g' = board g /\ neighbours g' = neighbours g /\
  width g' = width g /\ height g' = height g /\ areas g' = areas g /\
  players_num g' = players_num g /\
  players_map
    (fun i r =>
       dec_boundary (strangers (board g) (width g) (height g) p i x y)
                    (at_index (pidx p) (ledger g p x y) i r))
    (players g) (players g').
Proof.
  unfold update_game_info. intros H.
  apply res_bind_Ok in H as (g1 & H1 & H).
  apply res_bind_Ok in H as (g2 & H2 & H).
  apply res_bind_Ok in H as (g3 & H3 & H).
  apply res_bind_Ok in H as (g4 & H4 & H5).
  apply upd_player_Ok in H1 as (r1 & Hr1 & ->).
  apply upd_player_effect in H2 as (Hb2 & Hn2 & Hw2 & Hh2 & Ha2 & Hp2 & M2).
  apply upd_player_effect in H3 as (Hb3 & Hn3 & Hw3 & Hh3 & Ha3 & Hp3 & M3).
  apply upd_player_effect in H4 as (Hb4 & Hn4 & Hw4 & Hh4 & Ha4 & Hp4 & M4).
  apply update_strangers_effect in H5
    as (Hb5 & Hn5 & Hw5 & Hh5 & Ha5 & Hp5 & M5).
  simpl in *.
  pose proof (players_map_insert _ _ (add_completed_moves 1) _ Hr1) as M1.
  assert (diagonal_neighbours g3 p x y = diagonal_neighbours g p x y) as Hd.
  { unfold diagonal_neighbours. rewrite Hb3, Hw3, Hh3, Hb2, Hw2, Hh2.
    reflexivity. }
  rewrite Hd in M4. rewrite Hb2, Hw2, Hh2 in M3.
  rewrite Hb4, Hw4, Hh4, Hb3, Hw3, Hh3, Hb2, Hw2, Hh2 in M5.
  repeat split; try congruence.
  pose proof (players_map_trans _ _ _ _ _
                (players_map_trans _ _ _ _ _
                   (players_map_trans _ _ _ _ _
                      (players_map_trans _ _ _ _ _ M1 M2) M3) M4) M5) as M.
  eapply players_map_ext; [| exact M].
  intros i r _. simpl. rewrite !at_index_compose. reflexivity.
Qed.

Lemma owners_ok_field n b x y : owners_ok n b -> 0 <= player (field b x y) <= n.
Proof. intros H. rewrite field_cell. apply H. Qed.

Lemma hit_owner b w h p q x y n :
  owners_ok n b -> n < 2 ^ 32 -> 1 <= q -> q <> p ->
  hit b w h p (Z.to_nat (q - 1)) x y
  = if valid_coordinate w h x y && (player (field b x y) =? q) then 1 else 0.
Proof.
  intros Hown Hn Hq Hqp. unfold hit.
  pose proof (owners_ok_field _ _ x y Hown) as Hs.
  destruct (Z.eqb_spec (player (field b x y)) 0) as [E0 | E0]; simpl.
  - rewrite E0. destruct (Z.eqb_spec 0 q); [lia |].
    rewrite andb_false_r. reflexivity.
  - destruct (valid_coordinate w h x y); simpl; [| reflexivity].
    destruct (Z.eqb_spec (player (field b x y)) q) as [Eq | Eq].
    + rewrite Eq. destruct (Z.eqb_spec q p); [contradiction |]. simpl.
      rewrite bool_decide_eq_true_2; [reflexivity |].
      rewrite pidx_valid by lia. reflexivity.
    + rewrite bool_decide_eq_false_2; [rewrite andb_false_r; reflexivity |].
      rewrite pidx_valid by lia. lia.
Qed.

Lemma hit_self b w h p x y n :
  owners_ok n b -> n < 2 ^ 32 -> 1 <= p < 2 ^ 32 ->
  hit b w h p (pidx p) x y = 0.
Proof.
  intros Hown Hn Hp. unfold hit.
  pose proof (owners_ok_field _ _ x y Hown) as Hs.
  destruct (Z.eqb_spec (player (field b x y)) 0) as [E0 | E0]; simpl;
    [reflexivity |].
  destruct (valid_coordinate w h x y); simpl; [| reflexivity].
  destruct (Z.eqb_spec (player (field b x y)) p) as [Ep | Ep]; simpl;
    [reflexivity |].
  rewrite bool_decide_eq_false_2; [reflexivity |].
  rewrite !pidx_valid by lia. lia.
Qed.

Lemma count_step (acc : Z) (c v e : bool) :
  (if c && v then (if e then acc + 1 else acc) else acc)
  = acc + (if c && (v && e) then 1 else 0).
Proof. destruct c, v, e; simpl; lia. Qed.

(** [isSurrounded] is the sum of its four tests. *)
Lemma isSurrounded_sum b w h q x y :
  isSurrounded b w h q x y
  = (if (0 <? x) && (valid_coordinate w h (x - 1) y
                     && (player (field b (x - 1) y) =? q)) then 1 else 0)
    + (if (x + 1 <? w) && (valid_coordinate w h (x + 1) y
                           && (player (field b (x + 1) y) =? q)) then 1 else 0)
    + (if (0 <? y) && (valid_coordinate w h x (y - 1)
                       && (player (field b x (y - 1)) =? q)) then 1 else 0)
    + (if (y + 1 <? h) && (valid_coordinate w h x (y + 1)
                           && (player (field b x (y + 1)) =? q)) then 1 else 0).
Proof. unfold isSurrounded. rewrite !count_step. reflexivity. Qed.

Lemma isSurrounded_range b w h q x y : 0 <= isSurrounded b w h q x y <= 4.
Proof.
  rewrite isSurrounded_sum.
  repeat match goal with |- context [if ?c then 1 else 0] => destruct c end;
    lia.
Qed.

(** For another player [q], the decrements of [update_strangers] are the
    fields of [q] next to [(x, y)]. *)
Lemma strangers_isSurrounded b w h p q x y n :
  owners_ok n b -> n < 2 ^ 32 -> w < 2 ^ 32 -> h < 2 ^ 32 ->
  0 <= x < w -> 0 <= y < h -> 1 <= q -> q <> p ->
  strangers b w h p (Z.to_nat (q - 1)) x y = isSurrounded b w h q x y.
Proof.
  intros Hown Hn Hw Hh Hx Hy Hq Hqp.
  rewrite isSurrounded_sum. unfold strangers.
  rewrite !(wrap32_small (x + 1)), !(wrap32_small (y + 1)) by lia.
  rewrite !(hit_owner _ _ _ _ _ _ _ _ Hown Hn Hq Hqp).
  destruct (0 <? x), (x + 1 <? w), (0 <? y), (y + 1 <? h); reflexivity.
Qed.

Lemma strangers_self b w h p x y n :
  owners_ok n b -> n < 2 ^ 32 -> 1 <= p < 2 ^ 32 ->
  strangers b w h p (pidx p) x y = 0.
Proof.
  intros Hown Hn Hp. unfold strangers.
  rewrite !(hit_self _ _ _ _ _ _ _ Hown Hn Hp).
  destruct (0 <? x), (_ <? w), (0 <? y), (_ <? h); reflexivity.
Qed.

(** ** The update of the areas and tags *)

Lemma board_step_refl p x y b : board_step p x y b b.
Proof. split; [reflexivity | intros; left; reflexivity]. Qed.

Lemma board_step_trans p x y b b' b'' :
  board_step p x y b b' -> board_step p x y b' b'' -> board_step p x y b b''.
Proof.
  intros [S1 H1] [S2 H2]. split; [congruence |]. intros i j.
  destruct (H2 i j) as [E2 | [P2 C2]].
  - rewrite E2. apply H1.
  - right. split; [exact P2 |].
    destruct C2 as [C2 | C2]; [| right; exact C2].
    destruct (H1 i j) as [E1 | [_ C1]]; [left; congruence | exact C1].
Qed.

(** Writing the owner of the field of the move. *)
Lemma board_step_write_player p b x y :
  board_step p (Z.to_nat x) (Z.to_nat y) b (set_field (with_player p) b x y).
Proof.
  split; [apply shape_set_field |]. intros i j.
  destruct (cell_set_field_cases (with_player p) b x y i j)
    as [E | (-> & -> & E)]; [left; exact E |].
  right. rewrite E. split; [reflexivity | right; reflexivity].
Qed.

(** Writing the tag of a field that [p] owns. *)
Lemma board_step_write_parent p x y b x' y' id :
  player (field b x' y') = p ->
  board_step p x y b (set_field (with_parent id) b x' y').
Proof.
  intros Hp. split; [apply shape_set_field |]. intros i j.
  destruct (cell_set_field_cases (with_parent id) b x' y' i j)
    as [E | (-> & -> & E)]; [left; exact E |].
  right. rewrite E. rewrite field_cell in Hp. simpl. auto.
Qed.

Lemma board_step_ok p x y b b' w h :
  board_step p x y b b' -> board_ok w h b -> board_ok w h b'.
Proof. intros [S _] H. unfold board_ok in *. congruence. Qed.

Lemma board_step_owners p x y b b' n :
  board_step p x y b b' -> 0 <= p <= n -> owners_ok n b -> owners_ok n b'.
Proof.
  intros [_ H] Hp Hown i j.
  destruct (H i j) as [E | [E _]]; [rewrite E; apply Hown | lia].
Qed.

(** The owner changes at the field of the move only. *)
Lemma board_step_owner p x y b b' i j :
  board_step p x y b b' -> (i, j) <> (x, y) ->
  player (cell b' i j) = player (cell b i j).
Proof.
  intros [_ H] Hne. destruct (H i j) as [E | [E [E' | E']]];
    [rewrite E; reflexivity | congruence | contradiction].
Qed.

(** A tag changes on fields of the mover only. *)
Lemma board_step_tag p x y b b' i j :
  board_step p x y b b' ->
  parent_id (cell b' i j) <> parent_id (cell b i j) ->
  player (cell b' i j) = p.
Proof.
  intros [_ H] Hne. destruct (H i j) as [E | [E _]];
    [rewrite E in Hne; contradiction | exact E].
Qed.

Lemma stage_effect_refl p x y g : stage_effect p x y g g.
Proof. stage_parts; [reflexivity | apply board_step_refl]. Qed.

Lemma stage_effect_trans p x y g g' g'' :
  stage_effect p x y g g' -> stage_effect p x y g' g'' ->
  stage_effect p x y g g''.
Proof.
  intros (W1 & H1 & A1 & N1 & L1 & P1 & B1) (W2 & H2 & A2 & N2 & L2 & P2 & B2).
  stage_parts.
  - intros i Hi. rewrite P2, P1 by exact Hi. reflexivity.
  - eapply board_step_trans; eassumption.
Qed.

Lemma stage_upd_player f p x y g g' :
  upd_player f g p = Ok g' -> stage_effect p x y g g'.
Proof.
  intros H. apply upd_player_Ok in H as (r & Hr & ->). stage_parts.
  - apply length_insert.
  - intros i Hi. apply list_lookup_insert_ne. congruence.
  - apply board_step_refl.
Qed.

Lemma stage_write_player p x y g : stage_effect p x y g (write_player g x y p).
Proof. stage_parts; [reflexivity | apply board_step_write_player]. Qed.

Lemma stage_write_parent p x y g x' y' id :
  player (field (board g) x' y') = p ->
  stage_effect p x y g (write_parent g x' y' id).
Proof.
  intros H. stage_parts; [reflexivity |].
  apply board_step_write_parent. exact H.
Qed.

Lemma stage_find_neighbours p x y g q x' y' :
  stage_effect p x y g (find_neighbours g q x' y').
Proof. stage_parts; [reflexivity | apply board_step_refl]. Qed.

(** *** [BFS] *)

Lemma BFS_effect fuel : forall g id p x y g' x0 y0,
  BFS fuel g id p x y = Ok g' -> stage_effect p x0 y0 g g'.
Proof.
  induction fuel as [| fuel IH]; intros g id p x y g' x0 y0 H; simpl in H;
    [discriminate |].
  destruct (negb (valid_coordinate _ _ x y));
    [injection H as <-; apply stage_effect_refl |].
  destruct (Z.eqb_spec (player (field (board g) x y)) p) as [Hp | Hp];
    simpl in H; [| injection H as <-; apply stage_effect_refl].
  destruct (negb (parent_id (field (board g) x y) =? id));
    [| injection H as <-; apply stage_effect_refl].
  apply res_bind_Ok in H as (g1 & H1 & H).
  apply res_bind_Ok in H as (g2 & H2 & H).
  apply res_bind_Ok in H as (g3 & H3 & H4).
  eapply stage_effect_trans; [apply stage_write_parent; exact Hp |].
  eapply stage_effect_trans; [eapply IH; exact H1 |].
  eapply stage_effect_trans; [eapply IH; exact H2 |].
  eapply stage_effect_trans; [eapply IH; exact H3 |].
  eapply IH; exact H4.
Qed.

(** [BFS] changes the board only. *)
Lemma BFS_players fuel : forall g id p x y g',
  BFS fuel g id p x y = Ok g' ->
  players g' = players g /\ neighbours g' = neighbours g.
Proof.
  induction fuel as [| fuel IH]; intros g id p x y g' H; simpl in H;
    [discriminate |].
  destruct (negb (valid_coordinate _ _ x y));
    [injection H as <-; auto |].
  destruct (_ && _); [| injection H as <-; auto].
  apply res_bind_Ok in H as (g1 & H1 & H).
  apply res_bind_Ok in H as (g2 & H2 & H).
  apply res_bind_Ok in H as (g3 & H3 & H4).
  apply IH in H1 as [? ?], H2 as [? ?], H3 as [? ?], H4 as [? ?].
  simpl in *. split; congruence.
Qed.

Lemma valid_coordinate_true w h x y :
  valid_coordinate w h x y = true <-> x < w /\ y < h.
Proof.
  unfold valid_coordinate.
  destruct (Z.leb_spec w x), (Z.leb_spec h y); simpl; split;
    intros; try discriminate; try reflexivity; lia.
Qed.

(** Enough fuel: [BFS] returns when the fuel exceeds the number of fields it
    still has to relabel, and leaves no more of them than it found. *)
Lemma BFS_terminates fuel : forall g id p x y,
  board_ok (width g) (height g) (board g) -> 0 <= x -> 0 <= y ->
  (count_fields (stale id p) (board g) < fuel)%nat ->
  exists g', BFS fuel g id p x y = Ok g' /\
             (count_fields (stale id p) (board g')
              <= count_fields (stale id p) (board g))%nat.
Proof.
  induction fuel as [| fuel IH]; intros g id p x y Hok Hx Hy Hlt; [lia |].
  simpl.
  destruct (valid_coordinate (width g) (height g) x y) eqn:Hv; simpl;
    [| eauto].
  apply valid_coordinate_true in Hv as [Hxw Hyh].
  destruct ((player (field (board g) x y) =? p)
            && negb (parent_id (field (board g) x y) =? id)) eqn:Hs;
    [| eauto].
  pose proof (count_fields_set_field (stale id p) (with_parent id) (board g)
                _ _ x y Hok (conj Hx Hxw) (conj Hy Hyh)) as Hc.
  assert (stale id p (field (board g) x y) = true) as Hs1 by exact Hs.
  assert (stale id p (with_parent id (field (board g) x y)) = false) as Hs2
    by (unfold stale; simpl; rewrite Z.eqb_refl; apply andb_false_r).
  rewrite Hs1, Hs2 in Hc.
  set (g0 := write_parent g x y id).
  assert (count_fields (stale id p) (board g0) < fuel)%nat as Hlt0
    by (subst g0; simpl; lia).
  assert (board_ok (width g0) (height g0) (board g0)) as Hok0.
  { subst g0. simpl. unfold board_ok. rewrite shape_set_field. exact Hok. }
  assert (forall g1 g2 x' y',
            board_ok (width g1) (height g1) (board g1) ->
            BFS fuel g1 id p x' y' = Ok g2 ->
            board_ok (width g2) (height g2) (board g2)) as Hkeep.
  { intros g1 g2 x' y' Hok1 H.
    apply (BFS_effect _ _ _ _ _ _ _ 0 0) in H
      as (W & H' & _ & _ & _ & _ & B).
    rewrite W, H'. eapply board_step_ok; eassumption. }
  pose proof (wrap32_range (x - 1)). pose proof (wrap32_range (x + 1)).
  pose proof (wrap32_range (y - 1)). pose proof (wrap32_range (y + 1)).
  destruct (IH g0 id p (wrap32 (x - 1)) y Hok0) as (g1 & E1 & C1);
    [lia | lia | lia |].
  pose proof (Hkeep _ _ _ _ Hok0 E1) as Hok1.
  destruct (IH g1 id p (wrap32 (x + 1)) y Hok1) as (g2 & E2 & C2);
    [lia | lia | lia |].
  pose proof (Hkeep _ _ _ _ Hok1 E2) as Hok2.
  destruct (IH g2 id p x (wrap32 (y - 1)) Hok2) as (g3 & E3 & C3);
    [lia | lia | lia |].
  pose proof (Hkeep _ _ _ _ Hok2 E3) as Hok3.
  destruct (IH g3 id p x (wrap32 (y + 1)) Hok3) as (g4 & E4 & C4);
    [lia | lia | lia |].
  exists g4. rewrite E1. simpl. rewrite E2. simpl. rewrite E3. simpl.
  split; [exact E4 |]. subst g0. simpl in *. lia.
Qed.

Lemma count_column_le (P : pair_t -> bool) (col : list pair_t) :
  (sum_list_with (fun c => if P c then 1 else 0) col <= length col)%nat.
Proof.
  induction col as [| c col IH]; simpl; [lia |]. destruct (P c); lia.
Qed.

Lemma count_fields_le P b :
  (count_fields P b <= sum_list (shape b))%nat.
Proof.
  unfold count_fields, shape. induction b as [| col b IH]; simpl; [lia |].
  pose proof (count_column_le P col). lia.
Qed.

Lemma sum_list_replicate n m : sum_list (replicate n m) = (n * m)%nat.
Proof. induction n as [| n IH]; simpl; [reflexivity | rewrite IH; lia]. Qed.

(** The fuel of [game_move] is enough on a board of the declared size. *)
Lemma BFS_fuel_enough g P :
  board_ok (width g) (height g) (board g) ->
  0 <= width g -> 0 <= height g ->
  (count_fields P (board g) < BFS_fuel g)%nat.
Proof.
  intros Hok Hw Hh. pose proof (count_fields_le P (board g)) as Hle.
  rewrite Hok, sum_list_replicate in Hle. unfold BFS_fuel.
  rewrite Z2Nat.inj_mul by lia. lia.
Qed.

(** *** The branches return on a well formed game *)

Lemma move_ctx_stage p x y g g' :
  stage_effect p x y g g' -> move_ctx g p x y -> move_ctx g' p x y.
Proof.
  intros (W & H & A & N & L & P & B) (C1 & C2 & C3 & C4 & C5 & C6).
  unfold move_ctx. rewrite W, H, N, L.
  repeat split; try assumption; try lia.
  eapply board_step_ok; eassumption.
Qed.

Lemma board_step_keeps_owner p x y b b' i j :
  board_step p x y b b' -> player (cell b i j) = p -> player (cell b' i j) = p.
Proof.
  intros [_ H] Hp. destruct (H i j) as [E | [E _]]; [congruence | exact E].
Qed.

Lemma stage_keeps_owner p x y g g' x' y' :
  stage_effect p x y g g' ->
  player (field (board g) x' y') = p -> player (field (board g') x' y') = p.
Proof.
  intros (_ & _ & _ & _ & _ & _ & B). rewrite !field_cell.
  eapply board_step_keeps_owner; exact B.
Qed.

Lemma get_player_total g p x y :
  move_ctx g p x y -> exists r, get_player g p = Ok r.
Proof.
  intros (C1 & C2 & C3 & _).
  destruct (valid_player_lookup g p C1 C2 C3) as (_ & r & Hr).
  exists r. apply get_player_lookup. exact Hr.
Qed.

Lemma upd_player_total f g p x y :
  move_ctx g p x y ->
  exists g', upd_player f g p = Ok g' /\ board g' = board g /\
             neighbours g' = neighbours g /\ stage_effect p x y g g'.
Proof.
  intros (C1 & C2 & C3 & _).
  destruct (valid_player_lookup g p C1 C2 C3) as (_ & r & Hr).
  pose proof (upd_player_lookup f g p r Hr) as H.
  eexists. split; [exact H |]. split; [reflexivity |].
  split; [reflexivity |]. eapply stage_upd_player. exact H.
Qed.

Lemma written_player g p x y :
  move_ctx g p x y -> player (field (board (write_player g x y p)) x y) = p.
Proof.
  intros (_ & _ & _ & C4 & C5 & C6). simpl.
  rewrite (cell_set_field_eq _ _ _ _ _ _ C4 C5 C6). reflexivity.
Qed.

Lemma new_area_total g p x y :
  move_ctx g p x y ->
  exists g', new_area g p x y = Ok g' /\ stage_effect p x y g g'.
Proof.
  intros C. unfold new_area.
  pose proof (stage_write_player p x y g) as S1.
  pose proof (written_player g p x y C) as Hp.
  pose proof (move_ctx_stage _ _ _ _ _ S1 C) as C1.
  destruct (upd_player_total (add_busy_areas 1) _ p x y C1)
    as (g2 & E2 & B2 & _ & S2).
  rewrite E2. simpl.
  pose proof (move_ctx_stage _ _ _ _ _ S2 C1) as C2.
  destruct (get_player_total _ _ _ _ C2) as (r & Er). rewrite Er. simpl.
  eexists. split; [reflexivity |].
  eapply stage_effect_trans; [exact S1 |].
  eapply stage_effect_trans; [exact S2 |].
  apply stage_write_parent. rewrite B2. exact Hp.
Qed.

Lemma adjust_area_total g p x y idxs :
  move_ctx g p x y ->
  exists g', adjust_area g p x y idxs = Ok g' /\ stage_effect p x y g g'.
Proof.
  intros C. induction idxs as [| i idxs IH]; simpl.
  - eexists. split; [reflexivity | apply stage_effect_refl].
  - destruct (negb (nbr (neighbours g) i =? 0)); [| exact IH].
    pose proof (stage_write_player p x y g) as S1.
    pose proof (written_player g p x y C) as Hp.
    set (g1 := write_player g x y p) in *.
    pose proof (stage_write_parent p x y g1 x y
                  (nbr (neighbours g1) i) Hp) as S2.
    pose proof (move_ctx_stage _ _ _ _ _ S2
                  (move_ctx_stage _ _ _ _ _ S1 C)) as C2.
    destruct (upd_player_total (add_boundary (-1)) _ p x y C2)
      as (g3 & E3 & _ & _ & S3).
    exists g3. split; [exact E3 |].
    eapply stage_effect_trans; [exact S1 |].
    eapply stage_effect_trans; [exact S2 | exact S3].
Qed.

Lemma extend_area_total g p x y around :
  move_ctx g p x y ->
  exists g', extend_area g p x y around = Ok g' /\ stage_effect p x y g g'.
Proof.
  intros C. unfold extend_area. destruct (1 <? around).
  - destruct (upd_player_total (add_busy_areas (- wrap32 (around - 1)))
                g p x y C) as (g1 & E1 & _ & _ & S1).
    rewrite E1. simpl.
    destruct (adjust_area_total g1 p x y (seq 0 4)
                (move_ctx_stage _ _ _ _ _ S1 C)) as (g2 & E2 & S2).
    exists g2. split; [exact E2 |].
    eapply stage_effect_trans; eassumption.
  - cbn [res_bind]. apply adjust_area_total. exact C.
Qed.

Lemma BFS_total g id p x y x' y' :
  move_ctx g p x y -> 0 <= x' -> 0 <= y' ->
  exists g', BFS (BFS_fuel g) g id p x' y' = Ok g' /\
             stage_effect p x y g g'.
Proof.
  intros (_ & _ & _ & C4 & C5 & C6) Hx Hy.
  destruct (BFS_terminates (BFS_fuel g) g id p x' y' C4 Hx Hy)
    as (g' & E & _); [apply BFS_fuel_enough; [exact C4 | lia | lia] |].
  exists g'. split; [exact E |]. eapply BFS_effect. exact E.
Qed.

Lemma union_areas_total g p x y around :
  move_ctx g p x y ->
  exists g', union_areas g p x y around = Ok g' /\ stage_effect p x y g g'.
Proof.
  intros C. unfold union_areas.
  pose proof (stage_write_player p x y g) as S1.
  pose proof (written_player g p x y C) as Hp.
  set (g1 := write_player g x y p) in *.
  pose proof (stage_write_parent p x y g1 x y
                (set_id (neighbours g1)) Hp) as S2.
  set (g2 := write_parent g1 x y (set_id (neighbours g1))) in *.
  pose proof (move_ctx_stage _ _ _ _ _ S2
                (move_ctx_stage _ _ _ _ _ S1 C)) as C2.
  destruct (upd_player_total
              (add_busy_areas
                 (- wrap32 (different_areas (neighbours g2) around - 1)))
              g2 p x y C2) as (g3 & E3 & _ & _ & S3).
  rewrite E3. cbn [res_bind].
  pose proof (move_ctx_stage _ _ _ _ _ S3 C2) as C3.
  destruct (upd_player_total (add_boundary (-1)) g3 p x y C3)
    as (g4 & E4 & _ & _ & S4).
  rewrite E4. cbn [res_bind].
  pose proof (move_ctx_stage _ _ _ _ _ S4 C3) as C4.
  pose proof (wrap32_range (x - 1)). pose proof (wrap32_range (x + 1)).
  pose proof (wrap32_range (y - 1)). pose proof (wrap32_range (y + 1)).
  destruct C as (_ & _ & _ & _ & Cx & Cy).
  destruct (BFS_total g4 (parent_id (field (board g4) x y)) p x y
              (wrap32 (x - 1)) y C4) as (g5 & E5 & S5); [lia | lia |].
  rewrite E5. cbn [res_bind].
  pose proof (move_ctx_stage _ _ _ _ _ S5 C4) as C5.
  destruct (BFS_total g5 (parent_id (field (board g5) x y)) p x y
              (wrap32 (x + 1)) y C5) as (g6 & E6 & S6); [lia | lia |].
  rewrite E6. cbn [res_bind].
  pose proof (move_ctx_stage _ _ _ _ _ S6 C5) as C6.
  destruct (BFS_total g6 (parent_id (field (board g6) x y)) p x y
              x (wrap32 (y - 1)) C6) as (g7 & E7 & S7); [lia | lia |].
  rewrite E7. cbn [res_bind].
  pose proof (move_ctx_stage _ _ _ _ _ S7 C6) as C7.
  destruct (BFS_total g7 (parent_id (field (board g7) x y)) p x y
              x (wrap32 (y + 1)) C7) as (g8 & E8 & S8); [lia | lia |].
  exists g8. split; [exact E8 |].
  eapply stage_effect_trans; [exact S1 |].
  eapply stage_effect_trans; [exact S2 |].
  eapply stage_effect_trans; [exact S3 |].
  eapply stage_effect_trans; [exact S4 |].
  eapply stage_effect_trans; [exact S5 |].
  eapply stage_effect_trans; [exact S6 |].
  eapply stage_effect_trans; [exact S7 | exact S8].
Qed.

Lemma join_area_total g p x y around :
  move_ctx g p x y ->
  exists g', join_area g p x y around = Ok g' /\ stage_effect p x y g g'.
Proof.
  intros C. unfold join_area.
  pose proof (stage_find_neighbours p x y g p x y) as S0.
  pose proof (move_ctx_stage _ _ _ _ _ S0 C) as C0.
  destruct (different_areas _ around =? 1).
  - destruct (extend_area_total _ p x y around C0) as (g' & E & S).
    exists g'. split; [exact E |].
    eapply stage_effect_trans; [exact S0 | exact S].
  - destruct (union_areas_total _ p x y around C0) as (g' & E & S).
    exists g'. split; [exact E |].
    eapply stage_effect_trans; [exact S0 | exact S].
Qed.

(** *** The update of the game's info returns on a well formed game *)

Lemma info_ctx_keep g g' F :
  info_ctx g -> board g' = board g -> players_num g' = players_num g ->
  players_map F (players g) (players g') -> info_ctx g'.
Proof.
  intros (C1 & C2 & C3) Hb Hn Hm. unfold info_ctx.
  rewrite Hb, Hn, (players_map_length _ _ _ Hm). auto.
Qed.

Lemma update_strangers_boundary_total g p x y :
  info_ctx g -> exists g', update_strangers_boundary g p x y = Ok g'.
Proof.
  intros (C1 & C2 & C3). unfold update_strangers_boundary.
  pose proof (owners_ok_field _ _ x y C3) as Hs.
  destruct (Z.eqb_spec (player (field (board g) x y)) 0) as [E | E];
    [eauto |].
  destruct (_ && _); [| eauto].
  destruct (valid_player_lookup g (player (field (board g) x y)) C1 C2)
    as (_ & r & Hr); [lia |].
  eexists. apply upd_player_lookup. exact Hr.
Qed.

Lemma strangers_step_total (c : bool) g p x y :
  info_ctx g ->
  exists g', (if c then update_strangers_boundary g p x y else Ok g) = Ok g'
             /\ info_ctx g'.
Proof.
  intros C. destruct c; [| eauto].
  destruct (update_strangers_boundary_total g p x y C) as (g' & E).
  exists g'. split; [exact E |].
  apply update_strangers_boundary_effect in E
    as (Hb & _ & _ & _ & _ & Hn & Hm).
  eapply info_ctx_keep; eassumption.
Qed.

Lemma update_strangers_total g p x y :
  info_ctx g -> exists g', update_strangers g p x y = Ok g'.
Proof.
  intros C. unfold update_strangers.
  destruct (strangers_step_total (0 <? x) g p (x - 1) y C) as (g1 & E1 & C1).
  rewrite E1. cbn [res_bind].
  destruct (strangers_step_total (wrap32 (x + 1) <? width g1) g1 p
              (wrap32 (x + 1)) y C1) as (g2 & E2 & C2).
  rewrite E2. cbn [res_bind].
  destruct (strangers_step_total (0 <? y) g2 p x (y - 1) C2)
    as (g3 & E3 & C3).
  rewrite E3. cbn [res_bind].
  destruct (strangers_step_total (wrap32 (y + 1) <? height g3) g3 p
              x (wrap32 (y + 1)) C3) as (g4 & E4 & _).
  eauto.
Qed.

Lemma upd_player_info f g p :
  info_ctx g -> 1 <= p <= players_num g ->
  exists g', upd_player f g p = Ok g' /\ info_ctx g' /\
             players_num g' = players_num g.
Proof.
  intros C Hp. pose proof C as (C1 & C2 & C3).
  destruct (valid_player_lookup g p C1 C2 Hp) as (_ & r & Hr).
  pose proof (upd_player_lookup f g p r Hr) as E.
  eexists. split; [exact E |].
  apply upd_player_effect in E as (Hb & _ & _ & _ & _ & Hn & Hm).
  split; [eapply info_ctx_keep; eassumption | exact Hn].
Qed.

Lemma update_game_info_total g p x y :
  info_ctx g -> 1 <= p <= players_num g ->
  exists g', update_game_info g p x y = Ok g'.
Proof.
  intros C Hp. unfold update_game_info.
  destruct (upd_player_info (add_completed_moves 1) g p C Hp)
    as (g1 & E1 & C1 & N1).
  rewrite E1. cbn [res_bind].
  destruct (upd_player_info
              (add_boundary
                 (isSurrounded (board g1) (width g1) (height g1) 0 x y))
              g1 p C1) as (g2 & E2 & C2 & N2); [lia |].
  rewrite E2. cbn [res_bind].
  destruct (upd_player_info
              (add_boundary
                 (- common_free_fields (board g2) (width g2) (height g2)
                      p x y))
              g2 p C2) as (g3 & E3 & C3 & N3); [lia |].
  rewrite E3. cbn [res_bind].
  destruct (upd_player_info (add_boundary (- diagonal_neighbours g3 p x y))
              g3 p C3) as (g4 & E4 & C4 & N4); [lia |].
  rewrite E4. cbn [res_bind].
  apply update_strangers_total. exact C4.
Qed.

(** ** [game_move] as a whole *)

Lemma game_move_rejected g p x y g' :
  game_move g p x y = Ok (false, g') -> g' = g.
Proof.
  unfold game_move.
  destruct (_ <? p); [intros [= <-]; reflexivity |].
  destruct (negb (valid_coordinate _ _ x y)); [intros [= <-]; reflexivity |].
  destruct (negb (_ =? 0)); [intros [= <-]; reflexivity |].
  cbv zeta. destruct (_ =? 0).
  - destruct (get_player g p) as [r | |]; simpl; try discriminate.
    destruct (_ =? _); [intros [= <-]; reflexivity |].
    destruct (new_area g p x y) as [g1 | |]; simpl; try discriminate.
    destruct (update_game_info g1 p x y); simpl; discriminate.
  - destruct (join_area g p x y _) as [g1 | |]; simpl; try discriminate.
    destruct (update_game_info g1 p x y); simpl; discriminate.
Qed.

Lemma game_move_accepted g p x y g' :
  game_move g p x y = Ok (true, g') ->
  p <= players_num g /\
  valid_coordinate (width g) (height g) x y = true /\
  player (field (board g) x y) = 0 /\
  exists g1, claim_field g p x y = Ok g1 /\
             update_game_info g1 p x y = Ok g'.
Proof.
  unfold game_move, claim_field.
  destruct (Z.ltb_spec (players_num g) p); [discriminate |].
  destruct (valid_coordinate _ _ x y); simpl; [| discriminate].
  destruct (Z.eqb_spec (player (field (board g) x y)) 0); simpl;
    [| discriminate].
  intros Hm. repeat (split; [first [lia | reflexivity | assumption] |]).
  destruct (_ =? 0).
  - destruct (get_player g p) as [r | |]; simpl in Hm; try discriminate.
    destruct (_ =? _); [discriminate |].
    destruct (new_area g p x y) as [g1 | |]; simpl in Hm; try discriminate.
    destruct (update_game_info g1 p x y) as [g2 | |] eqn:E; simpl in Hm;
      try discriminate.
    injection Hm as <-. eauto.
  - destruct (join_area g p x y _) as [g1 | |]; simpl in Hm; try discriminate.
    destruct (update_game_info g1 p x y) as [g2 | |] eqn:E; simpl in Hm;
      try discriminate.
    injection Hm as <-. eauto.
Qed.

(** A call with player number 0 that gets past the tests of the field reads
    outside [g->players]. *)
Lemma adjust_area_zero g x y idxs :
  (length (players g) <= 35)%nat ->
  adjust_area g 0 x y idxs = Fault \/ adjust_area g 0 x y idxs = Ok g.
Proof.
  intros Hlen. induction idxs as [| i idxs IH]; simpl; [auto |].
  destruct (negb (_ =? 0)); [| exact IH].
  left. apply upd_player_zero. exact Hlen.
Qed.

Lemma claim_field_zero g x y g1 :
  (length (players g) <= 35)%nat ->
  claim_field g 0 x y = Ok g1 -> players g1 = players g.
Proof.
  intros Hlen. unfold claim_field. destruct (_ =? 0).
  - unfold new_area. rewrite upd_player_zero by exact Hlen. discriminate.
  - unfold join_area.
    destruct (different_areas _ _ =? 1).
    + unfold extend_area. destruct (1 <? _).
      * rewrite upd_player_zero by exact Hlen. discriminate.
      * cbn [res_bind].
        destruct (adjust_area_zero (find_neighbours g 0 x y) x y (seq 0 4)
                    Hlen) as [E | E]; rewrite E; [discriminate |].
        intros [= <-]. reflexivity.
    + unfold union_areas. rewrite upd_player_zero by exact Hlen.
      discriminate.
Qed.

Lemma accepted_valid_player g p x y g' :
  wf_game g -> 0 <= p -> game_move g p x y = Ok (true, g') ->
  1 <= p <= players_num g.
Proof.
  intros Hwf Hp H. apply game_move_accepted in H
    as (Hle & _ & _ & g1 & H1 & H2).
  split; [| exact Hle].
  destruct (Z.eq_dec p 0) as [-> | Hne]; [| lia]. exfalso.
  assert (length (players g) <= 35)%nat as Hlen.
  { rewrite (wf_players g Hwf). pose proof (wf_players_num g Hwf).
    unfold MAX_PLAYERS in *. lia. }
  apply claim_field_zero in H1; [| exact Hlen].
  unfold update_game_info in H2.
  rewrite upd_player_zero in H2 by (rewrite H1; exact Hlen). discriminate.
Qed.

Lemma claim_field_effect g p x y g1 :
  move_ctx g p x y -> claim_field g p x y = Ok g1 -> stage_effect p x y g g1.
Proof.
  intros C. unfold claim_field. destruct (_ =? 0); intros H.
  - destruct (new_area_total g p x y C) as (g2 & E & S). congruence.
  - destruct (join_area_total g p x y
                (isSurrounded (board g) (width g) (height g) p x y) C)
      as (g2 & E & S). congruence.
Qed.

Lemma claim_field_total g p x y :
  move_ctx g p x y -> exists g1, claim_field g p x y = Ok g1.
Proof.
  intros C. unfold claim_field. destruct (_ =? 0).
  - destruct (new_area_total g p x y C) as (g2 & E & _). eauto.
  - destruct (join_area_total g p x y
                (isSurrounded (board g) (width g) (height g) p x y) C)
      as (g2 & E & _). eauto.
Qed.

Lemma wf_move_ctx g p x y :
  wf_game g -> 1 <= p <= players_num g -> 0 <= x -> 0 <= y ->
  valid_coordinate (width g) (height g) x y = true -> move_ctx g p x y.
Proof.
  intros [W H N L B O] Hp Hx Hy Hv.
  apply valid_coordinate_true in Hv as [Hxw Hyh].
  unfold move_ctx. repeat split; try assumption; lia.
Qed.

(** The two halves of an accepted move on a well formed game. *)
Lemma accepted_stages g p x y g' :
  wf_game g -> 0 <= p -> 0 <= x -> 0 <= y ->
  game_move g p x y = Ok (true, g') ->
  1 <= p <= players_num g /\ 0 <= x < width g /\ 0 <= y < height g /\
  player (field (board g) x y) = 0 /\
  exists g1, claim_field g p x y = Ok g1 /\ stage_effect p x y g g1 /\
             update_game_info g1 p x y = Ok g'.
Proof.
  intros Hwf Hp Hx Hy H.
  pose proof (accepted_valid_player _ _ _ _ _ Hwf Hp H) as Hv.
  apply game_move_accepted in H as (_ & Hc & Hf & g1 & H1 & H2).
  pose proof (wf_move_ctx _ _ _ _ Hwf Hv Hx Hy Hc) as C.
  apply valid_coordinate_true in Hc as [Hxw Hyh].
  repeat (split; [first [assumption | lia] |]).
  exists g1. split; [exact H1 |]. split; [| exact H2].
  apply claim_field_effect; assumption.
Qed.

Lemma game_move_wf g p x y r g' :
  wf_game g -> 0 <= p -> 0 <= x -> 0 <= y ->
  game_move g p x y = Ok (r, g') -> wf_game g'.
Proof.
  intros Hwf Hp Hx Hy H. destruct r.
  - destruct (accepted_stages _ _ _ _ _ Hwf Hp Hx Hy H)
      as (Hv & _ & _ & _ & g1 & _ & S & H2).
    destruct S as (W1 & H1 & A1 & N1 & L1 & P1 & B1).
    apply update_game_info_effect in H2
      as (Hb & _ & W2 & H2' & _ & N2 & M).
    destruct Hwf as [W H0 N L B O].
    constructor; rewrite ?W2, ?H2', ?N2, ?W1, ?H1, ?N1, ?Hb; try assumption.
    + rewrite (players_map_length _ _ _ M), L1. exact L.
    + eapply board_step_ok; eassumption.
    + eapply board_step_owners; [exact B1 | lia | exact O].
  - apply game_move_rejected in H. subst g'. exact Hwf.
Qed.

Lemma game_new_Some w h ps a g :
  game_new w h ps a = Some g ->
  w <> 0 /\ h <> 0 /\ ps <> 0 /\ a <> 0 /\ ps <= MAX_PLAYERS /\
  g = mk_game (replicate (Z.to_nat w) (replicate (Z.to_nat h) zero_pair))
              (replicate (Z.to_nat ps) (mk_player 0 0 0))
              (replicate 4%nat 0) w h a ps.
Proof.
  unfold game_new.
  destruct (Z.eqb_spec w 0), (Z.eqb_spec h 0), (Z.eqb_spec ps 0),
    (Z.eqb_spec a 0); simpl; try discriminate.
  destruct (Z.ltb_spec MAX_PLAYERS ps); [discriminate |].
  intros [= <-]. repeat split; assumption.
Qed.

Lemma cell_new n m i j :
  cell (replicate n (replicate m zero_pair)) i j = zero_pair.
Proof.
  unfold cell.
  destruct (replicate n (replicate m zero_pair) !! i) as [col |] eqn:E;
    [| reflexivity].
  apply lookup_replicate in E as [-> _].
  destruct (replicate m zero_pair !! j) as [c |] eqn:E'; [| reflexivity].
  apply lookup_replicate in E' as [-> _]. reflexivity.
Qed.

Lemma shape_new n m (c : pair_t) :
  shape (replicate n (replicate m c)) = replicate n m.
Proof.
  unfold shape. induction n as [| n IH]; simpl; [reflexivity |].
  rewrite length_replicate. f_equal. exact IH.
Qed.

Lemma game_new_wf w h ps a g :
  uint32 w -> uint32 h -> uint32 ps ->
  game_new w h ps a = Some g -> wf_game g.
Proof.
  intros Hw Hh Hps H.
  apply game_new_Some in H as (W & H' & P & A & M & ->).
  unfold uint32 in *.
  constructor; simpl; try lia.
  - apply length_replicate.
  - apply shape_new.
  - intros i j. rewrite cell_new. simpl. lia.
Qed.

Lemma reachable_wf g : reachable g -> wf_game g.
Proof.
  induction 1 as [w h ps a g Hw Hh Hps Ha Hnew
                 | g g' p x y r Hreach IH Hp Hx Hy Hmove].
  - exact (game_new_wf _ _ _ _ _ Hw Hh Hps Hnew).
  - unfold uint32 in *. eapply game_move_wf; [exact IH | | | | exact Hmove];
      lia.
Qed.

(** ** The classifier *)

Section Classifier.

Variable ns : list Z.
Variable around : Z.

Lemma classifier_step_stuck ps areas :
  around <= areas -> fold_left (classifier_step ns around) ps areas = areas.
Proof.
  intros H. induction ps as [| ij ps IH]; simpl; [reflexivity |].
  unfold classifier_step at 2.
  destruct (Z.ltb_spec areas around); [lia | exact IH].
Qed.

Lemma different_areas_inner_fold i js : forall areas,
  different_areas_inner ns around i js areas
  = fold_left (classifier_step ns around) (map (fun j => (i, j)) js) areas.
Proof.
  induction js as [| j js IH]; intros areas; simpl; [reflexivity |].
  unfold classifier_step at 2. simpl.
  destruct (Z.ltb_spec areas around) as [Hlt | Hge].
  - apply IH.
  - symmetry. apply classifier_step_stuck. exact Hge.
Qed.

Lemma different_areas_outer_fold :
  different_areas_outer ns around (seq 0 3) 0
  = fold_left (classifier_step ns around) slot_pairs 0.
Proof.
  change (different_areas_outer ns around (seq 0 3) 0)
    with (different_areas_inner ns around 2 [3]
            (different_areas_inner ns around 1 [2; 3]
               (different_areas_inner ns around 0 [1; 2; 3] 0)))%nat.
  rewrite !different_areas_inner_fold. reflexivity.
Qed.

Lemma classifier_step_count ps : forall areas,
  0 <= areas <= around ->
  fold_left (classifier_step ns around) ps areas
  = Z.min (areas + count_differing ns ps) around.
Proof.
  unfold count_differing.
  induction ps as [| ij ps IH]; intros areas H; simpl.
  - lia.
  - unfold classifier_step at 2.
    destruct (Z.ltb_spec areas around) as [Hlt | Hge].
    + destruct (differ ns (fst ij) (snd ij)); simpl.
      * rewrite IH by lia. lia.
      * apply IH. lia.
    + rewrite classifier_step_stuck by lia.
      destruct (differ ns (fst ij) (snd ij)); simpl; lia.
Qed.

End Classifier.

(** ** The queries *)

Lemma busy_fields_loop_app (rest : list player_t) : forall pre acc,
  exists r,
    busy_fields_loop (pre ++ rest) (seq (length pre) (length rest)) acc = Ok r
    /\ wrap64 r = wrap64 (acc + placed_total rest).
Proof.
  induction rest as [| a rest IH]; intros pre acc; simpl.
  - exists acc. split; [reflexivity |]. f_equal. lia.
  - rewrite list_lookup_middle by reflexivity.
    destruct (IH (pre ++ [a]) (wrap64 (acc + completed_moves a)))
      as (r & E & Hr).
    rewrite <- app_assoc, length_app in E. simpl in E.
    rewrite Nat.add_1_r in E. exists r. split; [exact E |].
    rewrite Hr, wrap64_add_l. f_equal. lia.
Qed.

Lemma busy_fields_loop_all g :
  length (players g) = Z.to_nat (players_num g) ->
  exists r,
    busy_fields_loop (players g) (seq 0 (Z.to_nat (players_num g))) 0 = Ok r
    /\ wrap64 r = wrap64 (placed_total (players g)).
Proof.
  intros L. rewrite <- L.
  exact (busy_fields_loop_app (players g) [] 0).
Qed.

Lemma player_rec_get g p r :
  1 <= p < 2 ^ 32 -> player_rec g p = Some r -> get_player g p = Ok r.
Proof.
  intros Hp H. apply get_player_lookup. rewrite pidx_valid by exact Hp.
  exact H.
Qed.

Lemma player_rec_valid g p :
  wf_game g -> 1 <= p <= players_num g ->
  exists r, player_rec g p = Some r /\ get_player g p = Ok r.
Proof.
  intros Hwf Hp. pose proof (wf_players_num g Hwf) as Hn.
  destruct (valid_player_lookup g p (wf_players g Hwf) (proj2 Hn) Hp)
    as (E & r & Hr).
  exists r. unfold player_rec. rewrite <- E.
  split; [exact Hr | apply get_player_lookup; exact Hr].
Qed.

Lemma placed_total_replicate n :
  placed_total (replicate n (mk_player 0 0 0)) = 0.
Proof. induction n as [| n IH]; simpl; [reflexivity | rewrite IH; lia]. Qed.

(** ** Acceptance and rejection for a player in range *)

Lemma game_move_rejects g p x y :
  players_num g < p \/
  valid_coordinate (width g) (height g) x y = false \/
  player (field (board g) x y) <> 0 \/
  (isSurrounded (board g) (width g) (height g) p x y = 0 /\
   exists r, get_player g p = Ok r /\ busy_areas r = areas g) ->
  game_move g p x y = Ok (false, g).
Proof.
  intros H. unfold game_move.
  destruct (Z.ltb_spec (players_num g) p) as [| Hp]; [reflexivity |].
  destruct (valid_coordinate (width g) (height g) x y) eqn:Hv; simpl;
    [| reflexivity].
  destruct (Z.eqb_spec (player (field (board g) x y)) 0) as [Hf | Hf]; simpl;
    [| reflexivity].
  destruct H as [H | [H | [H | (Ha & r & Hr & Hb)]]];
    [lia | discriminate | contradiction |].
  rewrite Ha, Hr. simpl. rewrite Hb, Z.eqb_refl. reflexivity.
Qed.

Lemma info_ctx_stage p x y g g1 :
  wf_game g -> 0 <= p <= players_num g -> stage_effect p x y g g1 ->
  info_ctx g1.
Proof.
  intros [W H N L B O] Hp (W1 & H1 & A1 & N1 & L1 & P1 & B1).
  unfold info_ctx. rewrite N1, L1.
  split; [exact L |]. split; [lia |].
  eapply board_step_owners; eassumption.
Qed.

Lemma game_move_accepts g p x y :
  wf_game g -> 1 <= p <= players_num g -> 0 <= x -> 0 <= y ->
  valid_coordinate (width g) (height g) x y = true ->
  player (field (board g) x y) = 0 ->
  (isSurrounded (board g) (width g) (height g) p x y <> 0 \/
   exists r, get_player g p = Ok r /\ busy_areas r <> areas g) ->
  exists g', game_move g p x y = Ok (true, g').
Proof.
  intros Hwf Hp Hx Hy Hv Hf Hacc.
  pose proof (wf_move_ctx _ _ _ _ Hwf Hp Hx Hy Hv) as C.
  unfold game_move.
  destruct (Z.ltb_spec (players_num g) p); [lia |].
  rewrite Hv, Hf. simpl.
  destruct (Z.eqb_spec (isSurrounded (board g) (width g) (height g) p x y) 0)
    as [Ha | Ha].
  - destruct Hacc as [Hacc | (r & Hr & Hb)]; [contradiction |].
    rewrite Hr. simpl.
    destruct (Z.eqb_spec (busy_areas r) (areas g)); [contradiction |].
    destruct (new_area_total g p x y C) as (g1 & E1 & S1).
    rewrite E1. simpl.
    destruct (update_game_info_total g1 p x y) as (g2 & E2).
    { apply (info_ctx_stage p x y g g1 Hwf); [lia | exact S1]. }
    { destruct S1 as (_ & _ & _ & N1 & _). lia. }
    rewrite E2. simpl. eauto.
  - destruct (join_area_total g p x y
                (isSurrounded (board g) (width g) (height g) p x y) C)
      as (g1 & E1 & S1).
    rewrite E1. simpl.
    destruct (update_game_info_total g1 p x y) as (g2 & E2).
    { apply (info_ctx_stage p x y g g1 Hwf); [lia | exact S1]. }
    { destruct S1 as (_ & _ & _ & N1 & _). lia. }
    rewrite E2. simpl. eauto.
Qed.

(** ** The probes do not read the field of the move *)

Lemma field_step_owner p x y b b' x' y' :
  board_step p (Z.to_nat x) (Z.to_nat y) b b' ->
  0 <= x -> 0 <= y -> 0 <= x' -> 0 <= y' -> (x', y') <> (x, y) ->
  player (field b' x' y') = player (field b x' y').
Proof.
  intros B Hx Hy Hx' Hy' Hne. rewrite !field_cell.
  eapply board_step_owner; [exact B |].
  intros [= E1 E2]. apply Hne. f_equal; lia.
Qed.

Lemma isSurrounded_step p x y b b' w h q :
  board_step p (Z.to_nat x) (Z.to_nat y) b b' -> 0 <= x -> 0 <= y ->
  isSurrounded b' w h q x y = isSurrounded b w h q x y.
Proof.
  intros B Hx Hy. rewrite !isSurrounded_sum.
  assert (forall (c : bool) x' y' v,
            (c = true -> 0 <= x' /\ 0 <= y' /\ (x', y') <> (x, y)) ->
            (if c && (v && (player (field b' x' y') =? q)) then 1 else 0)
            = (if c && (v && (player (field b x' y') =? q)) then 1 else 0))
    as Hterm.
  { intros c x' y' v Hc. destruct c; [| reflexivity].
    destruct (Hc eq_refl) as (Hx' & Hy' & Hne).
    rewrite (field_step_owner _ _ _ _ _ _ _ B Hx Hy Hx' Hy' Hne).
    reflexivity. }
  rewrite (Hterm (0 <? x) (x - 1) y), (Hterm (x + 1 <? w) (x + 1) y),
    (Hterm (0 <? y) x (y - 1)), (Hterm (y + 1 <? h) x (y + 1));
    [reflexivity | | | |]; intros Hc.
  - repeat split; try lia. intros E. pose proof (f_equal fst E).
    pose proof (f_equal snd E). simpl in *. lia.
  - apply Z.ltb_lt in Hc. repeat split; try lia. intros E. pose proof (f_equal fst E).
    pose proof (f_equal snd E). simpl in *. lia.
  - repeat split; try lia. intros E. pose proof (f_equal fst E).
    pose proof (f_equal snd E). simpl in *. lia.
  - apply Z.ltb_lt in Hc. repeat split; try lia. intros E. pose proof (f_equal fst E).
    pose proof (f_equal snd E). simpl in *. lia.
Qed.

(** ** The probes count what the specification says

    [isSurrounded] is the number of fields of [q] next to [(x, y)].
    [common_free_fields] is the number of fields of [q] two steps away as
    long as [x + 2] and [y + 2] fit in 32 bits, which they do on every board
    whose sides are below [2 ^ 32 - 1]. *)

Lemma match_count_four b w h q c1 c2 c3 c4 :
  match_count b w h q [c1; c2; c3; c4]
  = (if on_board w h (fst c1) (snd c1)
        && (player (field b (fst c1) (snd c1)) =? q) then 1 else 0)
    + (if on_board w h (fst c2) (snd c2)
          && (player (field b (fst c2) (snd c2)) =? q) then 1 else 0)
    + (if on_board w h (fst c3) (snd c3)
          && (player (field b (fst c3) (snd c3)) =? q) then 1 else 0)
    + (if on_board w h (fst c4) (snd c4)
          && (player (field b (fst c4) (snd c4)) =? q) then 1 else 0).
Proof.
  unfold match_count. cbn [List.filter].
  destruct (on_board w h (fst c1) (snd c1) && _),
    (on_board w h (fst c2) (snd c2) && _),
    (on_board w h (fst c3) (snd c3) && _),
    (on_board w h (fst c4) (snd c4) && _); reflexivity.
Qed.

Lemma guarded_on_board (c v e ob : bool) :
  c && v = ob ->
  (if c && (v && e) then 1 else 0) = (if ob && e then 1 else 0).
Proof. intros <-. rewrite andb_assoc. reflexivity. Qed.

Lemma isSurrounded_orthogonal b w h q x y :
  0 <= x < w -> 0 <= y < h ->
  isSurrounded b w h q x y = orthogonal_match_count b w h q x y.
Proof.
  intros Hx Hy. rewrite isSurrounded_sum.
  unfold orthogonal_match_count. rewrite match_count_four.
  cbn [fst snd].
  f_equal; [f_equal; [f_equal |] |]; apply guarded_on_board;
    unfold valid_coordinate, on_board; bool_cases.
Qed.

Lemma common_free_fields_sum b w h q x y :
  common_free_fields b w h q x y
  = (if (1 <? x) && (valid_coordinate w h (x - 2) y
                     && (player (field b (x - 2) y) =? q)) then 1 else 0)
    + (if (wrap32 (x + 2) <? w)
          && (valid_coordinate w h (wrap32 (x + 2)) y
              && (player (field b (wrap32 (x + 2)) y) =? q)) then 1 else 0)
    + (if (1 <? y) && (valid_coordinate w h x (y - 2)
                       && (player (field b x (y - 2)) =? q)) then 1 else 0)
    + (if (wrap32 (y + 2) <? h)
          && (valid_coordinate w h x (wrap32 (y + 2))
              && (player (field b x (wrap32 (y + 2))) =? q)) then 1 else 0).
Proof. unfold common_free_fields. rewrite !count_step. reflexivity. Qed.

Lemma common_free_fields_two_step b w h q x y :
  0 <= x < w -> 0 <= y < h -> x + 2 < 2 ^ 32 -> y + 2 < 2 ^ 32 ->
  common_free_fields b w h q x y = two_step_match_count b w h q x y.
Proof.
  intros Hx Hy Hx2 Hy2. rewrite common_free_fields_sum.
  rewrite !(wrap32_small (x + 2)), !(wrap32_small (y + 2)) by lia.
  unfold two_step_match_count. rewrite match_count_four.
  cbn [fst snd].
  f_equal; [f_equal; [f_equal |] |]; apply guarded_on_board;
    unfold valid_coordinate, on_board; bool_cases.
Qed.

(** Where [x + 2] does not fit: on a board [2 ^ 32 - 1] fields wide, the
    probe at the column [2 ^ 32 - 2] tests [x + 2 = 0 < width] and reads the
    column 0, which is not two steps away. *)
Lemma common_free_fields_wraps b h q y :
  0 <= y < h -> player (field b 0 y) = q ->
  player (field b 4294967292 y) <> q ->
  1 <= common_free_fields b 4294967295 h q 4294967294 y /\
  match_count b 4294967295 h q [(4294967292, y); (4294967296, y)] = 0.
Proof.
  intros Hy H0 H2. split.
  - rewrite common_free_fields_sum.
    replace (wrap32 (4294967294 + 2)) with 0 by reflexivity.
    rewrite H0, Z.eqb_refl.
    assert (valid_coordinate 4294967295 h 0 y = true) as ->
      by (apply valid_coordinate_true; lia).
    simpl ((0 <? 4294967295) && (true && true)). cbv iota.
    repeat match goal with
           | |- context [if ?c then 1 else 0] => destruct c
           end; lia.
  - unfold match_count. cbn [List.filter fst snd].
    destruct (Z.eqb_spec (player (field b 4294967292 y)) q);
      [contradiction |].
    rewrite andb_false_r.
    replace (on_board 4294967295 h 4294967296 y) with false; [reflexivity |].
    unfold on_board. destruct (0 <=? 4294967296); reflexivity.
Qed.

(** ** The records after the update of the game's info *)

Lemma boundary_ledger g p x y r :
  boundary (ledger g p x y r)
  = wrap64 (boundary r
            + isSurrounded (board g) (width g) (height g) 0 x y
            - common_free_fields (board g) (width g) (height g) p x y
            - diagonal_neighbours g p x y).
Proof.
  unfold ledger, add_boundary, add_completed_moves. cbn [boundary].
  rewrite !wrap64_add_l, <- !Z.add_assoc, !wrap64_add_l. f_equal. lia.
Qed.

Lemma boundary_dec n r :
  boundary (dec_boundary n r)
  = if n =? 0 then boundary r else wrap64 (boundary r - n).
Proof.
  unfold dec_boundary. destruct (n =? 0); [reflexivity |].
  unfold add_boundary. cbn [boundary]. reflexivity.
Qed.

Lemma dec_boundary_counters n r :
  busy_areas (dec_boundary n r) = busy_areas r /\
  completed_moves (dec_boundary n r) = completed_moves r.
Proof. unfold dec_boundary. destruct (n =? 0); simpl; auto. Qed.

Lemma info_records g1 p x y g' :
  info_ctx g1 -> 0 < width g1 < 2 ^ 32 -> 0 < height g1 < 2 ^ 32 ->
  0 <= x < width g1 -> 0 <= y < height g1 ->
  1 <= p <= players_num g1 ->
  update_game_info g1 p x y = Ok g' ->
  (forall r1, player_rec g1 p = Some r1 ->
              player_rec g' p = Some (ledger g1 p x y r1)) /\
  (forall q r1, 1 <= q -> q <> p -> player_rec g1 q = Some r1 ->
     player_rec g' q
     = Some (dec_boundary
               (isSurrounded (board g1) (width g1) (height g1) q x y) r1)).
Proof.
  intros (C1 & C2 & C3) Hw Hh Hx Hy Hp H.
  apply update_game_info_effect in H as (_ & _ & _ & _ & _ & _ & M).
  unfold MAX_PLAYERS in C2.
  assert (players_num g1 < 2 ^ 32) as Hn by lia.
  split.
  - intros r1 Hr1. unfold player_rec in *. rewrite M, Hr1. simpl.
    rewrite <- (pidx_valid p) by lia.
    rewrite (strangers_self _ _ _ _ _ _ _ C3 Hn) by lia.
    unfold at_index. rewrite decide_True by reflexivity. reflexivity.
  - intros q r1 Hq Hqp Hr1. unfold player_rec in *. rewrite M, Hr1. simpl.
    rewrite (strangers_isSurrounded _ _ _ _ _ _ _ _ C3 Hn) by lia.
    unfold at_index. rewrite decide_False; [reflexivity |].
    rewrite pidx_valid by lia. lia.
Qed.

(** ** Runs of moves stay among the reachable games *)

Lemma play_reachable ms : forall g g',
  reachable g -> moves_ok ms -> play g ms = Ok g' -> reachable g'.
Proof.
  induction ms as [| m ms IH]; intros g g' Hg Hms H; simpl in H.
  - injection H as <-. exact Hg.
  - apply res_bind_Ok in H as ([r g1] & E & H). simpl in H.
    inversion Hms as [| ? ? (Hp & Hx & Hy) Hms']; subst.
    eapply IH; [| exact Hms' | exact H].
    exact (reach_move _ _ _ _ _ _ Hg Hp Hx Hy E).
Qed.

(** ** The properties *)

Lemma board3_new : game_new 3 3 2 2 = Some board3.
Proof. reflexivity. Qed.

Lemma board3_wf : wf_game board3.
Proof.
  apply (game_new_wf 3 3 2 2); unfold uint32; [lia | lia | lia |].
  exact board3_new.
Qed.

Lemma board3_reachable : reachable board3.
Proof.
  apply (reach_new 3 3 2 2); unfold uint32; [lia | lia | lia | lia |].
  exact board3_new.
Qed.

Lemma board3_corner_wf : wf_game board3_corner.
Proof.
  apply (game_move_wf board3 1 0 0 true); [exact board3_wf | lia | lia | lia |].
  vm_compute. reflexivity.
Qed.

Lemma board3_quota_reachable : reachable board3_quota.
Proof.
  apply (play_reachable [mk_move 1 0 0; mk_move 1 2 2] board3).
  - exact board3_reachable.
  - repeat constructor; unfold uint32; simpl; lia.
  - vm_compute. reflexivity.
Qed.

(** C10: an accepted move of player [p] at [(x, y)] leaves the owner of
    every field other than [(x, y)] as it was, changes the tag only of fields
    that [p] owns, and for every other player [q] leaves [busy_areas] and
    [completed_moves] as they were and takes from the boundary of [q], in
    the arithmetic of [uint64_t], exactly the number of fields of [q] next
    to [(x, y)]. *)
Theorem C10_move_frame g p x y g' :
  wf_game g -> uint32 p -> uint32 x -> uint32 y ->
  game_move g p x y = Ok (true, g') ->
  (forall i j, 0 <= i -> 0 <= j -> (i, j) <> (x, y) ->
     player (field (board g') i j) = player (field (board g) i j)) /\
  (forall i j,
     parent_id (field (board g') i j) <> parent_id (field (board g) i j) ->
     player (field (board g') i j) = p) /\
  (forall q, 1 <= q <= players_num g -> q <> p ->
     exists r r',
       player_rec g q = Some r /\ player_rec g' q = Some r' /\
       busy_areas r' = busy_areas r /\
       completed_moves r' = completed_moves r /\
       boundary r'
       = (let n := isSurrounded (board g) (width g) (height g) q x y in
          if n =? 0 then boundary r else wrap64 (boundary r - n))).
Proof.
  intros Hwf Hp Hx Hy H. unfold uint32 in *.
  destruct (accepted_stages g p x y g' Hwf)
    as (Hv & Hxw & Hyh & _ & g1 & E1 & S & E2);
    [lia | lia | lia | exact H |].
  assert (info_ctx g1) as C1
    by (apply (info_ctx_stage p x y g g1 Hwf); [lia | exact S]).
  pose proof S as (W1 & H1 & A1 & N1 & L1 & P1 & B1).
  pose proof (wf_width g Hwf) as Hw. pose proof (wf_height g Hwf) as Hh.
  destruct (info_records g1 p x y g' C1) as [_ Rq];
    [lia | lia | lia | lia | lia | exact E2 |].
  apply update_game_info_effect in E2 as (Hb & _).
  split; [| split].
  - intros i j Hi Hj Hne. rewrite Hb.
    apply (field_step_owner p x y); [exact B1 | lia | lia | lia | lia |].
    exact Hne.
  - intros i j Hne. rewrite Hb in *. rewrite !field_cell in *.
    eapply board_step_tag; [exact B1 | exact Hne].
  - intros q Hq Hqp.
    destruct (player_rec_valid g q Hwf Hq) as (r & Hr & _).
    assert (player_rec g1 q = Some r) as Hr1.
    { unfold player_rec in *. rewrite P1; [exact Hr |].
      rewrite pidx_valid by lia. lia. }
    eexists r, _. split; [exact Hr |].
    split; [apply Rq; [lia | exact Hqp | exact Hr1] |].
    destruct (dec_boundary_counters
                (isSurrounded (board g1) (width g1) (height g1) q x y) r)
      as [Eb Ec].
    split; [exact Eb |]. split; [exact Ec |].
    rewrite boundary_dec, W1, H1.
    rewrite (isSurrounded_step p x y (board g) (board g1)) by (auto; lia).
    reflexivity.
Qed.

(** C10 at the same move of player 2 to [(1, 0)]. *)
Lemma C10_move_frame_witness :
  (forall i j, 0 <= i -> 0 <= j -> (i, j) <> (1, 0) ->
     player (field (board board3_pair) i j)
     = player (field (board board3_corner) i j)) /\
  (forall i j,
     parent_id (field (board board3_pair) i j)
     <> parent_id (field (board board3_corner) i j) ->
     player (field (board board3_pair) i j) = 2) /\
  (forall q, 1 <= q <= players_num board3_corner -> q <> 2 ->
     exists r r',
       player_rec board3_corner q = Some r /\
       player_rec board3_pair q = Some r' /\
       busy_areas r' = busy_areas r /\
       completed_moves r' = completed_moves r /\
       boundary r'
       = (let n := isSurrounded (board board3_corner) (width board3_corner)
                     (height board3_corner) q 1 0 in
          if n =? 0 then boundary r else wrap64 (boundary r - n))).
Proof.
  apply (C10_move_frame board3_corner 2 1 0 board3_pair).
  - exact board3_corner_wf.
  - unfold uint32. lia.
  - unfold uint32. lia.
  - unfold uint32. lia.
  - vm_compute. reflexivity.
Defined.

(** C7: for a player [p] in range, [game_free_fields] answers the boundary
    of [p] when [busy_areas] of [p] equals [areas], and otherwise
    [width * height] minus the sum of [completed_moves] over all players,
    computed on 64 bits; the difference is exact when the sum does not
    exceed the number of fields.  The function takes the game by a pointer
    to [const] and has no state to give back: its embedding returns the
    answer only. *)
Theorem C7_free_fields g p :
  wf_game g -> 1 <= p <= players_num g ->
  exists r,
    player_rec g p = Some r /\
    game_free_fields g p
    = Ok (if busy_areas r =? areas g then boundary r
          else wrap64 (width g * height g - placed_total (players g))) /\
    (0 <= placed_total (players g) <= width g * height g ->
     wrap64 (width g * height g - placed_total (players g))
     = width g * height g - placed_total (players g)).
Proof.
  intros Hwf Hp.
  destruct (player_rec_valid g p Hwf Hp) as (r & Hr & Hg).
  exists r. split; [exact Hr |]. split.
  - unfold game_free_fields.
    destruct (Z.ltb_spec (players_num g) p); [lia |].
    rewrite Hg. simpl. destruct (busy_areas r =? areas g); [reflexivity |].
    destruct (busy_fields_loop_all g (wf_players g Hwf)) as (s & Es & Hs).
    rewrite Es. simpl. f_equal.
    rewrite <- wrap64_sub_r, Hs, wrap64_sub_r.
    unfold wrap64. rewrite Zminus_mod_idemp_l. f_equal. lia.
  - intros Hsum. apply wrap64_small.
    pose proof (wf_width g Hwf). pose proof (wf_height g Hwf). nia.
Qed.

(** C7 for player 1 of [board3_quota], whose two areas reach the limit. *)
Lemma C7_free_fields_witness :
  exists r,
    player_rec board3_quota 1 = Some r /\
    game_free_fields board3_quota 1
    = Ok (if busy_areas r =? areas board3_quota then boundary r
          else wrap64 (width board3_quota * height board3_quota
                       - placed_total (players board3_quota))) /\
    (0 <= placed_total (players board3_quota)
          <= width board3_quota * height board3_quota ->
     wrap64 (width board3_quota * height board3_quota
             - placed_total (players board3_quota))
     = width board3_quota * height board3_quota
       - placed_total (players board3_quota)).
Proof.
  apply (C7_free_fields board3_quota 1).
  - apply reachable_wf. exact board3_quota_reachable.
  - simpl. lia.
Defined.

(** C9: right after [game_new] succeeds, every field is empty, and for
    every player [p] in range [game_busy_fields] answers 0 and
    [game_free_fields] answers [width * height]. *)
Theorem C9_fresh_game w h ps a g :
  uint32 w -> uint32 h -> uint32 ps -> uint32 a ->
  game_new w h ps a = Some g ->
  (forall x y, field (board g) x y = zero_pair) /\
  (forall p, 1 <= p <= ps ->
     game_busy_fields g p = Ok 0 /\ game_free_fields g p = Ok (w * h)).
Proof.
  intros Hw Hh Hps Ha Hnew.
  pose proof (game_new_wf _ _ _ _ _ Hw Hh Hps Hnew) as Hwf.
  apply game_new_Some in Hnew as (W & H & P & A & M & ->).
  unfold uint32 in *. split.
  - intros x y. rewrite field_cell. apply cell_new.
  - intros p Hp.
    destruct (player_rec_valid _ p Hwf Hp) as (r & Hr & Hg).
    unfold player_rec in Hr. simpl in Hr.
    apply lookup_replicate in Hr as [-> _].
    unfold game_busy_fields, game_free_fields.
    cbn [players_num areas width height players].
    destruct (Z.ltb_spec ps p); [lia |].
    rewrite Hg. cbn [res_bind completed_moves busy_areas boundary].
    split; [reflexivity |].
    destruct (Z.eqb_spec 0 a); [lia |].
    destruct (busy_fields_loop_all _ (wf_players _ Hwf)) as (s & Es & Hs).
    cbn [players players_num] in Es, Hs. rewrite Es. cbn [res_bind]. f_equal.
    rewrite placed_total_replicate in Hs.
    rewrite <- wrap64_sub_r, Hs, wrap64_sub_r, Z.sub_0_r, wrap64_idem.
    rewrite wrap64_small by nia. lia.
Qed.

(** C9 for the fresh board of 3 x 3 fields. *)
Lemma C9_fresh_game_witness :
  (forall x y, field (board board3) x y = zero_pair) /\
  (forall p, 1 <= p <= 2 ->
     game_busy_fields board3 p = Ok 0 /\
     game_free_fields board3 p = Ok (3 * 3)).
Proof.
  apply (C9_fresh_game 3 3 2 2 board3); unfold uint32;
    [lia | lia | lia | lia | reflexivity].
Defined.

(** C8: in a reachable game where [busy_areas] of player [p] equals
    [areas], a move of [p] to an empty field of the board with no field of
    [p] next to it is refused and leaves the game as it is, and a move of
    [p] to an empty field of the board with a field of [p] next to it is
    accepted. *)
Theorem C8_quota g p x y r :
  reachable g -> 1 <= p <= players_num g ->
  player_rec g p = Some r -> busy_areas r = areas g ->
  uint32 x -> uint32 y ->
  valid_coordinate (width g) (height g) x y = true ->
  player (field (board g) x y) = 0 ->
  (isSurrounded (board g) (width g) (height g) p x y = 0 ->
   game_move g p x y = Ok (false, g)) /\
  (isSurrounded (board g) (width g) (height g) p x y <> 0 ->
   exists g', game_move g p x y = Ok (true, g')).
Proof.
  intros Hreach Hp Hr Hb Hx Hy Hv Hf. unfold uint32 in *.
  pose proof (reachable_wf g Hreach) as Hwf.
  pose proof (wf_players_num g Hwf) as Hn. unfold MAX_PLAYERS in Hn.
  split.
  - intros Ha. apply game_move_rejects. right. right. right.
    split; [exact Ha |]. exists r. split; [| exact Hb].
    apply player_rec_get; [lia | exact Hr].
  - intros Ha. apply game_move_accepts; [exact Hwf | lia | lia | lia | | |];
      [exact Hv | exact Hf | left; exact Ha].
Qed.

(** C8 for player 1 of [board3_quota] and the empty field [(1, 0)] next to
    its corner. *)
Lemma C8_quota_witness :
  (isSurrounded (board board3_quota) (width board3_quota)
     (height board3_quota) 1 1 0 = 0 ->
   game_move board3_quota 1 1 0 = Ok (false, board3_quota)) /\
  (isSurrounded (board board3_quota) (width board3_quota)
     (height board3_quota) 1 1 0 <> 0 ->
   exists g', game_move board3_quota 1 1 0 = Ok (true, g')).
Proof.
  apply (C8_quota board3_quota 1 1 0 (mk_player 4 2 2)).
  - exact board3_quota_reachable.
  - simpl. lia.
  - reflexivity.
  - reflexivity.
  - unfold uint32. lia.
  - unfold uint32. lia.
  - reflexivity.
  - reflexivity.
Defined.

Lemma moves_ok_small ms :
  forallb (fun m => (0 <=? mv_player m) && (mv_player m <? 100)
                    && (0 <=? mv_x m) && (mv_x m <? 100)
                    && (0 <=? mv_y m) && (mv_y m <? 100)) ms = true ->
  moves_ok ms.
Proof.
  intros H. unfold moves_ok. apply Forall_forall. intros m Hm.
  rewrite forallb_forall in H. apply list_elem_of_In in Hm.
  specialize (H m Hm). unfold uint32. lia.
Qed.

(** C1, the failing call: on the game of one field, [game_move] with player
    number 0 passes the three tests at the head of the function, finds no
    field of "player 0" around, and reads [g->players[0 - 1]], which is
    outside the array.  The call does not return [false]. *)
Theorem C1_player_zero :
  game_new 1 1 1 1 = Some board1 /\
  (players_num board1 <? 0) = false /\
  valid_coordinate (width board1) (height board1) 0 0 = true /\
  player (field (board board1) 0 0) = 0 /\
  game_move board1 0 0 0 = Fault.
Proof. repeat split. Qed.

(** C2, the failing move: player 1 holds the areas [(0, 0)] with tag 1 and
    [(0, 2)] with tag 2 and takes the field [(0, 1)] between them.  The move
    is accepted and [busy_areas] goes from 2 to 1, the three fields are one
    column of player 1, but [different_areas] answers 1 for the two tags, so
    [BFS] is not run: [(0, 2)] keeps tag 2 while [(0, 0)] and [(0, 1)] have
    tag 1. *)
Theorem C2_tags_stay_apart :
  reachable board3_apart /\
  field (board board3_apart) 0 0 = mk_pair 1 1 /\
  field (board board3_apart) 0 1 = mk_pair 0 0 /\
  field (board board3_apart) 0 2 = mk_pair 1 2 /\
  game_move board3_apart 1 0 1 = Ok (true, board3_joined) /\
  different_areas (neighbours board3_joined)
    (isSurrounded (board board3_apart) 3 3 1 0 1) = 1 /\
  (busy_areas <$> player_rec board3_apart 1) = Some 2 /\
  (busy_areas <$> player_rec board3_joined 1) = Some 1 /\
  field (board board3_joined) 0 0 = mk_pair 1 1 /\
  field (board board3_joined) 0 1 = mk_pair 1 1 /\
  field (board board3_joined) 0 2 = mk_pair 1 2.
Proof.
  split.
  - apply (play_reachable [mk_move 1 0 0; mk_move 1 0 2] board3).
    + exact board3_reachable.
    + apply moves_ok_small. reflexivity.
    + vm_compute. reflexivity.
  - repeat split.
Qed.

(** The same claim with four neighbours: player 1 takes the centre between
    two areas of three fields each.  [different_areas] answers 4 without a
    look at the tags, and [busy_areas] goes from 2 to [2 - 3] on 32 bits. *)
Lemma merge_four_neighbours :
  reachable board3_ring /\
  isSurrounded (board board3_ring) 3 3 1 1 1 = 4 /\
  (busy_areas <$> player_rec board3_ring 1) = Some 2 /\
  (busy_areas <$>
     player_rec (the_state (play board3_ring [mk_move 1 1 1])) 1)
  = Some 4294967295.
Proof.
  split.
  - apply (play_reachable ring_moves board3).
    + exact board3_reachable.
    + apply moves_ok_small. reflexivity.
    + vm_compute. reflexivity.
  - repeat split.
Qed.

(** C3, the failing input: player 1 holds one area, the arc of seven fields
    around the centre of the board, and takes the centre.  The four slots
    hold the tag 1: there is one distinct tag and no pair of slots differs,
    so there is one area around the field, and the count of areas of player
    1 should stay 1.  [different_areas] answers 4, its test of
    [around == 4] comes before any look at the tags; the branch that unites
    areas runs and [busy_areas] goes from 1 to [1 - 3] on 32 bits. *)
Theorem C3_four_of_one_area :
  reachable board3_arc /\
  isSurrounded (board board3_arc) 3 3 1 1 1 = 4 /\
  neighbours (find_neighbours board3_arc 1 1 1) = [1; 1; 1; 1] /\
  distinct_tags [1; 1; 1; 1] = 1 /\
  differing_pairs [1; 1; 1; 1] = 0 /\
  different_areas [1; 1; 1; 1] 4 = 4 /\
  (busy_areas <$> player_rec board3_arc 1) = Some 1 /\
  game_move board3_arc 1 1 1 = Ok (true, board3_arc_centre) /\
  (busy_areas <$> player_rec board3_arc_centre 1) = Some 4294967294.
Proof.
  split.
  - apply (play_reachable arc_moves board3).
    + exact board3_reachable.
    + apply moves_ok_small. reflexivity.
    + vm_compute. reflexivity.
  - repeat split.
Qed.

(** [k] counts pairs, not tags: two distinct tags are one differing pair. *)
Lemma two_tags_one_pair :
  different_areas [1; 2; 0; 0] 2 = 1 /\ distinct_tags [1; 2; 0; 0] = 2.
Proof. split; reflexivity. Qed.

(** What [different_areas] computes: for [around] from 1 to 3 the number
    of pairs of slots, among (0,1), (0,2), (0,3), (1,2), (1,3), (2,3), whose
    two tags are nonzero and differ, capped at [around], and 1 when that
    number is 0; for [around = 4] it answers 4 whatever the tags are.  In
    both cases the answer is between 1 and [around]. *)
Lemma different_areas_counts_pairs ns around :
  1 <= around <= 4 ->
  different_areas ns around
  = (if around =? 4 then 4 else classifier_spec ns around) /\
  1 <= different_areas ns around <= around.
Proof.
  intros H. unfold different_areas, classifier_spec.
  destruct (Z.eqb_spec around 4) as [-> | Hne]; [split; [reflexivity | lia] |].
  rewrite different_areas_outer_fold, classifier_step_count by lia.
  rewrite Z.add_0_l. fold (differing_pairs ns). split; [reflexivity |].
  assert (0 <= differing_pairs ns)
    by (unfold differing_pairs, count_differing; lia).
  destruct (Z.eqb_spec (Z.min (differing_pairs ns) around) 0); lia.
Qed.

(** C5, the failing run: six accepted moves of player 1 fill a block of
    3 x 2 fields, one area.  The moves to [(1, 1)] and to [(2, 1)] each have
    two neighbours of that one area, [different_areas] answers 1, and
    [busy_areas] is decreased by [around - 1 = 1] each time: from 1 to 0,
    then to [0 - 1] on 32 bits, far above the limit of 3. *)
Theorem C5_area_count_above_quota :
  reachable board5_block /\
  answers board5 block_moves = Ok [true; true; true; true; true; true] /\
  (busy_areas <$> player_rec board5_block 1) = Some 4294967295 /\
  areas board5_block = 3.
Proof.
  split.
  - apply (play_reachable block_moves board5).
    + apply (reach_new 5 2 1 3); unfold uint32; [lia | lia | lia | lia |].
      reflexivity.
    + apply moves_ok_small. reflexivity.
    + vm_compute. reflexivity.
  - repeat split.
Qed.

(** C4, the failing run: after the block of C5, [busy_areas] is
    [2 ^ 32 - 1]; the move to [(4, 0)] starts an area, [busy_areas] wraps
    to 0 and the field gets tag 0.  The move to [(4, 1)] then finds one
    neighbour of player 1 but no nonzero tag: the loop that adopts a tag
    writes nothing, the field stays empty, yet [completed_moves] is
    incremented and the call answers [true].  Eight moves are counted,
    three of the ten fields are empty. *)
Theorem C4_counts_diverge :
  reachable board5_far /\
  answers board5 (block_moves ++ far_moves)
  = Ok [true; true; true; true; true; true; true; true] /\
  field (board board5_far) 4 0 = mk_pair 1 0 /\
  field (board board5_far) 4 1 = mk_pair 0 0 /\
  placed_total (players board5_far) = 8 /\
  empty_fields board5_far = 3 /\
  width board5_far * height board5_far = 10 /\
  placed_total (players board5_far) + empty_fields board5_far
  <> width board5_far * height board5_far.
Proof.
  split.
  - apply (play_reachable (block_moves ++ far_moves) board5).
    + apply (reach_new 5 2 1 3); unfold uint32; [lia | lia | lia | lia |].
      reflexivity.
    + apply moves_ok_small. reflexivity.
    + vm_compute. reflexivity.
  - repeat split. intros H. discriminate H.
Qed.

(** The failing call of C1 in general: on a well formed game, a call with
    player number 0 to an empty field of the board never returns. *)
Lemma join_area_zero g x y around :
  (length (players g) <= 35)%nat ->
  join_area g 0 x y around = Fault \/
  exists g1, join_area g 0 x y around = Ok g1 /\ players g1 = players g.
Proof.
  intros Hlen. unfold join_area.
  destruct (different_areas _ _ =? 1).
  - unfold extend_area. destruct (1 <? _).
    + left. rewrite upd_player_zero by exact Hlen. reflexivity.
    + cbn [res_bind].
      destruct (adjust_area_zero (find_neighbours g 0 x y) x y (seq 0 4)
                  Hlen) as [E | E]; rewrite E; [left; reflexivity |].
      right. eexists. split; reflexivity.
  - left. unfold union_areas. rewrite upd_player_zero by exact Hlen.
    reflexivity.
Qed.

Lemma game_move_player_zero g x y :
  wf_game g ->
  valid_coordinate (width g) (height g) x y = true ->
  player (field (board g) x y) = 0 ->
  game_move g 0 x y = Fault.
Proof.
  intros Hwf Hv Hf.
  assert (length (players g) <= 35)%nat as Hlen.
  { rewrite (wf_players g Hwf). pose proof (wf_players_num g Hwf).
    unfold MAX_PLAYERS in *. lia. }
  unfold game_move.
  destruct (Z.ltb_spec (players_num g) 0);
    [pose proof (wf_players_num g Hwf); lia |].
  rewrite Hv, Hf. simpl. destruct (_ =? 0).
  - rewrite get_player_zero by exact Hlen. reflexivity.
  - destruct (join_area_zero g x y
                (isSurrounded (board g) (width g) (height g) 0 x y) Hlen)
      as [E | (g1 & E & Hp)]; rewrite E; [reflexivity |].
    cbn [res_bind]. unfold update_game_info.
    rewrite upd_player_zero by (rewrite Hp; exact Hlen). reflexivity.
Qed.

(** ** The model against the test driver of the repository

    Every assertion of [game_example.c] on the answers of [game_move],
    [game_busy_fields] and [game_free_fields] holds in the model. *)
Lemma driver_asserts :
  game_new 0 0 0 0 = None /\
  game_new 10 10 2 3 = Some board10 /\
  answers board10 driver_moves
  = Ok [true; true; true; true; false; true; true; false; true; true;
        false; true] /\
  game_busy_fields (driver_after 1) 1 = Ok 1 /\
  game_busy_fields (driver_after 1) 2 = Ok 0 /\
  game_free_fields (driver_after 1) 1 = Ok 99 /\
  game_free_fields (driver_after 1) 2 = Ok 99 /\
  game_busy_fields (driver_after 2) 1 = Ok 1 /\
  game_busy_fields (driver_after 2) 2 = Ok 1 /\
  game_free_fields (driver_after 2) 1 = Ok 98 /\
  game_free_fields (driver_after 2) 2 = Ok 98 /\
  game_free_fields (driver_after 5) 1 = Ok 6 /\
  game_free_fields (driver_after 6) 1 = Ok 95 /\
  game_busy_fields (driver_after 8) 1 = Ok 5 /\
  game_free_fields (driver_after 8) 1 = Ok 10 /\
  game_free_fields (driver_after 10) 1 = Ok 9 /\
  game_free_fields (driver_after 10) 2 = Ok 92 /\
  game_busy_fields (driver_after 12) 1 = Ok 5 /\
  game_free_fields (driver_after 12) 1 = Ok 9 /\
  game_busy_fields (driver_after 12) 2 = Ok 4 /\
  game_free_fields (driver_after 12) 2 = Ok 91.
Proof. repeat split; vm_compute; reflexivity. Qed.

(** ** Two remarks on the boundary *)

(** The branches that extend or unite areas take 1 from the boundary of the
    mover before the update of the game's info: the field of the move was
    itself counted.  Player 1 at [(0, 0)] with boundary 2 takes [(0, 1)]:
    the update of the areas leaves 1, the update of the info adds the two
    empty fields around and leaves 3. *)
Lemma extend_takes_one :
  (boundary <$> player_rec board3_corner 1) = Some 2 /\
  (boundary <$> player_rec (the_state (claim_field board3_corner 1 0 1)) 1)
  = Some 1 /\
  (boundary <$> player_rec (the_state (play board3_corner [mk_move 1 0 1])) 1)
  = Some 3.
Proof. repeat split. Qed.

(** The decrements are those of [uint64_t]: on the row of four fields taken
    in turn, the last move takes 1 from the boundary 0 of both players. *)
Lemma boundary_wraps :
  answers board4 row_moves = Ok [true; true; true; true] /\
  map boundary (players (the_state (play board4 (take 3 row_moves))))
  = [0; 0] /\
  map boundary (players (the_state (play board4 row_moves)))
  = [18446744073709551615; 18446744073709551615].
Proof. repeat split. Qed.

(** ** The symbols of the players *)

Lemma game_player_digit g p :
  1 <= p <= 9 -> p <= players_num g -> game_player g p = p + 48.
Proof.
  intros Hp Hn. unfold game_player, game_players, char_0.
  destruct (Z.ltb_spec (players_num g) p); [lia |].
  destruct (Z.eqb_spec p 0); [lia |]. simpl.
  destruct (Z.leb_spec p 9); [| lia].
  rewrite wrap32_small by lia. unfold wrap8. apply Z.mod_small. lia.
Qed.

Lemma game_player_letter g p :
  10 <= p <= 35 -> p <= players_num g -> game_player g p = p + 87.
Proof.
  intros Hp Hn. unfold game_player, game_players, char_a.
  destruct (Z.ltb_spec (players_num g) p); [lia |].
  destruct (Z.eqb_spec p 0); [lia |]. simpl.
  destruct (Z.leb_spec p 9); [lia |].
  rewrite !wrap32_small by (rewrite ?wrap32_small; lia).
  unfold wrap8. rewrite Z.mod_small by lia. lia.
Qed.

Lemma game_player_invalid g p :
  p = 0 \/ players_num g < p -> game_player g p = 46.
Proof.
  intros H. unfold game_player, game_players, char_dot.
  destruct (Z.ltb_spec (players_num g) p); [reflexivity |].
  destruct (Z.eqb_spec p 0); [reflexivity | lia].
Qed.

Lemma game_player_cases g p :
  players_num g <= MAX_PLAYERS -> 0 <= p <= players_num g ->
  (p = 0 /\ game_player g p = 46) \/
  (1 <= p <= 9 /\ game_player g p = p + 48) \/
  (10 <= p <= 35 /\ game_player g p = p + 87).
Proof.
  unfold MAX_PLAYERS. intros Hn Hp. destruct (Z.eq_dec p 0) as [-> | Hp0].
  - left. split; [reflexivity |]. apply game_player_invalid. auto.
  - right. destruct (Z_le_gt_dec p 9).
    + left. split; [lia |]. apply game_player_digit; lia.
    + right. split; [lia |]. apply game_player_letter; lia.
Qed.

Lemma game_player_inj g p q :
  players_num g <= MAX_PLAYERS ->
  0 <= p <= players_num g -> 0 <= q <= players_num g ->
  game_player g p = game_player g q -> p = q.
Proof.
  intros Hn Hp Hq E.
  destruct (game_player_cases g p Hn Hp) as [[? Ep] | [[? Ep] | [? Ep]]],
    (game_player_cases g q Hn Hq) as [[? Eq] | [[? Eq] | [? Eq]]]; lia.
Qed.

(** X1: with at most 35 players, [game_player] gives the dot to player
    number 0 and to every number above [players_num], a digit from '1' to
    '9' to the players 1 to 9 and a letter from 'a' to 'z' to the players
    10 to 35; two numbers from 0 to [players_num] with the same symbol are
    the same number. *)
Theorem X1_game_player g :
  0 <= players_num g <= MAX_PLAYERS ->
  (forall p, p = 0 \/ players_num g < p -> game_player g p = 46) /\
  (forall p, 1 <= p <= 9 -> p <= players_num g ->
     game_player g p = 48 + p) /\
  (forall p, 10 <= p <= players_num g -> game_player g p = 97 + (p - 10)) /\
  (forall p q, 0 <= p <= players_num g -> 0 <= q <= players_num g ->
     game_player g p = game_player g q -> p = q).
Proof.
  intros Hn. pose proof Hn as Hn'. unfold MAX_PLAYERS in Hn'.
  split; [apply game_player_invalid |].
  split; [intros p Hp Hpn; rewrite game_player_digit by lia; lia |].
  split; [intros p Hp; rewrite game_player_letter by lia; lia |].
  intros p q. apply game_player_inj. lia.
Qed.

(** X1 for the game of the test driver. *)
Lemma X1_game_player_witness :
  (forall p, p = 0 \/ players_num board10 < p -> game_player board10 p = 46) /\
  (forall p, 1 <= p <= 9 -> p <= players_num board10 ->
     game_player board10 p = 48 + p) /\
  (forall p, 10 <= p <= players_num board10 ->
     game_player board10 p = 97 + (p - 10)) /\
  (forall p q, 0 <= p <= players_num board10 ->
     0 <= q <= players_num board10 ->
     game_player board10 p = game_player board10 q -> p = q).
Proof. apply (X1_game_player board10). simpl. unfold MAX_PLAYERS. lia. Defined.

(** ** The picture of the board *)

Lemma board_row_app g i js : forall buf,
  board_row g i js buf
  = buf ++ map (fun j => game_player g (player (field (board g) j i))) js.
Proof.
  induction js as [| j js IH]; intros buf; simpl.
  - rewrite app_nil_r. reflexivity.
  - rewrite IH, <- app_assoc. reflexivity.
Qed.

Lemma board_rows_app g rows : forall buf,
  board_rows g rows buf = buf ++ mjoin (map (picture_row g) rows).
Proof.
  induction rows as [| i rows IH]; intros buf; simpl.
  - rewrite app_nil_r. reflexivity.
  - rewrite IH, board_row_app. unfold picture_row at 2.
    rewrite <- !app_assoc. reflexivity.
Qed.

Lemma game_board_rows g :
  game_board g = mjoin (map (picture_row g) (reverse (seqZ 0 (height g)))).
Proof. unfold game_board. rewrite board_rows_app. reflexivity. Qed.

Lemma length_picture_row g i :
  length (picture_row g i) = S (Z.to_nat (width g)).
Proof.
  unfold picture_row. rewrite length_app, length_map, length_seqZ. simpl.
  lia.
Qed.

Lemma picture_rows_uniform g rows :
  Forall (fun l => length l = S (Z.to_nat (width g)))
         (map (picture_row g) rows).
Proof.
  apply Forall_forall. intros l Hl. apply list_elem_of_In, in_map_iff in Hl.
  destruct Hl as (i & <- & _). apply length_picture_row.
Qed.

Lemma game_board_length g :
  0 <= width g -> 0 <= height g ->
  length (game_board g) = Z.to_nat ((width g + 1) * height g).
Proof.
  intros Hw Hh. rewrite game_board_rows, length_join.
  rewrite (sum_list_fmap_same (S (Z.to_nat (width g))))
    by apply picture_rows_uniform.
  rewrite length_map, length_reverse, length_seqZ. nia.
Qed.

(** The row of the picture that shows the row [y] of the board. *)
Lemma game_board_row g y :
  0 <= y < height g ->
  map (picture_row g) (reverse (seqZ 0 (height g)))
    !! Z.to_nat (height g - 1 - y)
  = Some (picture_row g y).
Proof.
  intros Hy. rewrite list_lookup_fmap.
  rewrite reverse_lookup by (rewrite length_seqZ; lia).
  rewrite length_seqZ.
  replace (Z.to_nat (height g) - S (Z.to_nat (height g - 1 - y)))%nat
    with (Z.to_nat y) by lia.
  rewrite lookup_seqZ_lt by lia. simpl. f_equal. f_equal. lia.
Qed.

Lemma game_board_index g y c :
  0 <= width g -> 0 <= y < height g -> 0 <= c <= width g ->
  game_board g !! Z.to_nat ((height g - 1 - y) * (width g + 1) + c)
  = picture_row g y !! Z.to_nat c.
Proof.
  intros Hw Hy Hc. rewrite game_board_rows.
  replace (Z.to_nat ((height g - 1 - y) * (width g + 1) + c))
    with (Z.to_nat (height g - 1 - y) * S (Z.to_nat (width g))
          + Z.to_nat c)%nat by nia.
  assert (is_Some (picture_row g y !! Z.to_nat c)) as [s Hs]
    by (apply lookup_lt_is_Some; rewrite length_picture_row; lia).
  rewrite Hs.
  apply (join_lookup_Some_same_length' (S (Z.to_nat (width g))));
    [apply picture_rows_uniform | lia |].
  exists (picture_row g y). split; [apply game_board_row; exact Hy | exact Hs].
Qed.

Lemma game_board_symbol g x y :
  0 <= x < width g -> 0 <= y < height g ->
  game_board g !! Z.to_nat ((height g - 1 - y) * (width g + 1) + x)
  = Some (game_player g (player (field (board g) x y))).
Proof.
  intros Hx Hy. rewrite game_board_index by lia.
  unfold picture_row. rewrite lookup_app_l by (rewrite length_map, length_seqZ; lia).
  rewrite list_lookup_fmap, lookup_seqZ_lt by lia. simpl.
  replace (0 + Z.of_nat (Z.to_nat x)) with x by lia. reflexivity.
Qed.

Lemma game_board_newline g y :
  0 <= width g -> 0 <= y < height g ->
  game_board g !! Z.to_nat ((height g - 1 - y) * (width g + 1) + width g)
  = Some 10.
Proof.
  intros Hw Hy. rewrite game_board_index by lia.
  unfold picture_row.
  rewrite lookup_app_r by (rewrite length_map, length_seqZ; lia).
  rewrite length_map, length_seqZ, Nat.sub_diag. reflexivity.
Qed.

(** X2: the picture of [game_board] has [(width + 1) * height] characters
    (the closing 0 comes right after them); the field [(x, y)] of the board
    shows at index [(height - 1 - y) * (width + 1) + x], as the symbol
    [game_player] gives to its owner, so the top row of the picture is the
    row [height - 1]; and every row ends with a newline. *)
Theorem X2_game_board_layout g :
  0 <= width g -> 0 <= height g ->
  length (game_board g) = Z.to_nat ((width g + 1) * height g) /\
  (forall x y, 0 <= x < width g -> 0 <= y < height g ->
     game_board g !! Z.to_nat ((height g - 1 - y) * (width g + 1) + x)
     = Some (game_player g (player (field (board g) x y)))) /\
  (forall y, 0 <= y < height g ->
     game_board g !! Z.to_nat ((height g - 1 - y) * (width g + 1) + width g)
     = Some char_newline).
Proof.
  intros Hw Hh. split; [apply game_board_length; assumption |].
  split; [intros x y; apply game_board_symbol |].
  intros y. apply game_board_newline. exact Hw.
Qed.

(** X2 for the board of 3 x 3 fields with the corner of player 1 and the
    field of player 2 next to it. *)
Lemma X2_game_board_layout_witness :
  length (game_board board3_pair)
  = Z.to_nat ((width board3_pair + 1) * height board3_pair) /\
  (forall x y, 0 <= x < width board3_pair -> 0 <= y < height board3_pair ->
     game_board board3_pair
       !! Z.to_nat ((height board3_pair - 1 - y) * (width board3_pair + 1)
                    + x)
     = Some (game_player board3_pair
               (player (field (board board3_pair) x y)))) /\
  (forall y, 0 <= y < height board3_pair ->
     game_board board3_pair
       !! Z.to_nat ((height board3_pair - 1 - y) * (width board3_pair + 1)
                    + width board3_pair)
     = Some char_newline).
Proof. apply (X2_game_board_layout board3_pair); simpl; lia. Defined.

(** X3: two well formed games of the same size and number of players
    with the same picture have the same owner on every field of the
    board: the picture loses nothing of the ownership. *)
Theorem X3_game_board_owners g1 g2 :
  wf_game g1 -> wf_game g2 ->
  width g2 = width g1 -> height g2 = height g1 ->
  players_num g2 = players_num g1 ->
  game_board g1 = game_board g2 ->
  forall x y, 0 <= x < width g1 -> 0 <= y < height g1 ->
    player (field (board g1) x y) = player (field (board g2) x y).
Proof.
  intros Hwf1 Hwf2 Ew Eh En E x y Hx Hy.
  pose proof (game_board_symbol g1 x y Hx Hy) as S1.
  pose proof (game_board_symbol g2 x y) as S2.
  rewrite Ew, Eh, <- E, S1 in S2. specialize (S2 Hx Hy).
  injection S2 as S2.
  pose proof (owners_ok_field _ _ x y (wf_owners g1 Hwf1)) as O1.
  pose proof (owners_ok_field _ _ x y (wf_owners g2 Hwf2)) as O2.
  pose proof (wf_players_num g1 Hwf1) as N1.
  assert (game_player g2 (player (field (board g2) x y))
          = game_player g1 (player (field (board g2) x y))) as Eg
    by (unfold game_player, game_players; rewrite En; reflexivity).
  rewrite Eg in S2.
  apply (game_player_inj g1); [lia | lia | lia | exact S2].
Qed.

(** X3 for two games with the same column of player 1, taken in different
    orders: the tags and the counters differ, the picture does not. *)
Lemma X3_game_board_owners_witness :
  player (field (board board3_joined) 0 2)
  = player (field (board board3_column) 0 2).
Proof.
  apply (X3_game_board_owners board3_joined board3_column).
  - apply reachable_wf.
    apply (play_reachable
             [mk_move 1 0 0; mk_move 1 0 2; mk_move 1 0 1] board3);
      [exact board3_reachable | apply moves_ok_small; reflexivity |].
    vm_compute. reflexivity.
  - apply reachable_wf.
    apply (play_reachable
             [mk_move 1 0 0; mk_move 1 0 1; mk_move 1 0 2] board3);
      [exact board3_reachable | apply moves_ok_small; reflexivity |].
    vm_compute. reflexivity.
  - reflexivity.
  - reflexivity.
  - reflexivity.
  - vm_compute. reflexivity.
  - simpl. lia.
  - simpl. lia.
Defined.

(** ** What a call and a run of calls keep *)

Lemma game_move_keeps g p x y r g' :
  wf_game g -> 0 <= p -> 0 <= x -> 0 <= y ->
  game_move g p x y = Ok (r, g') ->
  width g' = width g /\ height g' = height g /\ areas g' = areas g /\
  players_num g' = players_num g /\
  (forall i j, player (cell (board g) i j) <> 0 ->
     player (cell (board g') i j) = player (cell (board g) i j)).
Proof.
  intros Hwf Hp Hx Hy H. destruct r.
  - destruct (accepted_stages _ _ _ _ _ Hwf Hp Hx Hy H)
      as (_ & _ & _ & Hf & g1 & _ & S & H2).
    destruct S as (W1 & H1 & A1 & N1 & _ & _ & B1).
    apply update_game_info_effect in H2 as (Hb & _ & W2 & H2' & A2 & N2 & _).
    repeat (split; [congruence |]).
    intros i j Hown. rewrite Hb. eapply board_step_owner; [exact B1 |].
    intros [= -> ->]. rewrite <- field_cell in Hown. contradiction.
  - apply game_move_rejected in H. subst g'. repeat split; reflexivity.
Qed.

Lemma play_keeps ms : forall g g',
  wf_game g -> moves_ok ms -> play g ms = Ok g' ->
  wf_game g' /\
  width g' = width g /\ height g' = height g /\ areas g' = areas g /\
  players_num g' = players_num g /\
  (forall i j, player (cell (board g) i j) <> 0 ->
     player (cell (board g') i j) = player (cell (board g) i j)).
Proof.
  induction ms as [| m ms IH]; intros g g' Hwf Hms H; simpl in H.
  - injection H as <-. split; [exact Hwf |]. repeat split; reflexivity.
  - apply res_bind_Ok in H as ([r g1] & E & H). simpl in H.
    inversion Hms as [| ? ? (Hp & Hx & Hy) Hms']; subst.
    unfold uint32 in *.
    assert (wf_game g1) as Hwf1
      by (eapply game_move_wf; [exact Hwf | | | | exact E]; lia).
    destruct (game_move_keeps _ _ _ _ _ _ Hwf (proj1 Hp) (proj1 Hx)
                (proj1 Hy) E) as (W1 & H1 & A1 & N1 & O1).
    destruct (IH g1 g' Hwf1 Hms' H) as (Hwf' & W2 & H2 & A2 & N2 & O2).
    split; [exact Hwf' |]. repeat (split; [congruence |]).
    intros i j Hown. rewrite O2; rewrite O1; auto.
Qed.

(** X4: [game_new] answers [NULL] when one of its arguments is 0 or there
    are more than 35 players; a game it returns is well formed, and however
    many calls of [game_move] follow, [game_board_width],
    [game_board_height] and [game_players] answer the arguments of
    [game_new], the limit of areas stays, and the game stays well formed. *)
Theorem X4_sizes_stay w h ps a :
  uint32 w -> uint32 h -> uint32 ps -> uint32 a ->
  (w = 0 \/ h = 0 \/ ps = 0 \/ a = 0 \/ MAX_PLAYERS < ps ->
   game_new w h ps a = None) /\
  (forall g ms g',
     game_new w h ps a = Some g -> moves_ok ms -> play g ms = Ok g' ->
     wf_game g' /\ game_board_width g' = w /\ game_board_height g' = h /\
     game_players g' = ps /\ areas g' = a).
Proof.
  intros Hw Hh Hps Ha. split.
  - unfold game_new.
    destruct (Z.eqb_spec w 0), (Z.eqb_spec h 0), (Z.eqb_spec ps 0),
      (Z.eqb_spec a 0), (Z.ltb_spec MAX_PLAYERS ps); simpl;
      intros Hbad; try reflexivity; lia.
  - intros g ms g' Hnew Hms Hplay.
    pose proof (game_new_wf _ _ _ _ _ Hw Hh Hps Hnew) as Hwf.
    destruct (play_keeps ms g g' Hwf Hms Hplay)
      as (Hwf' & W & H & A & N & _).
    apply game_new_Some in Hnew as (_ & _ & _ & _ & _ & ->).
    unfold game_board_width, game_board_height, game_players.
    simpl in *. auto.
Qed.

(** X4 for the board of 3 x 3 fields and the two moves to its corners. *)
Lemma X4_sizes_stay_witness :
  (3 = 0 \/ 3 = 0 \/ 2 = 0 \/ 2 = 0 \/ MAX_PLAYERS < 2 ->
   game_new 3 3 2 2 = None) /\
  (forall g ms g',
     game_new 3 3 2 2 = Some g -> moves_ok ms -> play g ms = Ok g' ->
     wf_game g' /\ game_board_width g' = 3 /\ game_board_height g' = 3 /\
     game_players g' = 2 /\ areas g' = 2).
Proof. apply (X4_sizes_stay 3 3 2 2); unfold uint32; lia. Defined.

(** X5: no call of [game_move] takes a field away: a field that has an
    owner keeps that owner through every run of calls that return. *)
Theorem X5_owned_fields_stay g ms g' :
  wf_game g -> moves_ok ms -> play g ms = Ok g' ->
  forall x y, player (field (board g) x y) <> 0 ->
    player (field (board g') x y) = player (field (board g) x y).
Proof.
  intros Hwf Hms H x y Hown.
  destruct (play_keeps ms g g' Hwf Hms H) as (_ & _ & _ & _ & _ & O).
  rewrite !field_cell in *. apply O. exact Hown.
Qed.

(** X5 for the corner of player 1 and the move of player 2 next to it. *)
Lemma X5_owned_fields_stay_witness :
  player (field (board board3_pair) 0 0)
  = player (field (board board3_corner) 0 0).
Proof.
  apply (X5_owned_fields_stay board3_corner [mk_move 2 1 0] board3_pair).
  - exact board3_corner_wf.
  - apply moves_ok_small. reflexivity.
  - vm_compute. reflexivity.
  - simpl. lia.
Defined.

(** ** The answers of [game_move] and of the queries *)

(** X6: on a well formed game, for every player number from 1 on and every
    pair of coordinates, [game_move] answers [false] and leaves the game as
    it is when the number is above [players_num], or the field is outside
    the board, or the field has an owner, or no field around belongs to the
    player while its [busy_areas] equals [areas]; in every other case it
    returns and answers [true]. *)
Theorem X6_game_move_decides g p x y :
  wf_game g -> 1 <= p -> uint32 x -> uint32 y ->
  ((players_num g < p \/
    valid_coordinate (width g) (height g) x y = false \/
    player (field (board g) x y) <> 0 \/
    (isSurrounded (board g) (width g) (height g) p x y = 0 /\
     exists r, player_rec g p = Some r /\ busy_areas r = areas g)) ->
   game_move g p x y = Ok (false, g)) /\
  (~ (players_num g < p \/
      valid_coordinate (width g) (height g) x y = false \/
      player (field (board g) x y) <> 0 \/
      (isSurrounded (board g) (width g) (height g) p x y = 0 /\
       exists r, player_rec g p = Some r /\ busy_areas r = areas g)) ->
   exists g', game_move g p x y = Ok (true, g')).
Proof.
  intros Hwf Hp Hx Hy. unfold uint32 in *.
  pose proof (wf_players_num g Hwf) as Hn. unfold MAX_PLAYERS in Hn.
  split.
  - intros [H | [H | [H | (Ha & r & Hr & Hb)]]]; apply game_move_rejects;
      auto.
    destruct (Z_lt_le_dec (players_num g) p) as [Hlt | Hle]; [auto |].
    right. right. right. split; [exact Ha |]. exists r.
    split; [apply player_rec_get; [lia | exact Hr] | exact Hb].
  - intros Hno.
    destruct (Z_lt_le_dec (players_num g) p) as [Hlt | Hle];
      [exfalso; auto |].
    destruct (valid_coordinate (width g) (height g) x y) eqn:Hv;
      [| exfalso; auto].
    destruct (Z.eq_dec (player (field (board g) x y)) 0) as [Hf | Hf];
      [| exfalso; auto].
    destruct (player_rec_valid g p Hwf (conj Hp Hle)) as (r & Hr & Hg).
    apply game_move_accepts; [exact Hwf | lia | lia | lia | | |];
      [exact Hv | exact Hf |].
    destruct (Z.eq_dec (isSurrounded (board g) (width g) (height g) p x y) 0)
      as [Ha | Ha]; [| left; exact Ha].
    right. exists r. split; [exact Hg |]. intros Hb.
    apply Hno. right. right. right. split; [exact Ha |]. eauto.
Qed.

(** X6 for player 1 of [board3_quota] and the field [(1, 0)]. *)
Lemma X6_game_move_decides_witness :
  ((players_num board3_quota < 1 \/
    valid_coordinate (width board3_quota) (height board3_quota) 1 0 = false \/
    player (field (board board3_quota) 1 0) <> 0 \/
    (isSurrounded (board board3_quota) (width board3_quota)
       (height board3_quota) 1 1 0 = 0 /\
     exists r, player_rec board3_quota 1 = Some r /\
               busy_areas r = areas board3_quota)) ->
   game_move board3_quota 1 1 0 = Ok (false, board3_quota)) /\
  (~ (players_num board3_quota < 1 \/
      valid_coordinate (width board3_quota) (height board3_quota) 1 0
      = false \/
      player (field (board board3_quota) 1 0) <> 0 \/
      (isSurrounded (board board3_quota) (width board3_quota)
         (height board3_quota) 1 1 0 = 0 /\
       exists r, player_rec board3_quota 1 = Some r /\
                 busy_areas r = areas board3_quota)) ->
   exists g', game_move board3_quota 1 1 0 = Ok (true, g')).
Proof.
  apply (X6_game_move_decides board3_quota 1 1 0).
  - apply reachable_wf. exact board3_quota_reachable.
  - lia.
  - unfold uint32. lia.
  - unfold uint32. lia.
Defined.

(** X7: whatever the game and the arguments, a call of [game_move] that
    answers [false] has changed nothing, the scratch array of the
    neighbours included. *)
Theorem X7_refusal_changes_nothing g p x y g' :
  game_move g p x y = Ok (false, g') -> g' = g.
Proof. apply game_move_rejected. Qed.

(** X7 for the move of player 1 to the centre of [board3_quota], refused
    for the quota. *)
Lemma X7_refusal_changes_nothing_witness : board3_quota = board3_quota.
Proof.
  apply (X7_refusal_changes_nothing board3_quota 1 1 1 board3_quota).
  vm_compute. reflexivity.
Defined.

(** X8: on a well formed game, [game_move] with player number 0 on an
    empty field of the board does not return: whichever branch it takes, it
    reaches an access to [g->players[0 - 1]], outside the array. *)
Theorem X8_game_move_player_zero g x y :
  wf_game g ->
  valid_coordinate (width g) (height g) x y = true ->
  player (field (board g) x y) = 0 ->
  game_move g 0 x y = Fault.
Proof. apply game_move_player_zero. Qed.

(** X8 for the corner [(2, 2)] of [board3_corner], which has empty fields
    of "player 0" around. *)
Lemma X8_game_move_player_zero_witness : game_move board3_corner 0 2 2 = Fault.
Proof.
  apply (X8_game_move_player_zero board3_corner 2 2).
  - exact board3_corner_wf.
  - reflexivity.
  - reflexivity.
Defined.

(** X9: on a well formed game, [game_busy_fields] and [game_free_fields]
    answer 0 for a player number above [players_num], read outside
    [g->players] for the player number 0, and for a player in range
    [game_busy_fields] answers its [completed_moves]. *)
Theorem X9_queries_by_player g :
  wf_game g ->
  (forall p, players_num g < p ->
     game_busy_fields g p = Ok 0 /\ game_free_fields g p = Ok 0) /\
  game_busy_fields g 0 = Fault /\ game_free_fields g 0 = Fault /\
  (forall p, 1 <= p <= players_num g ->
     exists r, player_rec g p = Some r /\
               game_busy_fields g p = Ok (completed_moves r)).
Proof.
  intros Hwf. pose proof (wf_players_num g Hwf) as Hn.
  assert (length (players g) <= 35)%nat as Hlen
    by (rewrite (wf_players g Hwf); unfold MAX_PLAYERS in Hn; lia).
  unfold game_busy_fields, game_free_fields.
  split; [| split; [| split]].
  - intros p Hp. destruct (Z.ltb_spec (players_num g) p); [auto | lia].
  - destruct (Z.ltb_spec (players_num g) 0); [lia |].
    rewrite get_player_zero by exact Hlen. reflexivity.
  - destruct (Z.ltb_spec (players_num g) 0); [lia |].
    rewrite get_player_zero by exact Hlen. reflexivity.
  - intros p Hp. destruct (player_rec_valid g p Hwf Hp) as (r & Hr & Hg).
    exists r. split; [exact Hr |].
    destruct (Z.ltb_spec (players_num g) p); [lia |].
    rewrite Hg. reflexivity.
Qed.

(** X9 for [board3_quota]. *)
Lemma X9_queries_by_player_witness :
  (forall p, players_num board3_quota < p ->
     game_busy_fields board3_quota p = Ok 0 /\
     game_free_fields board3_quota p = Ok 0) /\
  game_busy_fields board3_quota 0 = Fault /\
  game_free_fields board3_quota 0 = Fault /\
  (forall p, 1 <= p <= players_num board3_quota ->
     exists r, player_rec board3_quota p = Some r /\
               game_busy_fields board3_quota p = Ok (completed_moves r)).
Proof.
  apply (X9_queries_by_player board3_quota).
  apply reachable_wf. exact board3_quota_reachable.
Defined.

(** ** The counters of placed pawns *)

Lemma upd_player_completed f g p g' :
  (forall r, completed_moves (f r) = completed_moves r) ->
  upd_player f g p = Ok g' ->
  map completed_moves (players g') = map completed_moves (players g).
Proof.
  intros Hf H. apply upd_player_Ok in H as (r & Hr & ->). simpl.
  apply list_eq. intros i. rewrite !list_lookup_fmap.
  destruct (decide (i = pidx p)) as [-> | Hne].
  - rewrite list_lookup_insert_eq by (eapply lookup_lt_Some; exact Hr).
    rewrite Hr. simpl. rewrite Hf. reflexivity.
  - rewrite list_lookup_insert_ne by congruence. reflexivity.
Qed.

Lemma adjust_area_completed g p x y idxs g' :
  adjust_area g p x y idxs = Ok g' ->
  map completed_moves (players g') = map completed_moves (players g).
Proof.
  induction idxs as [| i idxs IH]; simpl; intros H.
  - injection H as <-. reflexivity.
  - destruct (negb (_ =? 0)); [| exact (IH H)].
    apply upd_player_completed in H; [exact H | reflexivity].
Qed.

Lemma claim_field_completed g p x y g' :
  claim_field g p x y = Ok g' ->
  map completed_moves (players g') = map completed_moves (players g).
Proof.
  unfold claim_field. destruct (_ =? 0).
  - unfold new_area. intros H.
    apply res_bind_Ok in H as (g1 & H1 & H).
    apply res_bind_Ok in H as (r & _ & [= <-]).
    apply upd_player_completed in H1; [exact H1 | reflexivity].
  - unfold join_area. destruct (_ =? 1).
    + unfold extend_area. intros H.
      apply res_bind_Ok in H as (g1 & H1 & H).
      apply adjust_area_completed in H. rewrite H.
      destruct (1 <? _); [| injection H1 as <-; reflexivity].
      apply upd_player_completed in H1; [exact H1 | reflexivity].
    + unfold union_areas. intros H.
      apply res_bind_Ok in H as (g1 & H1 & H).
      apply res_bind_Ok in H as (g2 & H2 & H).
      apply res_bind_Ok in H as (g3 & H3 & H).
      apply res_bind_Ok in H as (g4 & H4 & H).
      apply res_bind_Ok in H as (g5 & H5 & H6).
      apply BFS_players in H3 as [E3 _], H4 as [E4 _], H5 as [E5 _],
        H6 as [E6 _].
      apply upd_player_completed in H1; [| reflexivity].
      apply upd_player_completed in H2; [| reflexivity].
      rewrite E6, E5, E4, E3, H2, H1. reflexivity.
Qed.

(** X10: an accepted move adds one, on 64 bits, to what [game_busy_fields]
    answers for the mover and leaves the answer for every other player as
    it was. *)
Theorem X10_busy_fields_step g p x y g' :
  wf_game g -> uint32 p -> uint32 x -> uint32 y ->
  game_move g p x y = Ok (true, g') ->
  forall q, 1 <= q <= players_num g ->
    exists n, game_busy_fields g q = Ok n /\
              game_busy_fields g' q
              = Ok (if q =? p then wrap64 (n + 1) else n).
Proof.
  intros Hwf Hp Hx Hy H q Hq. unfold uint32 in *.
  destruct (accepted_stages g p x y g' Hwf)
    as (Hv & Hxw & Hyh & _ & g1 & E1 & S & E2);
    [lia | lia | lia | exact H |].
  assert (info_ctx g1) as C1
    by (apply (info_ctx_stage p x y g g1 Hwf); [lia | exact S]).
  pose proof S as (W1 & H1 & A1 & N1 & L1 & P1 & B1).
  pose proof (wf_width g Hwf) as Hw. pose proof (wf_height g Hwf) as Hh.
  pose proof (wf_players_num g Hwf) as Hn. unfold MAX_PLAYERS in Hn.
  destruct (info_records g1 p x y g' C1) as [Rp Rq];
    [lia | lia | lia | lia | lia | exact E2 |].
  apply update_game_info_effect in E2 as (_ & _ & _ & _ & _ & N2 & _).
  pose proof (claim_field_completed _ _ _ _ _ E1) as Hc.
  destruct (player_rec_valid g q Hwf Hq) as (r & Hr & Hg).
  assert (exists r1, player_rec g1 q = Some r1 /\
                     completed_moves r1 = completed_moves r)
    as (r1 & Hr1 & Ec).
  { unfold player_rec in *.
    pose proof (f_equal (fun l => l !! Z.to_nat (q - 1)) Hc) as Hl.
    simpl in Hl. rewrite !list_lookup_fmap, Hr in Hl.
    destruct (players g1 !! Z.to_nat (q - 1)) as [r1 |]; [| discriminate].
    exists r1. split; [reflexivity |]. simpl in Hl. congruence. }
  exists (completed_moves r).
  unfold game_busy_fields at 1.
  destruct (Z.ltb_spec (players_num g) q); [lia |].
  rewrite Hg. split; [reflexivity |].
  unfold game_busy_fields. rewrite N2, N1.
  destruct (Z.ltb_spec (players_num g) q); [lia |].
  destruct (Z.eqb_spec q p) as [-> | Hqp].
  - rewrite (player_rec_get g' p _ ltac:(lia) (Rp r1 Hr1)). simpl.
    rewrite Ec. reflexivity.
  - rewrite (player_rec_get g' q _ ltac:(lia) (Rq q r1 ltac:(lia) Hqp Hr1)).
    simpl.
    destruct (dec_boundary_counters
                (isSurrounded (board g1) (width g1) (height g1) q x y) r1)
      as [_ Ecm].
    rewrite Ecm, Ec. reflexivity.
Qed.

(** X10 for the move of player 2 next to the corner of player 1. *)
Lemma X10_busy_fields_step_witness :
  exists n, game_busy_fields board3_corner 2 = Ok n /\
            game_busy_fields board3_pair 2
            = Ok (if 2 =? 2 then wrap64 (n + 1) else n).
Proof.
  apply (X10_busy_fields_step board3_corner 2 1 0 board3_pair).
  - exact board3_corner_wf.
  - unfold uint32. lia.
  - unfold uint32. lia.
  - unfold uint32. lia.
  - vm_compute. reflexivity.
  - simpl. lia.
Defined.

(** ** The field of an accepted move and the count of empty fields *)

Lemma count_column_ext (P : pair_t -> bool) (col : list pair_t) :
  forall col', length col' = length col ->
  (forall j, P (default zero_pair (col' !! j))
             = P (default zero_pair (col !! j))) ->
  sum_list_with (fun c => if P c then 1%nat else 0%nat) col'
  = sum_list_with (fun c => if P c then 1%nat else 0%nat) col.
Proof.
  induction col as [| c col IH]; intros [| c' col'] Hlen Hp;
    simpl in *; try discriminate; [reflexivity |].
  rewrite (IH col'); [| lia | intros j; exact (Hp (S j))].
  pose proof (Hp 0%nat) as H0. simpl in H0. rewrite H0. reflexivity.
Qed.

Lemma count_fields_ext (P : pair_t -> bool) (b : list (list pair_t)) :
  forall b', shape b' = shape b ->
  (forall i j, P (cell b' i j) = P (cell b i j)) ->
  count_fields P b' = count_fields P b.
Proof.
  unfold count_fields, shape.
  induction b as [| col b IH]; intros [| col' b'] Hs Hp;
    simpl in *; try discriminate; [reflexivity |].
  injection Hs as Hl Hs.
  rewrite (IH b' Hs); [| intros i j; exact (Hp (S i) j)].
  rewrite (count_column_ext P col col' Hl); [reflexivity |].
  intros j. exact (Hp 0%nat j).
Qed.

Lemma count_empty_step p x y b b' w h :
  board_ok w h b -> 0 <= x < w -> 0 <= y < h -> p <> 0 ->
  board_step p (Z.to_nat x) (Z.to_nat y) b b' ->
  player (field b x y) = 0 ->
  (count_fields is_empty b' + 1
   = count_fields is_empty b
     + (if is_empty (field b' x y) then 1 else 0))%nat.
Proof.
  intros Hok Hx Hy Hp B Hf.
  pose proof (count_fields_set_field is_empty (fun _ => field b' x y) b
                w h x y Hok Hx Hy) as Hc.
  assert (is_empty (field b x y) = true) as He
    by (unfold is_empty; rewrite Hf; reflexivity).
  rewrite He in Hc.
  rewrite (count_fields_ext is_empty
             (set_field (fun _ => field b' x y) b x y) b'); [exact Hc | |].
  - rewrite shape_set_field. exact (proj1 B).
  - intros i j.
    destruct (decide ((i, j) = (Z.to_nat x, Z.to_nat y))) as [E | Hne].
    + injection E as -> ->. rewrite <- !field_cell.
      rewrite (cell_set_field_eq _ _ _ _ _ _ Hok Hx Hy). reflexivity.
    + rewrite cell_set_field_ne by exact Hne. unfold is_empty.
      rewrite (board_step_owner _ _ _ _ _ _ _ B Hne). reflexivity.
Qed.

Lemma new_area_claims g p x y g1 :
  move_ctx g p x y -> new_area g p x y = Ok g1 ->
  player (field (board g1) x y) = p.
Proof.
  intros C H. unfold new_area in H.
  apply res_bind_Ok in H as (g2 & H2 & H).
  apply res_bind_Ok in H as (r & _ & [= <-]).
  pose proof (written_player g p x y C) as Hp.
  pose proof (stage_upd_player _ p x y _ _ H2) as S2.
  pose proof (stage_keeps_owner _ _ _ _ _ x y S2 Hp) as Hp2.
  exact (stage_keeps_owner _ _ _ _ _ x y
           (stage_write_parent p x y g2 x y (busy_areas r) Hp2) Hp2).
Qed.

Lemma adjust_area_result g p x y idxs g1 :
  move_ctx g p x y -> adjust_area g p x y idxs = Ok g1 ->
  player (field (board g1) x y) = p \/
  (g1 = g /\ Forall (fun i => nbr (neighbours g) i = 0) idxs).
Proof.
  intros C. induction idxs as [| i idxs IH]; simpl; intros H.
  - injection H as <-. right. split; [reflexivity | constructor].
  - destruct (Z.eqb_spec (nbr (neighbours g) i) 0) as [E | E]; simpl in H.
    + destruct (IH H) as [Hp | [-> Hall]]; [left; exact Hp |].
      right. split; [reflexivity | constructor; assumption].
    + left. pose proof (written_player g p x y C) as Hp.
      set (g0 := write_player g x y p) in *.
      pose proof (stage_write_parent p x y g0 x y
                    (nbr (neighbours g0) i) Hp) as S1.
      pose proof (stage_keeps_owner _ _ _ _ _ x y S1 Hp) as Hp1.
      exact (stage_keeps_owner _ _ _ _ _ x y
               (stage_upd_player _ p x y _ _ H) Hp1).
Qed.

Lemma union_areas_claims g p x y around g1 :
  move_ctx g p x y -> union_areas g p x y around = Ok g1 ->
  player (field (board g1) x y) = p.
Proof.
  intros C H. unfold union_areas in H.
  apply res_bind_Ok in H as (g3 & H3 & H).
  apply res_bind_Ok in H as (g4 & H4 & H).
  apply res_bind_Ok in H as (g5 & H5 & H).
  apply res_bind_Ok in H as (g6 & H6 & H).
  apply res_bind_Ok in H as (g7 & H7 & H8).
  pose proof (written_player g p x y C) as Hp.
  set (g0 := write_player g x y p) in *.
  pose proof (stage_keeps_owner _ _ _ _ _ x y
                (stage_write_parent p x y g0 x y (set_id (neighbours g0)) Hp)
                Hp) as Hp2.
  pose proof (stage_keeps_owner _ _ _ _ _ x y
                (stage_upd_player _ p x y _ _ H3) Hp2) as Hp3.
  pose proof (stage_keeps_owner _ _ _ _ _ x y
                (stage_upd_player _ p x y _ _ H4) Hp3) as Hp4.
  pose proof (stage_keeps_owner _ _ _ _ _ x y
                (BFS_effect _ _ _ _ _ _ _ x y H5) Hp4) as Hp5.
  pose proof (stage_keeps_owner _ _ _ _ _ x y
                (BFS_effect _ _ _ _ _ _ _ x y H6) Hp5) as Hp6.
  pose proof (stage_keeps_owner _ _ _ _ _ x y
                (BFS_effect _ _ _ _ _ _ _ x y H7) Hp6) as Hp7.
  exact (stage_keeps_owner _ _ _ _ _ x y
           (BFS_effect _ _ _ _ _ _ _ x y H8) Hp7).
Qed.

Lemma claim_field_result g p x y g1 :
  move_ctx g p x y -> claim_field g p x y = Ok g1 ->
  player (field (board g1) x y) = p \/
  (board g1 = board g /\
   isSurrounded (board g) (width g) (height g) p x y <> 0 /\
   Forall (fun i => nbr (neighbours (find_neighbours g p x y)) i = 0)
          (seq 0 4)).
Proof.
  intros C. unfold claim_field.
  destruct (Z.eqb_spec (isSurrounded (board g) (width g) (height g) p x y) 0)
    as [Ha | Ha]; intros H.
  - left. eapply new_area_claims; eassumption.
  - unfold join_area in H.
    pose proof (move_ctx_stage _ _ _ _ _
                  (stage_find_neighbours p x y g p x y) C) as C0.
    destruct (different_areas _ _ =? 1).
    + unfold extend_area in H. apply res_bind_Ok in H as (g2 & H2 & H).
      assert (move_ctx g2 p x y /\ board g2 = board g /\
              neighbours g2 = neighbours (find_neighbours g p x y))
        as (C2 & Hb2 & Hn2).
      { destruct (1 <? _).
        - pose proof (stage_upd_player _ p x y _ _ H2) as S2.
          apply upd_player_effect in H2 as (Hb & Hn & _).
          split; [eapply move_ctx_stage; eassumption |].
          split; [exact Hb | exact Hn].
        - injection H2 as <-. auto. }
      destruct (adjust_area_result _ _ _ _ _ _ C2 H) as [Hp | [-> Hall]];
        [left; exact Hp |].
      right. rewrite Hn2 in Hall. auto.
    + left. eapply union_areas_claims; eassumption.
Qed.

Lemma slots_zero_tags g p x y :
  0 <= x < width g -> 0 <= y < height g ->
  width g < 2 ^ 32 -> height g < 2 ^ 32 ->
  Forall (fun i => nbr (neighbours (find_neighbours g p x y)) i = 0)
         (seq 0 4) ->
  forall x' y', adjacent x y x' y' ->
    on_board (width g) (height g) x' y' = true ->
    player (field (board g) x' y') = p ->
    parent_id (field (board g) x' y') = 0.
Proof.
  intros Hx Hy Hw Hh Hall x' y' Hadj Hon Hp.
  cbn [seq] in Hall.
  apply Forall_cons in Hall as [H0 Hall].
  apply Forall_cons in Hall as [H1 Hall].
  apply Forall_cons in Hall as [H2 Hall].
  apply Forall_cons in Hall as [H3 _].
  unfold find_neighbours, nbr in H0, H1, H2, H3. simpl in H0, H1, H2, H3.
  rewrite !(wrap32_small (x + 1)) in H1 by lia.
  rewrite !(wrap32_small (y + 1)) in H3 by lia.
  unfold on_board in Hon.
  apply andb_true_iff in Hon as [Hon Hy'h].
  apply andb_true_iff in Hon as [Hon Hy'0].
  apply andb_true_iff in Hon as [Hx'0 Hx'w].
  apply Z.leb_le in Hx'0, Hy'0. apply Z.ltb_lt in Hx'w, Hy'h.
  destruct Hadj as [[-> [-> | ->]] | [-> [-> | ->]]].
  - rewrite Hp, Z.eqb_refl in H0.
    destruct (Z.ltb_spec 0 x); [exact H0 | lia].
  - rewrite Hp, Z.eqb_refl in H1.
    destruct (Z.ltb_spec (x + 1) (width g)); [exact H1 | lia].
  - rewrite Hp, Z.eqb_refl in H2.
    destruct (Z.ltb_spec 0 y); [exact H2 | lia].
  - rewrite Hp, Z.eqb_refl in H3.
    destruct (Z.ltb_spec (y + 1) (height g)); [exact H3 | lia].
Qed.

(** X11: after an accepted move of player [p] to [(x, y)] the field belongs
    to [p] and the game has one empty field less, or the field is still
    empty and the count of empty fields is as before; the second case only
    happens when [p] has fields next to [(x, y)] and every one of them has
    the tag 0, so that there is no tag to adopt. *)
Theorem X11_claimed_field g p x y g' :
  wf_game g -> uint32 p -> uint32 x -> uint32 y ->
  game_move g p x y = Ok (true, g') ->
  (player (field (board g') x y) = p /\
   empty_fields g' = empty_fields g - 1) \/
  (player (field (board g') x y) = 0 /\
   empty_fields g' = empty_fields g /\
   isSurrounded (board g) (width g) (height g) p x y <> 0 /\
   forall x' y', adjacent x y x' y' ->
     on_board (width g) (height g) x' y' = true ->
     player (field (board g) x' y') = p ->
     parent_id (field (board g) x' y') = 0).
Proof.
  intros Hwf Hp Hx Hy H. unfold uint32 in *.
  destruct (accepted_stages g p x y g' Hwf)
    as (Hv & Hxw & Hyh & Hf & g1 & E1 & S & E2);
    [lia | lia | lia | exact H |].
  pose proof (wf_width g Hwf) as Hw. pose proof (wf_height g Hwf) as Hh.
  assert (move_ctx g p x y) as C.
  { apply wf_move_ctx; [exact Hwf | exact Hv | lia | lia |].
    apply valid_coordinate_true. lia. }
  apply update_game_info_effect in E2 as (Hb & _).
  unfold empty_fields. rewrite Hb.
  destruct (claim_field_result g p x y g1 C E1) as [Hc | (Eb & Ha & Hall)].
  - left. split; [exact Hc |].
    pose proof S as (_ & _ & _ & _ & _ & _ & B1).
    pose proof (count_empty_step p x y (board g) (board g1) _ _
                  (wf_board g Hwf) Hxw Hyh ltac:(lia) B1 Hf) as Hcount.
    unfold is_empty at 3 in Hcount. rewrite Hc in Hcount.
    destruct (Z.eqb_spec p 0); lia.
  - right. rewrite Eb. split; [exact Hf |]. split; [reflexivity |].
    split; [exact Ha |]. apply slots_zero_tags; [lia | lia | lia | lia |].
    exact Hall.
Qed.

(** X11 for the move of player 2 next to the corner of player 1. *)
Lemma X11_claimed_field_witness :
  (player (field (board board3_pair) 1 0) = 2 /\
   empty_fields board3_pair = empty_fields board3_corner - 1) \/
  (player (field (board board3_pair) 1 0) = 0 /\
   empty_fields board3_pair = empty_fields board3_corner /\
   isSurrounded (board board3_corner) (width board3_corner)
     (height board3_corner) 2 1 0 <> 0 /\
   forall x' y', adjacent 1 0 x' y' ->
     on_board (width board3_corner) (height board3_corner) x' y' = true ->
     player (field (board board3_corner) x' y') = 2 ->
     parent_id (field (board board3_corner) x' y') = 0).
Proof.
  apply (X11_claimed_field board3_corner 2 1 0 board3_pair).
  - exact board3_corner_wf.
  - unfold uint32. lia.
  - unfold uint32. lia.
  - unfold uint32. lia.
  - vm_compute. reflexivity.
Defined.

(** ** The probes, as theorems *)

(** X12: for a field [(x, y)] of the board, [isSurrounded] is the number of
    fields of the board next to [(x, y)] whose owner is [q], a number from 0
    to 4; with [q = 0] it counts the empty fields around. *)
Theorem X12_isSurrounded_counts b w h q x y :
  0 <= x < w -> 0 <= y < h ->
  isSurrounded b w h q x y = orthogonal_match_count b w h q x y /\
  0 <= isSurrounded b w h q x y <= 4.
Proof.
  intros Hx Hy. split; [apply isSurrounded_orthogonal; assumption |].
  apply isSurrounded_range.
Qed.

(** X12 for the fields of player 1 around the centre of [board3_ring]. *)
Lemma X12_isSurrounded_counts_witness :
  isSurrounded (board board3_ring) 3 3 1 1 1
  = orthogonal_match_count (board board3_ring) 3 3 1 1 1 /\
  0 <= isSurrounded (board board3_ring) 3 3 1 1 1 <= 4.
Proof. apply (X12_isSurrounded_counts (board board3_ring) 3 3 1 1 1); lia. Defined.

(** X13: for a field [(x, y)] of the board with [x + 2] and [y + 2] below
    [2 ^ 32], [common_free_fields] is the number of fields of the board
    exactly two steps away from [(x, y)] on its row or column whose owner is
    [q]. *)
Theorem X13_common_free_fields_counts b w h q x y :
  0 <= x < w -> 0 <= y < h -> x + 2 < 2 ^ 32 -> y + 2 < 2 ^ 32 ->
  common_free_fields b w h q x y = two_step_match_count b w h q x y.
Proof. apply common_free_fields_two_step. Qed.

(** X13 for the column of player 1 in [board3_column], seen from its
    bottom. *)
Lemma X13_common_free_fields_counts_witness :
  common_free_fields (board board3_column) 3 3 1 0 0
  = two_step_match_count (board board3_column) 3 3 1 0 0.
Proof.
  apply (X13_common_free_fields_counts (board board3_column) 3 3 1 0 0); lia.
Defined.

(** X14: on a board [2 ^ 32 - 1] fields wide, at the column [2 ^ 32 - 2],
    [x + 2] is 0 on 32 bits and passes the test [x + 2 < width]:
    [common_free_fields] reads the field of the column 0 in the same row,
    and when that field belongs to [q] it answers one more than the number
    of fields of [q] two steps away. *)
Theorem X14_common_free_fields_wraps b h q y :
  0 <= y < h -> h < 2 ^ 32 - 1 -> player (field b 0 y) = q ->
  common_free_fields b 4294967295 h q 4294967294 y
  = two_step_match_count b 4294967295 h q 4294967294 y + 1.
Proof.
  intros Hy Hh H0. rewrite common_free_fields_sum.
  replace (wrap32 (4294967294 + 2)) with 0 by reflexivity.
  rewrite !(wrap32_small (y + 2)) by lia.
  unfold two_step_match_count. rewrite match_count_four. cbn [fst snd].
  rewrite H0, Z.eqb_refl.
  assert (valid_coordinate 4294967295 h 0 y = true) as ->
    by (apply valid_coordinate_true; lia).
  replace (on_board 4294967295 h (4294967294 + 2) y) with false
    by (unfold on_board; reflexivity).
  replace ((0 <? 4294967295) && (true && true)) with true by reflexivity.
  cbn [andb].
  rewrite (guarded_on_board (1 <? 4294967294) _ _
             (on_board 4294967295 h (4294967294 - 2) y))
    by (unfold valid_coordinate, on_board; bool_cases).
  rewrite (guarded_on_board (1 <? y) _ _
             (on_board 4294967295 h 4294967294 (y - 2)))
    by (unfold valid_coordinate, on_board; bool_cases).
  rewrite (guarded_on_board (y + 2 <? h) _ _
             (on_board 4294967295 h 4294967294 (y + 2)))
    by (unfold valid_coordinate, on_board; bool_cases).
  repeat match goal with
         | |- context [if ?c then 1 else 0] =>
             generalize (if c then 1 else 0); intro
         end.
  lia.
Qed.

(** X14 for the widest row, with the field of player 1 at its left end and
    the probe at its right end. *)
Lemma X14_common_free_fields_wraps_witness :
  common_free_fields wide_row 4294967295 1 1 4294967294 0
  = two_step_match_count wide_row 4294967295 1 1 4294967294 0 + 1.
Proof.
  apply (X14_common_free_fields_wraps wide_row 1 1 0); [lia | lia |].
  unfold wide_row, field. change (Z.to_nat 0) with 0%nat.
  rewrite list_lookup_insert_eq by (rewrite length_replicate; lia).
  reflexivity.
Defined.

(** ** What [BFS] relabels *)

Lemma stale_with_parent id p c : stale id p (with_parent id c) = false.
Proof. unfold stale. simpl. rewrite Z.eqb_refl. apply andb_false_r. Qed.

Lemma relabel_refl id p b : relabel id p b b.
Proof. split; [reflexivity | intros; left; reflexivity]. Qed.

Lemma relabel_fresh_keep id p b b' i j :
  relabel id p b b' -> stale id p (cell b i j) = false ->
  cell b' i j = cell b i j.
Proof.
  intros [_ R] Hs. destruct (R i j) as [E | [Hs' _]]; [exact E | congruence].
Qed.

Lemma relabel_stale_back id p b b' i j :
  relabel id p b b' -> stale id p (cell b' i j) = true ->
  cell b' i j = cell b i j.
Proof.
  intros [_ R] Hs. destruct (R i j) as [E | [_ E]]; [exact E |].
  rewrite E, stale_with_parent in Hs. discriminate.
Qed.

Lemma relabel_trans id p b b' b'' :
  relabel id p b b' -> relabel id p b' b'' -> relabel id p b b''.
Proof.
  intros R1 R2. split; [destruct R1, R2; congruence |]. intros i j.
  destruct (proj2 R1 i j) as [E1 | [Hs1 E1]].
  - rewrite <- E1. apply (proj2 R2).
  - right. split; [exact Hs1 |]. rewrite <- E1.
    apply (relabel_fresh_keep id p b' b''); [exact R2 |].
    rewrite E1. apply stale_with_parent.
Qed.

Lemma relabel_fresh_field id p b b' u v :
  relabel id p b b' -> stale id p (field b u v) = false ->
  stale id p (field b' u v) = false.
Proof.
  intros R Hs. rewrite field_cell in *.
  rewrite (relabel_fresh_keep id p b b' _ _ R Hs). exact Hs.
Qed.

Lemma relabel_stale_field id p b b' u v :
  relabel id p b b' -> stale id p (field b' u v) = true ->
  stale id p (field b u v) = true.
Proof.
  intros R Hs. rewrite field_cell in *.
  rewrite <- (relabel_stale_back id p b b' _ _ R Hs). exact Hs.
Qed.

Lemma relabel_write id p b x y :
  stale id p (field b x y) = true ->
  relabel id p b (set_field (with_parent id) b x y).
Proof.
  intros Hs. split; [apply shape_set_field |]. intros i j.
  destruct (cell_set_field_cases (with_parent id) b x y i j)
    as [E | (-> & -> & E)]; [left; exact E |].
  right. split; [rewrite <- field_cell; exact Hs | exact E].
Qed.

Lemma flood_start w h id p b x y u v :
  flood w h id p b x y u v ->
  on_board w h x y = true /\ stale id p (field b x y) = true.
Proof. destruct 1; auto. Qed.

Lemma flood_back w h id p b b' x y u v :
  relabel id p b b' -> flood w h id p b' x y u v -> flood w h id p b x y u v.
Proof.
  intros R F. induction F as [x y Hon Hs | x y x' y' u v Hon Hs Hadj F IH].
  - apply flood_here; [exact Hon |]. eapply relabel_stale_field; eassumption.
  - eapply flood_next; [exact Hon | | exact Hadj | exact IH].
    eapply relabel_stale_field; eassumption.
Qed.

Lemma on_board_true w h x y :
  on_board w h x y = true <-> 0 <= x < w /\ 0 <= y < h.
Proof. unfold on_board. split; [bool_cases | intros; bool_cases]. Qed.

Lemma wrap32_pred x : 0 <= x < 2 ^ 32 ->
  (x = 0 /\ wrap32 (x - 1) = 4294967295) \/ (0 < x /\ wrap32 (x - 1) = x - 1).
Proof.
  intros Hx. destruct (Z.eq_dec x 0) as [-> | Hne].
  - left. split; reflexivity.
  - right. split; [lia |]. apply wrap32_small. lia.
Qed.

(** The four fields [BFS] calls itself on are, among the fields of the
    board, the fields adjacent to [(x, y)]. *)
Lemma adjacent_calls w h x y x' y' :
  0 <= x < w -> 0 <= y < h -> w < 2 ^ 32 -> h < 2 ^ 32 ->
  on_board w h x' y' = true ->
  (adjacent x y x' y' <->
   (x' = wrap32 (x - 1) /\ y' = y) \/ (x' = wrap32 (x + 1) /\ y' = y) \/
   (x' = x /\ y' = wrap32 (y - 1)) \/ (x' = x /\ y' = wrap32 (y + 1))).
Proof.
  intros Hx Hy Hw Hh Hon. apply on_board_true in Hon.
  rewrite (wrap32_small (x + 1)), (wrap32_small (y + 1)) by lia.
  unfold adjacent.
  destruct (wrap32_pred x) as [[Ex ->] | [Ex ->]]; [lia | |];
    destruct (wrap32_pred y) as [[Ey ->] | [Ey ->]]; try lia.
Qed.

Lemma post_lift w h id p b ba bb bc nx ny :
  relabel id p b ba -> bfs_post w h id p ba bb nx ny -> relabel id p bb bc ->
  forall u v,
    on_board w h u v = true -> stale id p (field ba u v) = true ->
    stale id p (field bb u v) = false ->
    flood w h id p b nx ny u v /\
    forall u' v', adjacent u v u' v' -> on_board w h u' v' = true ->
      stale id p (field bc u' v') = false.
Proof.
  intros Ra (_ & P2 & _) Rc u v Hon Hs Hf.
  destruct (P2 u v Hon Hs Hf) as [F Hcl]. split.
  - eapply flood_back; eassumption.
  - intros u' v' Hadj Hon'. eapply relabel_fresh_field; [exact Rc |].
    apply Hcl; assumption.
Qed.

Lemma BFS_sizes fuel g id p x y g' :
  BFS fuel g id p x y = Ok g' -> width g' = width g /\ height g' = height g.
Proof.
  intros H. apply (BFS_effect _ _ _ _ _ _ _ 0 0) in H as (W & H' & _).
  auto.
Qed.

Lemma BFS_post_sized id p w h fuel : forall g x y g',
  width g = w -> height g = h -> board_ok w h (board g) ->
  w < 2 ^ 32 -> h < 2 ^ 32 -> 0 <= x -> 0 <= y ->
  BFS fuel g id p x y = Ok g' ->
  bfs_post w h id p (board g) (board g') x y.
Proof.
  induction fuel as [| fuel IH]; intros g x y g' Ew Eh Hok Hw Hh Hx Hy H;
    simpl in H; [discriminate |].
  rewrite Ew, Eh in H.
  destruct (valid_coordinate w h x y) eqn:Hv; simpl in H.
  2: { injection H as <-. split; [apply relabel_refl |]. split.
       - intros u v _ Hs Hf. congruence.
       - intros Hon. apply on_board_true in Hon.
         assert (valid_coordinate w h x y = true)
           by (apply valid_coordinate_true; lia). congruence. }
  apply valid_coordinate_true in Hv as [Hxw Hyh].
  assert (on_board w h x y = true) as Hxy by (apply on_board_true; lia).
  destruct ((player (field (board g) x y) =? p)
            && negb (parent_id (field (board g) x y) =? id)) eqn:Hs.
  2: { injection H as <-. split; [apply relabel_refl |]. split.
       - intros u v _ Hs' Hf. congruence.
       - intros _. exact Hs. }
  change (stale id p (field (board g) x y) = true) in Hs.
  apply res_bind_Ok in H as (g1 & H1 & H).
  apply res_bind_Ok in H as (g2 & H2 & H).
  apply res_bind_Ok in H as (g3 & H3 & H4).
  set (b := board g) in *.
  set (b0 := set_field (with_parent id) b x y).
  pose proof (relabel_write id p b x y Hs) as R0. fold b0 in R0.
  pose proof (wrap32_range (x - 1)) as Rx1.
  pose proof (wrap32_range (x + 1)) as Rx2.
  pose proof (wrap32_range (y - 1)) as Ry1.
  pose proof (wrap32_range (y + 1)) as Ry2.
  assert (board_ok w h b0) as Hok0
    by (unfold board_ok, b0; rewrite shape_set_field; exact Hok).
  pose proof (IH (write_parent g x y id) _ _ g1 Ew Eh Hok0 Hw Hh
                (proj1 Rx1) Hy H1) as P1.
  change (board (write_parent g x y id)) with b0 in P1.
  destruct (BFS_sizes _ _ _ _ _ _ _ H1) as [W1 H1'].
  simpl in W1, H1'. rewrite Ew in W1. rewrite Eh in H1'.
  assert (board_ok w h (board g1)) as Hok1
    by (unfold board_ok; rewrite (proj1 (proj1 P1)); exact Hok0).
  pose proof (IH g1 _ _ g2 W1 H1' Hok1 Hw Hh (proj1 Rx2) Hy H2) as P2.
  destruct (BFS_sizes _ _ _ _ _ _ _ H2) as [W2 H2'].
  rewrite W1 in W2. rewrite H1' in H2'.
  assert (board_ok w h (board g2)) as Hok2
    by (unfold board_ok; rewrite (proj1 (proj1 P2)); exact Hok1).
  pose proof (IH g2 _ _ g3 W2 H2' Hok2 Hw Hh Hx (proj1 Ry1) H3) as P3.
  destruct (BFS_sizes _ _ _ _ _ _ _ H3) as [W3 H3'].
  rewrite W2 in W3. rewrite H2' in H3'.
  assert (board_ok w h (board g3)) as Hok3
    by (unfold board_ok; rewrite (proj1 (proj1 P3)); exact Hok2).
  pose proof (IH g3 _ _ g' W3 H3' Hok3 Hw Hh Hx (proj1 Ry2) H4) as P4.
  clear IH H1 H2 H3 H4.
  pose proof (proj1 P1) as R1. pose proof (proj1 P2) as R2.
  pose proof (proj1 P3) as R3. pose proof (proj1 P4) as R4.
  pose proof (relabel_trans _ _ _ _ _ R0 R1) as R01.
  pose proof (relabel_trans _ _ _ _ _ R01 R2) as R02.
  pose proof (relabel_trans _ _ _ _ _ R02 R3) as R03.
  pose proof (relabel_trans _ _ _ _ _ R3 R4) as R24.
  pose proof (relabel_trans _ _ _ _ _ R2 R24) as R14.
  pose proof (relabel_trans _ _ _ _ _ R1 R14) as R04.
  assert (stale id p (field b0 x y) = false) as Hf0.
  { unfold b0. rewrite (cell_set_field_eq _ _ _ _ _ _ Hok (conj Hx Hxw)
                          (conj Hy Hyh)). apply stale_with_parent. }
  split; [eapply relabel_trans; eassumption |]. split.
  - intros u v Hon Hsu Hfu.
    destruct (decide ((u, v) = (x, y))) as [E | Hne].
    + injection E as -> ->. split; [apply flood_here; assumption |].
      intros u' v' Hadj Hon'.
      apply (adjacent_calls w h x y u' v') in Hadj;
        [| lia | lia | lia | lia | exact Hon'].
      destruct Hadj as [[-> ->] | [[-> ->] | [[-> ->] | [-> ->]]]].
      * apply (relabel_fresh_field id p (board g1)); [exact R14 |].
        apply (proj2 (proj2 P1)). exact Hon'.
      * apply (relabel_fresh_field id p (board g2)); [exact R24 |].
        apply (proj2 (proj2 P2)). exact Hon'.
      * apply (relabel_fresh_field id p (board g3)); [exact R4 |].
        apply (proj2 (proj2 P3)). exact Hon'.
      * apply (proj2 (proj2 P4)). exact Hon'.
    + assert (stale id p (field b0 u v) = true) as Hs0.
      { unfold b0. rewrite field_cell in *.
        rewrite cell_set_field_ne; [exact Hsu |].
        apply on_board_true in Hon. intros [= E1 E2]. apply Hne.
        f_equal; lia. }
      assert (forall nx ny,
                on_board w h nx ny = true -> flood w h id p b nx ny u v ->
                adjacent x y nx ny -> flood w h id p b x y u v) as Hcons
        by (intros nx ny _ F Hadj; eapply flood_next; eassumption).
      assert (forall nx ny, flood w h id p b nx ny u v ->
                ((nx = wrap32 (x - 1) /\ ny = y) \/
                 (nx = wrap32 (x + 1) /\ ny = y) \/
                 (nx = x /\ ny = wrap32 (y - 1)) \/
                 (nx = x /\ ny = wrap32 (y + 1))) ->
                flood w h id p b x y u v) as Hstep.
      { intros nx ny F Hn. destruct (flood_start _ _ _ _ _ _ _ _ _ F)
          as [Hon' _].
        apply (Hcons nx ny Hon' F).
        apply (adjacent_calls w h x y nx ny); [lia | lia | lia | lia | |];
          assumption. }
      destruct (stale id p (field (board g1) u v)) eqn:S1.
      2: { destruct (post_lift w h id p b b0 (board g1) (board g')
                       _ _ R0 P1 R14 u v Hon Hs0 S1) as [F Hcl].
           split; [eapply Hstep; [exact F | auto] | exact Hcl]. }
      destruct (stale id p (field (board g2) u v)) eqn:S2.
      2: { destruct (post_lift w h id p b (board g1) (board g2) (board g')
                       _ _ R01 P2 R24 u v Hon S1 S2) as [F Hcl].
           split; [eapply Hstep; [exact F | auto] | exact Hcl]. }
      destruct (stale id p (field (board g3) u v)) eqn:S3.
      2: { destruct (post_lift w h id p b (board g2) (board g3) (board g')
                       _ _ R02 P3 R4 u v Hon S2 S3) as [F Hcl].
           split; [eapply Hstep; [exact F | auto] | exact Hcl]. }
      destruct (post_lift w h id p b (board g3) (board g') (board g')
                  _ _ R03 P4 (relabel_refl _ _ _) u v Hon S3 Hfu)
        as [F Hcl].
      split; [eapply Hstep; [exact F | auto 6] | exact Hcl].
  - intros _. eapply relabel_fresh_field; [exact R04 | exact Hf0].
Qed.

Lemma BFS_post id p fuel g x y g' :
  board_ok (width g) (height g) (board g) ->
  width g < 2 ^ 32 -> height g < 2 ^ 32 -> 0 <= x -> 0 <= y ->
  BFS fuel g id p x y = Ok g' ->
  bfs_post (width g) (height g) id p (board g) (board g') x y.
Proof. intros. eapply BFS_post_sized; eauto. Qed.

Lemma flood_end w h id p b x y u v :
  flood w h id p b x y u v ->
  on_board w h u v = true /\ stale id p (field b u v) = true.
Proof. induction 1; auto. Qed.

Lemma flood_relabelled w h id p b b' x y s t u v :
  bfs_post w h id p b b' x y -> flood w h id p b s t u v ->
  stale id p (field b' s t) = false -> stale id p (field b' u v) = false.
Proof.
  intros (_ & P2 & _) F.
  induction F as [s t Hon Hs | s t s' t' u v Hon Hs Hadj F IH]; intros Hf;
    [exact Hf |].
  apply IH. destruct (P2 s t Hon Hs Hf) as [_ Hcl].
  apply Hcl; [exact Hadj |]. exact (proj1 (flood_start _ _ _ _ _ _ _ _ _ F)).
Qed.

Lemma stale_owner id p c : stale id p c = true -> player c = p.
Proof.
  unfold stale. intros H. apply andb_true_iff in H as [H _].
  apply Z.eqb_eq. exact H.
Qed.

(** X15: on a well formed game, [BFS] called on a field with coordinates
    of [uint32_t] returns within the depth [game_move] allows.  It writes
    the tag [id] on exactly the fields reached from [(x, y)] through fields
    of the board that belong to [p] and have another tag, leaves every
    other field of the board as it was, and changes nothing but the
    board. *)
Theorem X15_BFS_relabels g id p x y :
  wf_game g -> uint32 x -> uint32 y ->
  exists g',
    BFS (BFS_fuel g) g id p x y = Ok g' /\
    players g' = players g /\ neighbours g' = neighbours g /\
    width g' = width g /\ height g' = height g /\ areas g' = areas g /\
    players_num g' = players_num g /\
    forall u v, on_board (width g) (height g) u v = true ->
      (flood (width g) (height g) id p (board g) x y u v ->
       field (board g') u v = mk_pair p id) /\
      (~ flood (width g) (height g) id p (board g) x y u v ->
       field (board g') u v = field (board g) u v).
Proof.
  intros Hwf Hx Hy. unfold uint32 in *.
  pose proof (wf_width g Hwf) as Hw. pose proof (wf_height g Hwf) as Hh.
  pose proof (wf_board g Hwf) as Hok.
  destruct (BFS_terminates (BFS_fuel g) g id p x y Hok) as (g' & E & _);
    [lia | lia | apply BFS_fuel_enough; [exact Hok | lia | lia] |].
  exists g'. split; [exact E |].
  destruct (BFS_players _ _ _ _ _ _ _ E) as [Ep En].
  pose proof (BFS_effect _ _ _ _ _ _ _ 0 0 E) as (W & H' & A & N & _).
  repeat (split; [assumption |]).
  pose proof (BFS_post id p _ g x y g' Hok ltac:(lia) ltac:(lia)
                ltac:(lia) ltac:(lia) E) as P.
  intros u v Hon. pose proof P as (R & P2 & P3).
  destruct (proj2 R (Z.to_nat u) (Z.to_nat v)) as [Esame | [Hs Ewp]];
    rewrite <- !field_cell in *.
  - split; [| intros _; exact Esame].
    intros F. exfalso.
    destruct (flood_end _ _ _ _ _ _ _ _ _ F) as [_ Hsu].
    destruct (flood_start _ _ _ _ _ _ _ _ _ F) as [Hon0 _].
    pose proof (flood_relabelled _ _ _ _ _ _ _ _ _ _ _ _ P F (P3 Hon0)) as Hf.
    rewrite Esame in Hf. congruence.
  - split.
    + intros _. rewrite Ewp. unfold with_parent.
      rewrite (stale_owner _ _ _ Hs). reflexivity.
    + intros Hno. exfalso. apply Hno.
      apply (P2 u v Hon Hs). rewrite Ewp. apply stale_with_parent.
Qed.

(** X15 for [board3_joined], where the column of player 1 has the tags 1,
    1 and 2 from the bottom up: [BFS] with the tag 2 from [(0, 0)]. *)
Lemma X15_BFS_relabels_witness :
  exists g',
    BFS (BFS_fuel board3_joined) board3_joined 2 1 0 0 = Ok g' /\
    players g' = players board3_joined /\
    neighbours g' = neighbours board3_joined /\
    width g' = width board3_joined /\ height g' = height board3_joined /\
    areas g' = areas board3_joined /\
    players_num g' = players_num board3_joined /\
    forall u v,
      on_board (width board3_joined) (height board3_joined) u v = true ->
      (flood (width board3_joined) (height board3_joined) 2 1
         (board board3_joined) 0 0 u v ->
       field (board g') u v = mk_pair 1 2) /\
      (~ flood (width board3_joined) (height board3_joined) 2 1
           (board board3_joined) 0 0 u v ->
       field (board g') u v = field (board board3_joined) u v).
Proof.
  apply (X15_BFS_relabels board3_joined 2 1 0 0).
  - apply reachable_wf.
    apply (play_reachable
             [mk_move 1 0 0; mk_move 1 0 2; mk_move 1 0 1] board3);
      [exact board3_reachable | apply moves_ok_small; reflexivity |].
    vm_compute. reflexivity.
  - unfold uint32. lia.
  - unfold uint32. lia.
Defined.

(** ** The tags after a union of areas *)

Lemma relabel_owner id p b b' i j :
  relabel id p b b' -> player (cell b' i j) = player (cell b i j).
Proof.
  intros [_ R]. destruct (R i j) as [E | [_ E]]; rewrite E; reflexivity.
Qed.

Lemma fresh_owned id p c :
  stale id p c = false -> player c = p -> c = mk_pair p id.
Proof.
  unfold stale. intros Hs Hp. destruct c as [o t]. simpl in *. subst o.
  rewrite Z.eqb_refl in Hs. simpl in Hs.
  apply negb_false_iff, Z.eqb_eq in Hs. subst t. reflexivity.
Qed.

Lemma union_areas_tags g p x y around g1 :
  move_ctx g p x y -> width g < 2 ^ 32 -> height g < 2 ^ 32 ->
  union_areas g p x y around = Ok g1 ->
  field (board g1) x y = mk_pair p (set_id (neighbours g)) /\
  forall x' y', adjacent x y x' y' ->
    on_board (width g) (height g) x' y' = true ->
    player (field (board g) x' y') = p ->
    field (board g1) x' y' = mk_pair p (set_id (neighbours g)).
Proof.
  intros C Hw Hh H. pose proof C as (_ & _ & _ & Hok & Hx & Hy).
  set (id0 := set_id (neighbours g)).
  set (w := width g) in *. set (h := height g) in *.
  set (b := board g) in *.
  unfold union_areas in H.
  apply res_bind_Ok in H as (g3 & H3 & H).
  apply res_bind_Ok in H as (g4 & H4 & H).
  apply upd_player_effect in H3 as (B3 & _ & W3 & H3' & _).
  apply upd_player_effect in H4 as (B4 & _ & W4 & H4' & _).
  cbn [board width height neighbours write_parent write_player set_board]
    in B3, W3, H3'.
  fold b w h id0 in B3, W3, H3'.
  set (bb := set_field (with_parent id0)
               (set_field (with_player p) b x y) x y) in *.
  rewrite B3 in B4. rewrite W3 in W4. rewrite H3' in H4'.
  assert (board_ok w h (set_field (with_player p) b x y)) as Hok1
    by (unfold board_ok; rewrite shape_set_field; exact Hok).
  assert (board_ok w h bb) as Hokb
    by (unfold board_ok, bb; rewrite shape_set_field; exact Hok1).
  assert (field bb x y = mk_pair p id0) as Exy.
  { unfold bb. rewrite (cell_set_field_eq _ _ _ _ _ _ Hok1 Hx Hy).
    rewrite (cell_set_field_eq _ _ _ _ _ _ Hok Hx Hy). reflexivity. }
  assert (forall b', relabel id0 p bb b' -> field b' x y = mk_pair p id0)
    as Hkeep.
  { intros b' R. rewrite field_cell in *.
    rewrite (relabel_fresh_keep id0 p bb b' _ _ R); [exact Exy |].
    rewrite Exy. apply (stale_with_parent id0 p (mk_pair p 0)). }
  pose proof (wrap32_range (x - 1)) as Rx1.
  pose proof (wrap32_range (x + 1)) as Rx2.
  pose proof (wrap32_range (y - 1)) as Ry1.
  pose proof (wrap32_range (y + 1)) as Ry2.
  apply res_bind_Ok in H as (g5 & H5 & H).
  rewrite B4, Exy in H5. cbn [parent_id] in H5.
  rewrite <- B4 in Hokb.
  pose proof (BFS_post_sized id0 p w h _ g4 _ _ g5 W4 H4' Hokb Hw Hh
                (proj1 Rx1) (proj1 Hy) H5) as P1.
  rewrite B4 in P1, Hokb.
  destruct (BFS_sizes _ _ _ _ _ _ _ H5) as [W5 H5'].
  rewrite W4 in W5. rewrite H4' in H5'.
  pose proof (proj1 P1) as R1.
  assert (board_ok w h (board g5)) as Hok5
    by (unfold board_ok; rewrite (proj1 R1); exact Hokb).
  apply res_bind_Ok in H as (g6 & H6 & H).
  rewrite (Hkeep _ R1) in H6. cbn [parent_id] in H6.
  pose proof (BFS_post_sized id0 p w h _ g5 _ _ g6 W5 H5' Hok5 Hw Hh
                (proj1 Rx2) (proj1 Hy) H6) as P2.
  destruct (BFS_sizes _ _ _ _ _ _ _ H6) as [W6 H6'].
  rewrite W5 in W6. rewrite H5' in H6'.
  pose proof (proj1 P2) as R2.
  pose proof (relabel_trans _ _ _ _ _ R1 R2) as R12.
  assert (board_ok w h (board g6)) as Hok6
    by (unfold board_ok; rewrite (proj1 R2); exact Hok5).
  apply res_bind_Ok in H as (g7 & H7 & H8).
  rewrite (Hkeep _ R12) in H7. cbn [parent_id] in H7.
  pose proof (BFS_post_sized id0 p w h _ g6 _ _ g7 W6 H6' Hok6 Hw Hh
                (proj1 Hx) (proj1 Ry1) H7) as P3.
  destruct (BFS_sizes _ _ _ _ _ _ _ H7) as [W7 H7'].
  rewrite W6 in W7. rewrite H6' in H7'.
  pose proof (proj1 P3) as R3.
  pose proof (relabel_trans _ _ _ _ _ R12 R3) as R13.
  assert (board_ok w h (board g7)) as Hok7
    by (unfold board_ok; rewrite (proj1 R3); exact Hok6).
  rewrite (Hkeep _ R13) in H8. cbn [parent_id] in H8.
  pose proof (BFS_post_sized id0 p w h _ g7 _ _ g1 W7 H7' Hok7 Hw Hh
                (proj1 Hx) (proj1 Ry2) H8) as P4.
  pose proof (proj1 P4) as R4.
  pose proof (relabel_trans _ _ _ _ _ R13 R4) as R14.
  pose proof (relabel_trans _ _ _ _ _ R3 R4) as R34.
  pose proof (relabel_trans _ _ _ _ _ R2 R34) as R24.
  split; [apply Hkeep; exact R14 |].
  intros x' y' Hadj Hon Hp.
  assert (player (field (board g1) x' y') = p) as Hp1.
  { rewrite field_cell in *.
    rewrite (relabel_owner _ _ _ _ _ _ R14). unfold bb.
    assert ((Z.to_nat x', Z.to_nat y') <> (Z.to_nat x, Z.to_nat y)) as Hne.
    { apply on_board_true in Hon. intros [= E1 E2].
      destruct Hadj as [[? [? | ?]] | [? [? | ?]]]; lia. }
    rewrite !cell_set_field_ne by exact Hne. exact Hp. }
  apply fresh_owned; [| exact Hp1].
  apply (adjacent_calls w h x y x' y') in Hadj;
    [| lia | lia | lia | lia | exact Hon].
  destruct Hadj as [[-> ->] | [[-> ->] | [[-> ->] | [-> ->]]]].
  - apply (relabel_fresh_field id0 p (board g5)); [exact R24 |].
    apply (proj2 (proj2 P1)). exact Hon.
  - apply (relabel_fresh_field id0 p (board g6)); [exact R34 |].
    apply (proj2 (proj2 P2)). exact Hon.
  - apply (relabel_fresh_field id0 p (board g7)); [exact R4 |].
    apply (proj2 (proj2 P3)). exact Hon.
  - apply (proj2 (proj2 P4)). exact Hon.
Qed.

(** X16: when an accepted move of [p] to [(x, y)] takes the branch that
    unites areas ([different_areas] does not answer 1), the field gets the
    first nonzero tag among the slots left, right, down, up, and after the
    move every field of [p] next to [(x, y)] carries that same tag. *)
Theorem X16_union_tags g p x y g' :
  wf_game g -> uint32 p -> uint32 x -> uint32 y ->
  game_move g p x y = Ok (true, g') ->
  isSurrounded (board g) (width g) (height g) p x y <> 0 ->
  different_areas (neighbours (find_neighbours g p x y))
    (isSurrounded (board g) (width g) (height g) p x y) <> 1 ->
  field (board g') x y
  = mk_pair p (set_id (neighbours (find_neighbours g p x y))) /\
  forall x' y', adjacent x y x' y' ->
    on_board (width g) (height g) x' y' = true ->
    player (field (board g) x' y') = p ->
    field (board g') x' y'
    = mk_pair p (set_id (neighbours (find_neighbours g p x y))).
Proof.
  intros Hwf Hp Hx Hy H Ha Hk. unfold uint32 in *.
  destruct (accepted_stages g p x y g' Hwf)
    as (Hv & Hxw & Hyh & Hf & g1 & E1 & S & E2);
    [lia | lia | lia | exact H |].
  pose proof (wf_width g Hwf) as Hw. pose proof (wf_height g Hwf) as Hh.
  assert (move_ctx g p x y) as C.
  { apply wf_move_ctx; [exact Hwf | exact Hv | lia | lia |].
    apply valid_coordinate_true. lia. }
  apply update_game_info_effect in E2 as (Hb & _). rewrite Hb.
  unfold claim_field in E1.
  destruct (Z.eqb_spec (isSurrounded (board g) (width g) (height g) p x y) 0);
    [contradiction |].
  unfold join_area in E1.
  destruct (Z.eqb_spec
              (different_areas (neighbours (find_neighbours g p x y))
                 (isSurrounded (board g) (width g) (height g) p x y)) 1);
    [contradiction |].
  apply (union_areas_tags (find_neighbours g p x y) p x y
           (isSurrounded (board g) (width g) (height g) p x y) g1);
    [| simpl; lia | simpl; lia | exact E1].
  exact (move_ctx_stage p x y g (find_neighbours g p x y)
           (stage_find_neighbours p x y g p x y) C).
Qed.

(** X16 for the move of player 1 to the centre of [board3_ring]. *)
Lemma X16_union_tags_witness :
  field (board board3_centre) 1 1
  = mk_pair 1 (set_id (neighbours (find_neighbours board3_ring 1 1 1))) /\
  forall x' y', adjacent 1 1 x' y' ->
    on_board (width board3_ring) (height board3_ring) x' y' = true ->
    player (field (board board3_ring) x' y') = 1 ->
    field (board board3_centre) x' y'
    = mk_pair 1 (set_id (neighbours (find_neighbours board3_ring 1 1 1))).
Proof.
  apply (X16_union_tags board3_ring 1 1 1 board3_centre).
  - apply reachable_wf.
    apply (play_reachable ring_moves board3);
      [exact board3_reachable | apply moves_ok_small; reflexivity |].
    vm_compute. reflexivity.
  - unfold uint32. lia.
  - unfold uint32. lia.
  - unfold uint32. lia.
  - vm_compute. reflexivity.
  - vm_compute. discriminate.
  - vm_compute. discriminate.
Defined.

(** ** The count of areas of the mover *)

Lemma wrap32_sub_r (a b : Z) : wrap32 (a - wrap32 b) = wrap32 (a - b).
Proof. unfold wrap32. apply Zminus_mod_idemp_r. Qed.

Lemma upd_player_rec f g p g' r :
  players g !! pidx p = Some r -> upd_player f g p = Ok g' ->
  players g' !! pidx p = Some (f r).
Proof.
  intros Hr H. apply upd_player_Ok in H as (r0 & Hr0 & ->). simpl.
  rewrite list_lookup_insert_eq by (eapply lookup_lt_Some; exact Hr).
  congruence.
Qed.

Lemma adjust_area_rec g p x y idxs g' r :
  players g !! pidx p = Some r -> adjust_area g p x y idxs = Ok g' ->
  exists r', players g' !! pidx p = Some r' /\ busy_areas r' = busy_areas r.
Proof.
  intros Hr. induction idxs as [| i idxs IH]; simpl; intros H.
  - injection H as <-. eauto.
  - destruct (negb (_ =? 0)); [| exact (IH H)].
    eapply upd_player_rec in H; [| simpl; exact Hr]. eauto.
Qed.

Lemma update_game_info_rec g p x y g' r :
  players g !! pidx p = Some r -> update_game_info g p x y = Ok g' ->
  exists r', players g' !! pidx p = Some r' /\ busy_areas r' = busy_areas r.
Proof.
  intros Hr H.
  apply update_game_info_effect in H as (_ & _ & _ & _ & _ & _ & M).
  specialize (M (pidx p)). rewrite Hr in M. simpl in M.
  eexists. split; [exact M |].
  unfold dec_boundary, at_index.
  destruct (decide (pidx p = pidx p)); [| congruence].
  destruct (_ =? 0); reflexivity.
Qed.

(** The record of the mover after the update of the areas and tags. *)
Lemma claim_field_rec g p x y g1 r :
  move_ctx g p x y ->
  players g !! pidx p = Some r -> claim_field g p x y = Ok g1 ->
  exists r1, players g1 !! pidx p = Some r1 /\
    let around := isSurrounded (board g) (width g) (height g) p x y in
    let k := different_areas (neighbours (find_neighbours g p x y)) around in
    busy_areas r1
    = (if around =? 0 then wrap32 (busy_areas r + 1)
       else if k =? 1
            then (if 1 <? around
                  then wrap32 (busy_areas r - (around - 1))
                  else busy_areas r)
            else wrap32 (busy_areas r - (k - 1))) /\
    (around = 0 -> field (board g1) x y = mk_pair p (busy_areas r1)).
Proof.
  intros C Hr. unfold claim_field. cbv zeta.
  destruct (Z.eqb_spec (isSurrounded (board g) (width g) (height g) p x y) 0)
    as [Ha | Ha].
  - unfold new_area. intros H.
    apply res_bind_Ok in H as (g2 & H2 & H).
    apply res_bind_Ok in H as (r2 & Hr2 & [= <-]).
    pose proof (upd_player_rec _ (write_player g x y p) _ _ _ Hr H2) as Hr1.
    apply get_player_Ok in Hr2 as [Hr2 _].
    assert (r2 = add_busy_areas 1 r) as -> by congruence.
    exists (add_busy_areas 1 r). split; [exact Hr1 |]. split; [reflexivity |].
    intros _. apply upd_player_effect in H2 as (Hb & _). simpl in Hb.
    destruct C as (_ & _ & _ & C4 & C5 & C6).
    simpl. rewrite Hb.
    rewrite (cell_set_field_eq _ _ (width g) (height g)); [| | exact C5 | exact C6].
    + rewrite (cell_set_field_eq _ _ _ _ _ _ C4 C5 C6). reflexivity.
    + unfold board_ok. rewrite shape_set_field. exact C4.
  - unfold join_area.
    destruct (Z.eqb_spec
                (different_areas (neighbours (find_neighbours g p x y))
                   (isSurrounded (board g) (width g) (height g) p x y)) 1)
      as [Hk | Hk].
    + unfold extend_area. intros H.
      apply res_bind_Ok in H as (g2 & H2 & H).
      destruct (1 <? isSurrounded (board g) (width g) (height g) p x y).
      * pose proof (upd_player_rec _ (find_neighbours g p x y) _ _ _ Hr H2)
          as Hr2.
        destruct (adjust_area_rec _ _ _ _ _ _ _ Hr2 H) as (r1 & Hr1 & Hb).
        exists r1. split; [exact Hr1 |]. split; [| contradiction].
        rewrite Hb. unfold add_busy_areas. cbn [busy_areas].
        rewrite Z.add_opp_r. apply wrap32_sub_r.
      * injection H2 as <-.
        destruct (adjust_area_rec (find_neighbours g p x y) _ _ _ _ _ _ Hr H)
          as (r1 & Hr1 & Hb).
        exists r1. split; [exact Hr1 |]. split; [exact Hb | contradiction].
    + unfold union_areas. intros H.
      apply res_bind_Ok in H as (g2 & H2 & H).
      apply res_bind_Ok in H as (g3 & H3 & H).
      apply res_bind_Ok in H as (g4 & H4 & H).
      apply res_bind_Ok in H as (g5 & H5 & H).
      apply res_bind_Ok in H as (g6 & H6 & H7).
      apply BFS_players in H4 as [P4 _]. apply BFS_players in H5 as [P5 _].
      apply BFS_players in H6 as [P6 _]. apply BFS_players in H7 as [P7 _].
      pose proof (upd_player_rec _ _ _ _ _
                    (Hr : players (write_parent
                             (write_player (find_neighbours g p x y) x y p)
                             x y _) !! pidx p = Some r) H2) as Hr2.
      pose proof (upd_player_rec _ _ _ _ _ Hr2 H3) as Hr3.
      rewrite P7, P6, P5, P4. eexists. split; [exact Hr3 |].
      split; [| contradiction].
      unfold add_boundary, add_busy_areas. cbn [busy_areas].
      rewrite Z.add_opp_r. apply wrap32_sub_r.
Qed.

Lemma island_below_quota g p x y g' r :
  game_move g p x y = Ok (true, g') ->
  isSurrounded (board g) (width g) (height g) p x y = 0 ->
  get_player g p = Ok r -> busy_areas r <> areas g.
Proof.
  unfold game_move. intros H Ha Hr.
  destruct (players_num g <? p); [discriminate |].
  destruct (negb (valid_coordinate _ _ _ _)); [discriminate |].
  destruct (negb (_ =? 0)); [discriminate |].
  rewrite Ha, Hr in H. cbn [Z.eqb res_bind] in H.
  destruct (Z.eqb_spec (busy_areas r) (areas g)); [discriminate | assumption].
Qed.

(** X17: the count of areas of the mover after an accepted move, computed
    on 32 bits.  With no field of the mover around it grows by one, it was
    not at the maximum, and the new count is the tag of the field.  With
    [k = 1] it drops by [around - 1] when [around > 1] and stays otherwise.
    In the other cases it drops by [k - 1]. *)
Theorem X17_area_count g p x y g' r :
  wf_game g -> uint32 p -> uint32 x -> uint32 y ->
  game_move g p x y = Ok (true, g') ->
  player_rec g p = Some r ->
  exists r', player_rec g' p = Some r' /\
    let around := isSurrounded (board g) (width g) (height g) p x y in
    let k := different_areas (neighbours (find_neighbours g p x y)) around in
    busy_areas r'
    = (if around =? 0 then wrap32 (busy_areas r + 1)
       else if k =? 1
            then (if 1 <? around
                  then wrap32 (busy_areas r - (around - 1))
                  else busy_areas r)
            else wrap32 (busy_areas r - (k - 1))) /\
    (around = 0 ->
     busy_areas r <> areas g /\
     field (board g') x y = mk_pair p (busy_areas r')).
Proof.
  intros Hwf Hp Hx Hy H Hr. unfold uint32 in *.
  destruct (accepted_stages g p x y g' Hwf)
    as (Hv & Hxw & Hyh & Hf & g1 & E1 & S & E2);
    [lia | lia | lia | exact H |].
  assert (move_ctx g p x y) as C.
  { apply wf_move_ctx; [exact Hwf | exact Hv | lia | lia |].
    apply valid_coordinate_true. lia. }
  assert (1 <= p < 2 ^ 32) as Hp1 by lia.
  unfold player_rec in *. rewrite <- (pidx_valid p Hp1) in *.
  destruct (claim_field_rec g p x y g1 r C Hr E1) as (r1 & Hr1 & Hb1 & Ht).
  destruct (update_game_info_rec g1 p x y g' r1 Hr1 E2) as (r' & Hr' & Hb').
  exists r'. split; [exact Hr' |]. cbv zeta in *. rewrite Hb'.
  split; [exact Hb1 |]. intros Ha. split.
  - apply (island_below_quota g p x y g' r H Ha).
    apply get_player_lookup. exact Hr.
  - apply update_game_info_effect in E2 as (Hb & _). rewrite Hb.
    exact (Ht Ha).
Qed.

(** X17 for the move of player 1 to the centre of [board3_ring]: two areas
    less three gives 4294967295. *)
Lemma X17_area_count_witness :
  exists r', player_rec board3_centre 1 = Some r' /\
    let around :=
      isSurrounded (board board3_ring) (width board3_ring)
        (height board3_ring) 1 1 1 in
    let k :=
      different_areas (neighbours (find_neighbours board3_ring 1 1 1))
        around in
    busy_areas r'
    = (if around =? 0 then wrap32 (busy_areas (mk_player 2 2 6) + 1)
       else if k =? 1
            then (if 1 <? around
                  then wrap32 (busy_areas (mk_player 2 2 6) - (around - 1))
                  else busy_areas (mk_player 2 2 6))
            else wrap32 (busy_areas (mk_player 2 2 6) - (k - 1))) /\
    (around = 0 ->
     busy_areas (mk_player 2 2 6) <> areas board3_ring /\
     field (board board3_centre) 1 1 = mk_pair 1 (busy_areas r')).
Proof.
  apply (X17_area_count board3_ring 1 1 1 board3_centre (mk_player 2 2 6)).
  - apply reachable_wf.
    apply (play_reachable ring_moves board3);
      [exact board3_reachable | apply moves_ok_small; reflexivity |].
    vm_compute. reflexivity.
  - unfold uint32. lia.
  - unfold uint32. lia.
  - unfold uint32. lia.
  - vm_compute. reflexivity.
  - vm_compute. reflexivity.
Defined.

(** ** The slots and the count of fields around *)

Lemma filled_slots_four n0 n1 n2 n3 :
  filled_slots [n0; n1; n2; n3]
  = (if n0 =? 0 then 0 else 1) + (if n1 =? 0 then 0 else 1)
    + (if n2 =? 0 then 0 else 1) + (if n3 =? 0 then 0 else 1).
Proof.
  unfold filled_slots. cbn [List.filter].
  destruct (n0 =? 0), (n1 =? 0), (n2 =? 0), (n3 =? 0); reflexivity.
Qed.

Lemma slot_filled (c ob e : bool) (t : Z) :
  c = ob ->
  (if (if c && e then t else 0) =? 0 then 0 else 1)
  <= (if ob && e then 1 else 0) /\
  ((ob = true -> e = true -> t <> 0) ->
   (if (if c && e then t else 0) =? 0 then 0 else 1)
   = (if ob && e then 1 else 0)).
Proof.
  intros ->. destruct ob, e; simpl; try (split; [lia | reflexivity]).
  destruct (Z.eqb_spec t 0) as [E | E]; split; try lia;
    intros H; exfalso; apply H; auto.
Qed.

(** X18: [find_neighbours] changes only the slots.  The number of slots
    that hold a tag is at most the number [isSurrounded] counts, and it is
    that number when no field of [p] next to [(x, y)] has the tag 0. *)
Theorem X18_find_neighbours_slots g p x y :
  0 <= x < width g -> 0 <= y < height g ->
  width g < 2 ^ 32 -> height g < 2 ^ 32 ->
  board (find_neighbours g p x y) = board g /\
  players (find_neighbours g p x y) = players g /\
  length (neighbours (find_neighbours g p x y)) = 4%nat /\
  filled_slots (neighbours (find_neighbours g p x y))
  <= isSurrounded (board g) (width g) (height g) p x y /\
  ((forall x' y', adjacent x y x' y' ->
      on_board (width g) (height g) x' y' = true ->
      player (field (board g) x' y') = p ->
      parent_id (field (board g) x' y') <> 0) ->
   filled_slots (neighbours (find_neighbours g p x y))
   = isSurrounded (board g) (width g) (height g) p x y).
Proof.
  intros Hx Hy Hw Hh.
  split; [reflexivity |]. split; [reflexivity |]. split; [reflexivity |].
  rewrite (isSurrounded_orthogonal _ _ _ _ _ _ Hx Hy).
  unfold orthogonal_match_count. rewrite match_count_four. cbn [fst snd].
  unfold find_neighbours. cbv zeta. cbn [neighbours set_neighbours].
  rewrite !(wrap32_small (x + 1)), !(wrap32_small (y + 1)) by lia.
  rewrite filled_slots_four.
  assert ((0 <? x) = on_board (width g) (height g) (x - 1) y) as E0
    by (unfold on_board; bool_cases).
  assert ((x + 1 <? width g) = on_board (width g) (height g) (x + 1) y) as E1
    by (unfold on_board; bool_cases).
  assert ((0 <? y) = on_board (width g) (height g) x (y - 1)) as E2
    by (unfold on_board; bool_cases).
  assert ((y + 1 <? height g) = on_board (width g) (height g) x (y + 1)) as E3
    by (unfold on_board; bool_cases).
  destruct (slot_filled _ _ (player (field (board g) (x - 1) y) =? p)
              (parent_id (field (board g) (x - 1) y)) E0) as [L0 Q0].
  destruct (slot_filled _ _ (player (field (board g) (x + 1) y) =? p)
              (parent_id (field (board g) (x + 1) y)) E1) as [L1 Q1].
  destruct (slot_filled _ _ (player (field (board g) x (y - 1)) =? p)
              (parent_id (field (board g) x (y - 1))) E2) as [L2 Q2].
  destruct (slot_filled _ _ (player (field (board g) x (y + 1)) =? p)
              (parent_id (field (board g) x (y + 1))) E3) as [L3 Q3].
  split; [lia |]. intros Hall.
  rewrite Q0, Q1, Q2, Q3; [reflexivity | | | |];
    intros Hon He; apply Z.eqb_eq in He;
    (apply Hall; [unfold adjacent; lia | exact Hon | exact He]).
Qed.

(** X18 at the centre of [board3_ring], where the four slots are filled. *)
Lemma X18_find_neighbours_slots_witness :
  board (find_neighbours board3_ring 1 1 1) = board board3_ring /\
  players (find_neighbours board3_ring 1 1 1) = players board3_ring /\
  length (neighbours (find_neighbours board3_ring 1 1 1)) = 4%nat /\
  filled_slots (neighbours (find_neighbours board3_ring 1 1 1))
  <= isSurrounded (board board3_ring) (width board3_ring)
       (height board3_ring) 1 1 1 /\
  ((forall x' y', adjacent 1 1 x' y' ->
      on_board (width board3_ring) (height board3_ring) x' y' = true ->
      player (field (board board3_ring) x' y') = 1 ->
      parent_id (field (board board3_ring) x' y') <> 0) ->
   filled_slots (neighbours (find_neighbours board3_ring 1 1 1))
   = isSurrounded (board board3_ring) (width board3_ring)
       (height board3_ring) 1 1 1).
Proof.
  apply (X18_find_neighbours_slots board3_ring 1 1 1); simpl; lia.
Defined.

(** ** The picture of the test driver

    The last assertion of [game_example.c] compares the answer of
    [game_board] with the constant [board]. *)
Lemma driver_picture : game_board (driver_after 12) = driver_board.
Proof. vm_compute. reflexivity. Qed.

(** ** The boundary of the mover

    The update of the game's info reads the board after the update of the
    areas and tags.  None of the fields it reads is the field of the move,
    so its counts are those of the board before the move; and the diagonal
    count of the code is the one the specification words. *)

Lemma match_count_step p x y b b' w h q cs :
  board_step p (Z.to_nat x) (Z.to_nat y) b b' -> 0 <= x -> 0 <= y ->
  Forall (fun c => c <> (x, y)) cs ->
  match_count b' w h q cs = match_count b w h q cs.
Proof.
  intros B Hx Hy Hcs. unfold match_count. do 2 f_equal.
  induction Hcs as [| [cx cy] cs Hc Hcs IH]; [reflexivity |].
  cbn [List.filter fst snd]. rewrite IH.
  destruct (on_board w h cx cy) eqn:Hon; [| reflexivity].
  apply on_board_true in Hon.
  rewrite (field_step_owner p x y b b' cx cy B) by (auto; lia).
  reflexivity.
Qed.

Lemma leak_at_step p x y b b' w h q dx dy :
  board_step p (Z.to_nat x) (Z.to_nat y) b b' -> 0 <= x -> 0 <= y ->
  dx <> x -> dy <> y ->
  leak_at b' w h q x y dx dy = leak_at b w h q x y dx dy.
Proof.
  intros B Hx Hy Hdx Hdy. unfold leak_at.
  assert (Forall (fun c => c <> (x, y)) [(x, dy); (dx, y)]) as Hcs.
  { repeat constructor; intros E;
      [apply (f_equal snd) in E | apply (f_equal fst) in E];
      simpl in E; lia. }
  rewrite (match_count_step p x y b b' w h 0 _ B Hx Hy Hcs).
  destruct (on_board w h dx dy) eqn:Hon; [| reflexivity].
  apply on_board_true in Hon.
  rewrite (field_step_owner p x y b b' dx dy B); [reflexivity | lia ..|].
  intros E. apply (f_equal fst) in E. simpl in E. lia.
Qed.

Lemma diagonal_leak_count_step p x y b b' w h q :
  board_step p (Z.to_nat x) (Z.to_nat y) b b' -> 0 <= x -> 0 <= y ->
  diagonal_leak_count b' w h q x y = diagonal_leak_count b w h q x y.
Proof.
  intros B Hx Hy. unfold diagonal_leak_count.
  rewrite !(leak_at_step p x y b b') by (auto; lia). reflexivity.
Qed.

Lemma pair_count (c0 c1 : bool) :
  (if c1 then (if c0 then 0 + 1 else 0) + 1 else (if c0 then 0 + 1 else 0))
  = Z.of_nat (length ((if c0 then [true] else [])
                      ++ (if c1 then [true] else []))).
Proof. destruct c0, c1; reflexivity. Qed.

(** [diagonal_neighbours] is the diagonal count of the specification. *)
Lemma diagonal_neighbours_leak g q x y :
  0 <= x < width g -> 0 <= y < height g ->
  width g < 2 ^ 32 -> height g < 2 ^ 32 ->
  diagonal_neighbours g q x y
  = diagonal_leak_count (board g) (width g) (height g) q x y.
Proof.
  intros Hx Hy Hw Hh. unfold diagonal_neighbours. cbv zeta.
  rewrite !(wrap32_small (x + 1)), !(wrap32_small (y + 1)) by lia.
  unfold diagonal_leak_count, leak_at, match_count.
  cbn [List.filter fst snd].
  assert (on_board (width g) (height g) (x - 1) (y - 1)
          = (0 <? x) && (0 <? y)) as -> by (unfold on_board; bool_cases).
  assert (on_board (width g) (height g) (x + 1) (y + 1)
          = (x + 1 <? width g) && (y + 1 <? height g)) as ->
    by (unfold on_board; bool_cases).
  assert (on_board (width g) (height g) x (y - 1) = (0 <? y)) as ->
    by (unfold on_board; bool_cases).
  assert (on_board (width g) (height g) (x - 1) y = (0 <? x)) as ->
    by (unfold on_board; bool_cases).
  assert (on_board (width g) (height g) x (y + 1) = (y + 1 <? height g)) as ->
    by (unfold on_board; bool_cases).
  assert (on_board (width g) (height g) (x + 1) y = (x + 1 <? width g)) as ->
    by (unfold on_board; bool_cases).
  destruct (0 <? x), (0 <? y), (x + 1 <? width g), (y + 1 <? height g);
    cbn [andb];
    repeat match goal with
           | |- context [?a =? ?b] => destruct (a =? b)
           end; reflexivity.
Qed.

Lemma wrap32_two_away x : 0 <= x < 2 ^ 32 -> wrap32 (x + 2) <> x.
Proof.
  intros Hx E. destruct (Z.lt_ge_cases (x + 2) (2 ^ 32)) as [Hs | Hs].
  - rewrite wrap32_small in E by lia. lia.
  - assert (x = 4294967294 \/ x = 4294967295) as [-> | ->] by lia;
      vm_compute in E; discriminate E.
Qed.

Lemma common_free_fields_step p x y b b' w h q :
  board_step p (Z.to_nat x) (Z.to_nat y) b b' ->
  0 <= x < 2 ^ 32 -> 0 <= y < 2 ^ 32 ->
  common_free_fields b' w h q x y = common_free_fields b w h q x y.
Proof.
  intros B Hx Hy. rewrite !common_free_fields_sum.
  assert (forall (c : bool) x' y' v,
            (c = true -> 0 <= x' /\ 0 <= y' /\ (x' <> x \/ y' <> y)) ->
            (if c && (v && (player (field b' x' y') =? q)) then 1 else 0)
            = (if c && (v && (player (field b x' y') =? q)) then 1 else 0))
    as Hterm.
  { intros c x' y' v Hc. destruct c; [| reflexivity].
    destruct (Hc eq_refl) as (Hx' & Hy' & Hne).
    rewrite (field_step_owner p x y b b' x' y' B); [reflexivity | lia ..|].
    intros E. pose proof (f_equal fst E). pose proof (f_equal snd E).
    simpl in *. lia. }
  pose proof (wrap32_range (x + 2)). pose proof (wrap32_range (y + 2)).
  pose proof (wrap32_two_away x Hx). pose proof (wrap32_two_away y Hy).
  rewrite (Hterm (1 <? x) (x - 2) y), (Hterm (wrap32 (x + 2) <? w) _ y),
    (Hterm (1 <? y) x (y - 2)), (Hterm (wrap32 (y + 2) <? h) x _);
    [reflexivity | | | |]; intros Hc; try apply Z.ltb_lt in Hc; lia.
Qed.

(** The [boundary--] of the branches that extend or unite areas. *)
Lemma adjust_area_boundary g p x y idxs g' r :
  move_ctx g p x y -> players g !! pidx p = Some r ->
  adjust_area g p x y idxs = Ok g' ->
  (player (field (board g') x y) = p /\
   exists r', players g' !! pidx p = Some r' /\
              boundary r' = wrap64 (boundary r - 1)) \/
  g' = g.
Proof.
  intros C Hr. induction idxs as [| i idxs IH]; simpl; intros H.
  - injection H as <-. right. reflexivity.
  - destruct (negb (_ =? 0)); [| exact (IH H)].
    left. pose proof (written_player g p x y C) as Hp.
    set (g0 := write_player g x y p) in *.
    pose proof (stage_write_parent p x y g0 x y
                  (nbr (neighbours g0) i) Hp) as S1.
    pose proof (stage_keeps_owner _ _ _ _ _ x y S1 Hp) as Hp1.
    split.
    + exact (stage_keeps_owner _ _ _ _ _ x y
               (stage_upd_player _ p x y _ _ H) Hp1).
    + exists (add_boundary (-1) r). split; [| reflexivity].
      exact (upd_player_rec _ (write_parent g0 x y (nbr (neighbours g) i))
               _ _ _ Hr H).
Qed.

Lemma claim_field_boundary g p x y g1 r :
  move_ctx g p x y -> player (field (board g) x y) <> p ->
  players g !! pidx p = Some r -> claim_field g p x y = Ok g1 ->
  exists r1, players g1 !! pidx p = Some r1 /\
    boundary r1
    = (if isSurrounded (board g) (width g) (height g) p x y =? 0
       then boundary r
       else if player (field (board g1) x y) =? p
            then wrap64 (boundary r - 1) else boundary r).
Proof.
  intros C Hf Hr. unfold claim_field.
  destruct (Z.eqb_spec (isSurrounded (board g) (width g) (height g) p x y) 0)
    as [Ha | Ha]; intros H.
  - unfold new_area in H.
    apply res_bind_Ok in H as (g2 & H2 & H).
    apply res_bind_Ok in H as (r2 & _ & [= <-]).
    exists (add_busy_areas 1 r). split; [| reflexivity].
    exact (upd_player_rec _ (write_player g x y p) _ _ _ Hr H2).
  - unfold join_area in H.
    pose proof (move_ctx_stage _ _ _ _ _
                  (stage_find_neighbours p x y g p x y) C) as C0.
    destruct (different_areas _ _ =? 1).
    + unfold extend_area in H. apply res_bind_Ok in H as (g2 & H2 & H).
      assert (move_ctx g2 p x y /\ board g2 = board g /\
              exists r2, players g2 !! pidx p = Some r2 /\
                         boundary r2 = boundary r)
        as (C2 & Hb2 & r2 & Hr2 & Eb2).
      { destruct (1 <? _).
        - pose proof (stage_upd_player _ p x y _ _ H2) as S2.
          pose proof (upd_player_rec _ (find_neighbours g p x y) _ _ _ Hr H2)
            as Hr2.
          apply upd_player_effect in H2 as (Hb & _).
          split; [eapply move_ctx_stage; eassumption |].
          split; [exact Hb |]. eexists. split; [exact Hr2 | reflexivity].
        - injection H2 as <-. split; [exact C0 |].
          split; [reflexivity |]. exists r. split; [exact Hr | reflexivity]. }
      destruct (adjust_area_boundary _ _ _ _ _ _ _ C2 Hr2 H)
        as [(Hp & r1 & Hr1 & Eb1) | ->].
      * exists r1. split; [exact Hr1 |].
        rewrite Hp, Z.eqb_refl, Eb1, Eb2. reflexivity.
      * exists r2. split; [exact Hr2 |]. rewrite Hb2.
        destruct (Z.eqb_spec (player (field (board g) x y)) p);
          [contradiction | exact Eb2].
    + pose proof (union_areas_claims _ _ _ _ _ _ C0 H) as Hp.
      rewrite Hp, Z.eqb_refl.
      unfold union_areas in H.
      apply res_bind_Ok in H as (g2 & H2 & H).
      apply res_bind_Ok in H as (g3 & H3 & H).
      apply res_bind_Ok in H as (g4 & H4 & H).
      apply res_bind_Ok in H as (g5 & H5 & H).
      apply res_bind_Ok in H as (g6 & H6 & H7).
      apply BFS_players in H4 as [P4 _]. apply BFS_players in H5 as [P5 _].
      apply BFS_players in H6 as [P6 _]. apply BFS_players in H7 as [P7 _].
      pose proof (upd_player_rec _ _ _ _ _
                    (Hr : players (write_parent
                             (write_player (find_neighbours g p x y) x y p)
                             x y _) !! pidx p = Some r) H2) as Hr2.
      pose proof (upd_player_rec _ _ _ _ _ Hr2 H3) as Hr3.
      rewrite P7, P6, P5, P4. eexists. split; [exact Hr3 |]. reflexivity.
Qed.

(** C6 as stated is refuted by the move of player 1 from its corner
    [(0, 0)] to [(1, 0)]: the boundary of player 1 is 2, the field has two
    empty fields around, no field of player 1 two steps away and no
    diagonal count, so the four corrections of the claim give 4; the
    boundary after the move is 3, since the branch that extends the area
    has taken 1 for the field itself. *)
Lemma C6_counterexample :
  reachable board3_corner /\
  game_move board3_corner 1 1 0 = Ok (true, board3_row) /\
  (boundary <$> player_rec board3_corner 1) = Some 2 /\
  orthogonal_match_count (board board3_corner) 3 3 0 1 0 = 2 /\
  two_step_match_count (board board3_corner) 3 3 1 1 0 = 0 /\
  diagonal_leak_count (board board3_corner) 3 3 1 1 0 = 0 /\
  (boundary <$> player_rec board3_row 1) = Some 3 /\
  (boundary <$> player_rec board3_row 1)
  <> Some (wrap64 (2 + orthogonal_match_count (board board3_corner) 3 3 0 1 0
                   - two_step_match_count (board board3_corner) 3 3 1 1 0
                   - diagonal_leak_count (board board3_corner) 3 3 1 1 0)).
Proof.
  split.
  - apply (play_reachable [mk_move 1 0 0] board3).
    + exact board3_reachable.
    + apply moves_ok_small. reflexivity.
    + vm_compute. reflexivity.
  - repeat split. vm_compute. discriminate.
Qed.

(** C6, amended: after an accepted move of player [p] to [(x, y)], through
    any of the branches, the boundary of [p] is, in the arithmetic of
    [uint64_t], its boundary before the move, less 1 when the move took a
    field next to a field of [p], plus the number of empty fields next to
    [(x, y)], less the count of [common_free_fields], less the diagonal
    count of [p]; the counts are those of the board before the move, and the
    count of [common_free_fields] is the number of fields of [p] two steps
    away on the same axis whenever [x + 2] and [y + 2] fit in 32 bits.  The
    boundary of every other player [q] loses the number of fields of [q] next
    to [(x, y)]. *)
Theorem C6_ledger_update g p x y g' :
  wf_game g -> uint32 p -> uint32 x -> uint32 y ->
  game_move g p x y = Ok (true, g') ->
  (exists r r',
     player_rec g p = Some r /\ player_rec g' p = Some r' /\
     boundary r'
     = wrap64 (boundary r
               - own_field_taken g g' p x y
               + orthogonal_match_count (board g) (width g) (height g) 0 x y
               - common_free_fields (board g) (width g) (height g) p x y
               - diagonal_leak_count (board g) (width g) (height g) p x y)) /\
  (x + 2 < 2 ^ 32 -> y + 2 < 2 ^ 32 ->
   common_free_fields (board g) (width g) (height g) p x y
   = two_step_match_count (board g) (width g) (height g) p x y) /\
  (forall q, 1 <= q <= players_num g -> q <> p ->
     exists r r',
       player_rec g q = Some r /\ player_rec g' q = Some r' /\
       boundary r'
       = (let n :=
            orthogonal_match_count (board g) (width g) (height g) q x y in
          if n =? 0 then boundary r else wrap64 (boundary r - n))).
Proof.
  intros Hwf Hp Hx Hy H. unfold uint32 in *.
  destruct (accepted_stages g p x y g' Hwf)
    as (Hv & Hxw & Hyh & Hf & g1 & E1 & S & E2);
    [lia | lia | lia | exact H |].
  pose proof (wf_width g Hwf) as Hw. pose proof (wf_height g Hwf) as Hh.
  assert (move_ctx g p x y) as C.
  { apply wf_move_ctx; [exact Hwf | exact Hv | lia | lia |].
    apply valid_coordinate_true. lia. }
  assert (info_ctx g1) as C1
    by (apply (info_ctx_stage p x y g g1 Hwf); [lia | exact S]).
  pose proof S as (W1 & H1 & A1 & N1 & L1 & P1 & B1).
  destruct (info_records g1 p x y g' C1) as [Rp Rq];
    [lia | lia | lia | lia | lia | exact E2 |].
  apply update_game_info_effect in E2 as (Hb & _).
  split; [| split].
  - destruct (player_rec_valid g p Hwf Hv) as (r & Hr & _).
    assert (players g !! pidx p = Some r) as Hrp
      by (rewrite pidx_valid by lia; exact Hr).
    assert (player (field (board g) x y) <> p) as Hne by lia.
    destruct (claim_field_boundary g p x y g1 r C Hne Hrp E1)
      as (r1 & Hr1 & Eb1).
    assert (player_rec g1 p = Some r1) as Hr1'
      by (unfold player_rec; rewrite <- (pidx_valid p) by lia; exact Hr1).
    exists r, (ledger g1 p x y r1).
    split; [exact Hr |]. split; [exact (Rp r1 Hr1') |].
    rewrite boundary_ledger.
    rewrite (diagonal_neighbours_leak g1) by (rewrite ?W1, ?H1; lia).
    rewrite W1, H1.
    rewrite (isSurrounded_step p x y (board g) (board g1)) by (auto; lia).
    rewrite (isSurrounded_orthogonal (board g)) by lia.
    rewrite (common_free_fields_step p x y (board g) (board g1))
      by (auto; lia).
    rewrite (diagonal_leak_count_step p x y (board g) (board g1))
      by (auto; lia).
    rewrite Eb1. unfold own_field_taken.
    rewrite (isSurrounded_orthogonal (board g)) by lia. rewrite Hb.
    generalize (orthogonal_match_count (board g) (width g) (height g) 0 x y)
      as e.
    generalize (common_free_fields (board g) (width g) (height g) p x y)
      as t.
    generalize (diagonal_leak_count (board g) (width g) (height g) p x y)
      as d.
    intros d t e.
    destruct (orthogonal_match_count (board g) (width g) (height g) p x y
              =? 0); [apply (f_equal wrap64); lia |].
    destruct (player (field (board g1) x y) =? p);
      [| apply (f_equal wrap64); lia].
    replace (wrap64 (boundary r - 1) + e - t - d)
      with (wrap64 (boundary r - 1) + (e - t - d)) by lia.
    rewrite wrap64_add_l. apply (f_equal wrap64). lia.
  - intros Hx2 Hy2. apply common_free_fields_two_step; lia.
  - intros q Hq Hqp.
    destruct (player_rec_valid g q Hwf Hq) as (r & Hr & _).
    assert (player_rec g1 q = Some r) as Hr1.
    { unfold player_rec in *. rewrite P1; [exact Hr |].
      rewrite pidx_valid by lia. lia. }
    eexists r, _. split; [exact Hr |].
    split; [apply Rq; [lia | exact Hqp | exact Hr1] |].
    rewrite boundary_dec, W1, H1.
    rewrite (isSurrounded_step p x y (board g) (board g1)) by (auto; lia).
    rewrite (isSurrounded_orthogonal (board g)) by lia.
    reflexivity.
Qed.

(** C6, amended, at the move of player 1 to the centre of [board3_pair]:
    its corner is diagonal to the centre, one of the two fields between
    them is empty, and the field below the centre belongs to player 2. *)
Lemma C6_ledger_update_witness :
  (exists r r',
     player_rec board3_pair 1 = Some r /\
     player_rec board3_diagonal 1 = Some r' /\
     boundary r'
     = wrap64 (boundary r
               - own_field_taken board3_pair board3_diagonal 1 1 1
               + orthogonal_match_count (board board3_pair)
                   (width board3_pair) (height board3_pair) 0 1 1
               - common_free_fields (board board3_pair)
                   (width board3_pair) (height board3_pair) 1 1 1
               - diagonal_leak_count (board board3_pair)
                   (width board3_pair) (height board3_pair) 1 1 1)) /\
  (1 + 2 < 2 ^ 32 -> 1 + 2 < 2 ^ 32 ->
   common_free_fields (board board3_pair)
     (width board3_pair) (height board3_pair) 1 1 1
   = two_step_match_count (board board3_pair)
       (width board3_pair) (height board3_pair) 1 1 1) /\
  (forall q, 1 <= q <= players_num board3_pair -> q <> 1 ->
     exists r r',
       player_rec board3_pair q = Some r /\
       player_rec board3_diagonal q = Some r' /\
       boundary r'
       = (let n :=
            orthogonal_match_count (board board3_pair)
              (width board3_pair) (height board3_pair) q 1 1 in
          if n =? 0 then boundary r else wrap64 (boundary r - n))).
Proof.
  apply (C6_ledger_update board3_pair 1 1 1 board3_diagonal).
  - apply (game_move_wf board3_corner 2 1 0 true);
      [exact board3_corner_wf | lia | lia | lia |].
    vm_compute. reflexivity.
  - unfold uint32. lia.
  - unfold uint32. lia.
  - unfold uint32. lia.
  - vm_compute. reflexivity.
Defined.
